(** * SemWiki: graph construction, path resolution and hierarchical search

    A shallow embedding of [src/semwiki_parser.py] (class [SemWikiParser]),
    [src/semwiki_search.py] (class [SemWikiSearch]) and the graph checks of
    [src/semwiki_errors.py] (class [SemWikiDiagnostics]), and the properties
    of the design document checked against it.

    Conventions of the embedding.
    - A Python [str] is a [string] (a sequence of 8-bit characters); [lower]
      is the ASCII lower-casing, the part of [str.lower] that the documents of
      the repository exercise.
    - A [dict] that is only looked up and updated is a [gmap]; a [dict] whose
      iteration order is observed ([graph["nodes"]], a node's [relations]) is
      an association list in insertion order; a [set] is a [gset].
    - Methods that mutate [self] take the part of the state they touch and
      return its new value.
    - [datetime.now()] is read by the caller and passed in. *)

From stdpp Require Import base decidable option list relations gmap strings
  fin_maps fin_sets sorting.
From Stdlib Require Import Ascii Lia.

Set Warnings "-clear-no-such-hyp".

(** ** Python string primitives used by the program *)

Module PyStr.

(** [s.count(c)] for a one-character [c]. *)
Fixpoint count_char (c : ascii) (s : string) : nat :=
  match s with
  | EmptyString => 0
  | String a s' => (if decide (a = c) then 1 else 0) + count_char c s'
  end.

(** [s.split(c)] for a one-character separator: never empty. *)
Fixpoint split_char (c : ascii) (s : string) : list string :=
  match s with
  | EmptyString => [EmptyString]
  | String a s' =>
      if decide (a = c) then EmptyString :: split_char c s'
      else match split_char c s' with
           | [] => [String a EmptyString]
           | h :: t => String a h :: t
           end
  end.

(** [sep.join(l)]. *)
Fixpoint join (sep : string) (l : list string) : string :=
  match l with
  | [] => ""
  | x :: l' =>
      match l' with
      | [] => x
      | _ :: _ => x +:+ sep +:+ join sep l'
      end
  end.

(** [needle in hay] on strings. *)
Fixpoint contains (needle hay : string) : bool :=
  String.prefix needle hay ||
  match hay with
  | EmptyString => false
  | String _ hay' => contains needle hay'
  end.

Definition lower_ascii (a : ascii) : ascii :=
  let n := nat_of_ascii a in
  if Nat.leb 65 n && Nat.leb n 90 then ascii_of_nat (n + 32) else a.

(** [s.lower()]. *)
Fixpoint lower (s : string) : string :=
  match s with
  | EmptyString => EmptyString
  | String a s' => String (lower_ascii a) (lower s')
  end.

Fixpoint drop_chars (n : nat) (s : string) : string :=
  match n, s with
  | 0, _ => s
  | S _, EmptyString => EmptyString
  | S n', String _ s' => drop_chars n' s'
  end.

(** [s.split(pat, 1)[1]] when [pat in s]: what follows the first occurrence. *)
Fixpoint after_first (pat s : string) : option string :=
  if String.prefix pat s then Some (drop_chars (String.length pat) s)
  else match s with
       | EmptyString => None
       | String _ s' => after_first pat s'
       end.

(** [s.replace(pat, "")] for a non-empty [pat]: the occurrences are removed
    left to right, without overlap; [skip] counts the characters of the
    occurrence being removed that are still to be dropped. *)
Fixpoint remove_all_from (pat : string) (skip : nat) (s : string) : string :=
  match s with
  | EmptyString => EmptyString
  | String a s' =>
      match skip with
      | S k => remove_all_from pat k s'
      | 0 =>
          if String.prefix pat s
          then remove_all_from pat (String.length pat - 1) s'
          else String a (remove_all_from pat 0 s')
      end
  end.

Definition remove_all (pat s : string) : string := remove_all_from pat 0 s.

(** [l[-1]] of a list of strings that is known not to be empty. *)
Definition last_segment (l : list string) : string := default "" (last l).

(** The order of Python on [str] (by code point), as a boolean. *)
Definition str_le (a b : string) : bool := String.leb a b.

(** The white space of [str.strip] among 8-bit characters: tab to carriage
    return, the four separators 28 to 31, the space, and the code points 133
    and 160. *)
Definition is_space (a : ascii) : bool :=
  let n := nat_of_ascii a in
  (Nat.leb 9 n && Nat.leb n 13) || (Nat.leb 28 n && Nat.leb n 32)
  || Nat.eqb n 133 || Nat.eqb n 160.

Fixpoint lstrip (s : string) : string :=
  match s with
  | EmptyString => EmptyString
  | String a s' => if is_space a then lstrip s' else s
  end.

Fixpoint rstrip (s : string) : string :=
  match s with
  | EmptyString => EmptyString
  | String a s' =>
      match rstrip s' with
      | EmptyString => if is_space a then EmptyString else String a EmptyString
      | String b r => String a (String b r)
      end
  end.

(** [s.strip()]. *)
Definition strip (s : string) : string := rstrip (lstrip s).

(** [s.startswith(p)] and [s.endswith(p)]. *)
Definition startswith (p s : string) : bool := String.prefix p s.

Definition endswith (p s : string) : bool :=
  Nat.leb (String.length p) (String.length s)
  && bool_decide (drop_chars (String.length s - String.length p) s = p).

(** [s[a:-b]] for [b > 0]: empty when the two ends meet. *)
Definition slice (a b : nat) (s : string) : string :=
  String.substring a (String.length s - b - a) s.

End PyStr.

(** ** Dictionaries whose order is observed *)

Module PyDict.

(** [d.get(key)] on an association list in insertion order. *)
Fixpoint dict_get {A} (key : string) (d : list (string * A)) : option A :=
  match d with
  | [] => None
  | (k, v) :: rest => if decide (k = key) then Some v else dict_get key rest
  end.

End PyDict.

(** ** The parser: taxonomy, cycle detector and graph store *)

Module Parser.

(** [self.relation_inverses]. *)
Definition relation_inverses_table : list (string * string) :=
  [ ("is_a", "has_instance"); ("has_instance", "is_a");
    ("part_of", "has_part"); ("has_part", "part_of");
    ("located_in", "location_of"); ("location_of", "located_in");
    ("created_by", "creator_of"); ("creator_of", "created_by");
    ("precedes", "follows"); ("follows", "precedes");
    ("causes", "caused_by"); ("caused_by", "causes");
    ("enables", "enabled_by"); ("enabled_by", "enables");
    ("regulates", "regulated_by"); ("regulated_by", "regulates");
    ("offers", "offered_by"); ("offered_by", "offers") ].

Definition relation_inverses : gmap string string :=
  list_to_map relation_inverses_table.

(** An entry of [graph["edges"]]. *)
Record Edge := mkEdge {
  e_id : string;
  e_source : string;
  e_relation : string;
  e_target : string;
  e_source_file : string;
  e_created : string
}.

(** A value of [graph["nodes"]]. [n_classification_path] is optional because
    the search engine reads it with a default. *)
Record Node := mkNode {
  n_id : string;
  n_type : string;
  n_classification_path : option string;
  n_created : string;
  n_sources : list string;
  n_relations : list (string * list string);
  n_properties : list (string * string)
}.

(** [self.graph], without its [metadata]. *)
Record Graph := mkGraph {
  nodes : list (string * Node);
  edges : list Edge;
  taxonomy_mappings : gmap string string
}.

(** [self.taxonomy]. *)
Record Taxonomy := mkTaxonomy {
  search_to_classification : gmap string string;
  classification_to_search : gmap string string;
  aliases : gmap string (list string)
}.

(** The structures [_load_graph] and [_load_taxonomy] create when no file
    exists. *)
Definition empty_graph : Graph := mkGraph [] [] ∅.
Definition empty_taxonomy : Taxonomy := mkTaxonomy ∅ ∅ ∅.

(** *** Path resolver *)

Definition slash_count (x : string) : nat := PyStr.count_char "/"%char x.

(** One step of a stable sort by [slash_count], descending: [x] stood before
    every element of [l] and stays before those whose key is not greater. *)
Fixpoint insert_by_depth (x : string) (l : list string) : list string :=
  match l with
  | [] => [x]
  | y :: l' =>
      if decide (slash_count x < slash_count y) then y :: insert_by_depth x l'
      else x :: y :: l'
  end.

(** [sorted(is_a_values, key=lambda x: x.count("/"), reverse=True)]: Python's
    sort is stable, also under [reverse=True]. *)
Definition sorted_by_depth (is_a_values : list string) : list string :=
  foldr insert_by_depth [] is_a_values.

(** [_get_context_classification]. *)
Definition _get_context_classification (current_context : option string)
  : string :=
  match current_context with
  | None => ""
  | Some rel_path =>
      let rel_path :=
        match PyStr.after_first "concepts/" rel_path with
        | Some rest => rest
        | None => rel_path
        end in
      PyStr.remove_all ".md" rel_path
  end.

(** [concept_name.split("/")[-1]]. *)
Definition concept_base_of (concept_name : string) : string :=
  PyStr.last_segment (PyStr.split_char "/"%char concept_name).

(** [resolve_reference]: the returned triple and the taxonomy afterwards.
    [is_a_values] is [None] or a list; both [None] and [[]] are falsy.
    [current_context] is [None] or the text of the path of the file being
    parsed. *)
Definition resolve_reference (concept_name : string)
    (is_a_values : option (list string)) (current_context : option string)
    (taxonomy : Taxonomy) : (string * string * list string) * Taxonomy :=
  match search_to_classification taxonomy !! concept_name with
  | Some classification_path =>
      ((concept_name, classification_path, [classification_path]), taxonomy)
  | None =>
      match is_a_values with
      | Some ((_ :: _) as is_a_values) =>
          let sorted_paths := sorted_by_depth is_a_values in
          let primary_classification := default "" (head sorted_paths) in
          let concept_base := concept_base_of concept_name in
          let classification_path :=
            primary_classification +:+ "/" +:+ concept_base in
          let all_paths :=
            (λ path, path +:+ "/" +:+ concept_base) <$> is_a_values in
          let taxonomy' :=
            mkTaxonomy
              (<[concept_name := classification_path]>
                 (search_to_classification taxonomy))
              (<[classification_path := concept_name]>
                 (classification_to_search taxonomy))
              (if decide (1 < length all_paths)
               then <[concept_name := drop 1 all_paths]> (aliases taxonomy)
               else aliases taxonomy) in
          ((concept_name, classification_path, all_paths), taxonomy')
      | _ =>
          match current_context with
          | Some ctx =>
              if PyStr.contains "/" ctx then
                let context_path := _get_context_classification current_context in
                let concept_base := concept_base_of concept_name in
                let classification_path :=
                  context_path +:+ "/" +:+ concept_base in
                ((concept_name, classification_path, [classification_path]),
                 taxonomy)
              else ((concept_name, concept_name, [concept_name]), taxonomy)
          | None => ((concept_name, concept_name, [concept_name]), taxonomy)
          end
      end
  end.

(** *** Cycle detector *)

(** [is_a_graph]: a [defaultdict(set)] filled from the is_a edges, then the
    proposed edge. *)
Definition add_target (G : gmap string (gset string)) (s t : string)
  : gmap string (gset string) :=
  <[s := {[t]} ∪ (G !!! s)]> G.

Definition is_a_graph_of (edges : list Edge) (source target : string)
  : gmap string (gset string) :=
  add_target
    (fold_left
       (λ G edge,
          if decide (e_relation edge = "is_a")
          then add_target G (e_source edge) (e_target edge) else G)
       edges ∅)
    source target.

(** The mutable state of the traversal: [visited] and the list [path_stack],
    one object shared by all the recursive calls. *)
Definition dfs_state : Type := gset string * list string.

(** The outcome of a call: [None] when the recursion budget of the model is
    used up, otherwise the value returned and the state left. *)
Definition dfs_outcome : Type := option (option (list string) * dfs_state).

(** Truth value of a returned [Optional[List[str]]]. *)
Definition truthy (result : option (list string)) : bool :=
  match result with
  | Some (_ :: _) => true
  | _ => false
  end.

(** [path_stack.index(node)]. *)
Definition index_of (node : string) (path_stack : list string) : nat :=
  match list_find (λ x, x = node) path_stack with
  | Some (i, _) => i
  | None => 0
  end.

(** The [for neighbor in is_a_graph[node]] loop, over the recursive call. *)
Fixpoint dfs_neighbors (rec : string → dfs_state → dfs_outcome)
    (neighbors : list string) (st : dfs_state) : dfs_outcome :=
  match neighbors with
  | [] => Some (None, st)
  | neighbor :: rest =>
      match rec neighbor st with
      | None => None
      | Some (result, st') =>
          if truthy result then Some (result, st')
          else dfs_neighbors rec rest st'
      end
  end.

(** The inner function [dfs]. A set is iterated in the order of [elements]. *)
Fixpoint dfs (fuel : nat) (is_a_graph : gmap string (gset string))
    (node : string) (st : dfs_state) : dfs_outcome :=
  match fuel with
  | 0 => None
  | S fuel' =>
      let '(visited, path_stack) := st in
      if decide (node ∈ path_stack) then
        let cycle_start := index_of node path_stack in
        Some (Some (drop cycle_start path_stack ++ [node]), st)
      else if decide (node ∈ visited) then Some (None, st)
      else
        match dfs_neighbors (dfs fuel' is_a_graph)
                (elements (is_a_graph !!! node))
                ({[node]} ∪ visited, path_stack ++ [node]) with
        | None => None
        | Some (result, (visited', path_stack')) =>
            if truthy result then Some (result, (visited', path_stack'))
            else Some (None, (visited', removelast path_stack'))
        end
  end.

(** A recursion depth no traversal exceeds: one more than the number of
    end points of the is_a edges and of the proposed edge. *)
Definition dfs_fuel (edges : list Edge) : nat := 2 * length edges + 3.

(** The traversal of [detect_circular_reference] for relation is_a, with
    the state it leaves. *)
Definition detect_run (edges : list Edge) (source target : string)
  : dfs_outcome :=
  dfs (dfs_fuel edges) (is_a_graph_of edges source target) source (∅, []).

(** [detect_circular_reference]. *)
Definition detect_circular_reference (edges : list Edge)
    (source target relation : string) : option (list string) :=
  if decide (relation ≠ "is_a") then None
  else match detect_run edges source target with
       | Some (result, _) => result
       | None => None
       end.

(** *** Graph store *)

(** [f"{source}--{rel_type}--{target}"]. *)
Definition edge_id_of (source rel_type target : string) : string :=
  source +:+ "--" +:+ rel_type +:+ "--" +:+ target.

(** [next((e for e in self.graph["edges"] if e["id"] == edge_id), None)]. *)
Definition find_edge (edge_id : string) (edges : list Edge) : option Edge :=
  snd <$> list_find (λ e, e_id e = edge_id) edges.

(** The two guarded statements on [node["relations"]]: create the list of
    [rel_type] when the key is missing, append [target] when it is not in the
    list. A key keeps its place in the dictionary. *)
Fixpoint relations_add (relations : list (string * list string))
    (rel_type target : string) : list (string * list string) :=
  match relations with
  | [] => [(rel_type, [target])]
  | (k, targets) :: rest =>
      if decide (k = rel_type)
      then (k, if decide (target ∈ targets) then targets
               else targets ++ [target]) :: rest
      else (k, targets) :: relations_add rest rel_type target
  end.

Definition node_add_relation (rel_type target : string) (node : Node) : Node :=
  mkNode (n_id node) (n_type node) (n_classification_path node)
    (n_created node) (n_sources node)
    (relations_add (n_relations node) rel_type target) (n_properties node).

(** [if source in self.graph["nodes"]: ...]: the node of key [source] is
    updated in place; nothing happens when the key is missing. *)
Fixpoint update_node_relations (nodes : list (string * Node))
    (source rel_type target : string) : list (string * Node) :=
  match nodes with
  | [] => []
  | (k, node) :: rest =>
      if decide (k = source)
      then (k, node_add_relation rel_type target node) :: rest
      else (k, node) :: update_node_relations rest source rel_type target
  end.

(** [_add_inverse_relation]; [now] is the value of [datetime.now()] read for
    the [created] field. *)
Definition _add_inverse_relation (now : string)
    (source rel_type target source_file : string) (graph : Graph) : Graph :=
  match relation_inverses !! rel_type with
  | None => graph
  | Some inverse_type =>
      let edge_id := edge_id_of target inverse_type source in
      let edge := mkEdge edge_id target inverse_type source source_file now in
      match find_edge edge_id (edges graph) with
      | Some _ => graph
      | None =>
          mkGraph
            (update_node_relations (nodes graph) target inverse_type source)
            (edges graph ++ [edge])
            (taxonomy_mappings graph)
      end
  end.

(** [_add_relation]; [now] and [now_inverse] are the two readings of the
    clock, for the edge and for its inverse. *)
Definition _add_relation (now now_inverse : string)
    (source rel_type target source_file : string) (graph : Graph) : Graph :=
  if (if decide (rel_type = "is_a")
      then truthy (detect_circular_reference (edges graph) source target "is_a")
      else false)
  then graph
  else
    let edge_id := edge_id_of source rel_type target in
    let edge := mkEdge edge_id source rel_type target source_file now in
    match find_edge edge_id (edges graph) with
    | Some _ => graph
    | None =>
        _add_inverse_relation now_inverse source rel_type target source_file
          (mkGraph
             (update_node_relations (nodes graph) source rel_type target)
             (edges graph ++ [edge])
             (taxonomy_mappings graph))
    end.

(** A call of [_add_relation], as data. *)
Record AddEdge := mkAddEdge {
  op_source : string;
  op_relation : string;
  op_target : string;
  op_source_file : string;
  op_now : string;
  op_now_inverse : string
}.

Definition add_edge (graph : Graph) (op : AddEdge) : Graph :=
  _add_relation (op_now op) (op_now_inverse op) (op_source op)
    (op_relation op) (op_target op) (op_source_file op) graph.

(** The graph after a sequence of calls. *)
Definition add_edges (ops : list AddEdge) (graph : Graph) : Graph :=
  fold_left add_edge ops graph.

(** *** Relation arrays *)

(** The two quote characters. *)
Definition dquote : ascii := "034"%char.
Definition squote : ascii := "'"%char.

(** [_clean_value]. *)
Definition _clean_value (value : string) : string :=
  let value := PyStr.strip value in
  if PyStr.startswith "[[" value && PyStr.endswith "]]" value
  then PyStr.slice 2 2 value
  else if (PyStr.startswith (String dquote "") value
           && PyStr.endswith (String dquote "") value)
          || (PyStr.startswith (String squote "") value
              && PyStr.endswith (String squote "") value)
  then PyStr.slice 1 1 value
  else value.

(** The local variables of [_parse_array]. *)
Record ArrayState := mkArrayState {
  pa_items : list string;
  pa_current : string;
  pa_in_quote : bool;
  pa_quote_char : option ascii;
  pa_bracket_depth : Z
}.

(** [if current.strip(): items.append(self._clean_value(current.strip()))]. *)
Definition append_item (items : list string) (current : string)
  : list string :=
  if decide (PyStr.strip current = "") then items
  else items ++ [_clean_value (PyStr.strip current)].

(** The body of the loop over the characters, branch by branch. *)
Definition parse_array_step (st : ArrayState) (char : ascii) : ArrayState :=
  let '(mkArrayState items current in_quote quote_char bracket_depth) := st in
  if bool_decide (char = dquote ∨ char = squote) && negb in_quote then
    mkArrayState items (current +:+ String char "") true (Some char)
      bracket_depth
  else if bool_decide (Some char = quote_char) && in_quote then
    mkArrayState items (current +:+ String char "") false quote_char
      bracket_depth
  else if bool_decide (char = "["%char) && negb in_quote then
    mkArrayState items (current +:+ String char "") in_quote quote_char
      (bracket_depth + 1)
  else if bool_decide (char = "]"%char) && negb in_quote then
    mkArrayState items (current +:+ String char "") in_quote quote_char
      (bracket_depth - 1)
  else if bool_decide (char = ","%char) && negb in_quote
          && bool_decide (bracket_depth = 0%Z) then
    mkArrayState (append_item items current) "" in_quote quote_char
      bracket_depth
  else
    mkArrayState items (current +:+ String char "") in_quote quote_char
      bracket_depth.

Fixpoint parse_array_loop (text : string) (st : ArrayState) : ArrayState :=
  match text with
  | EmptyString => st
  | String char rest => parse_array_loop rest (parse_array_step st char)
  end.

Definition parse_array_start : ArrayState :=
  mkArrayState [] "" false None 0.

(** [_parse_array]. *)
Definition _parse_array (text : string) : list string :=
  let st := parse_array_loop text parse_array_start in
  append_item (pa_items st) (pa_current st).

(** *** Adding parsed concepts *)

(** A value of the dictionary [concept["relations"]]: a string or a list of
    strings. *)
Inductive RelValue :=
  | Single (target : string)
  | Many (targets : list string).

(** An element of the list [parse_file] returns. *)
Record ParsedConcept := mkParsedConcept {
  pc_search_path : string;
  pc_classification_path : string;
  pc_all_paths : list string;
  pc_relations : list (string * RelValue);
  pc_source_file : string
}.

(** The readings of the clock are numbered; [clock i] is the i-th value
    [datetime.now().isoformat()] returns. The functions below take the number
    of the next reading and return it with their result. *)

(** How many readings a call of [_add_relation] makes: none when the call is
    refused, one for the edge (the dictionary is built before the duplicate
    check), one more in [_add_inverse_relation] when the relation has an
    inverse. *)
Definition clock_reads (graph : Graph) (source rel_type target : string)
  : nat :=
  if (if decide (rel_type = "is_a")
      then truthy (detect_circular_reference (edges graph) source target "is_a")
      else false)
  then 0
  else
    match find_edge (edge_id_of source rel_type target) (edges graph) with
    | Some _ => 1
    | None =>
        match relation_inverses !! rel_type with
        | Some _ => 2
        | None => 1
        end
    end.

Definition add_relation_at (clock : nat → string)
    (source rel_type target source_file : string) (st : Graph * nat)
  : Graph * nat :=
  let '(graph, tick) := st in
  (_add_relation (clock tick) (clock (S tick)) source rel_type target
     source_file graph,
   tick + clock_reads graph source rel_type target).

(** [if source_file not in node["sources"]: node["sources"].append(...)]. *)
Definition node_add_source (source_file : string) (node : Node) : Node :=
  mkNode (n_id node) (n_type node) (n_classification_path node)
    (n_created node)
    (if decide (source_file ∈ n_sources node) then n_sources node
     else n_sources node ++ [source_file])
    (n_relations node) (n_properties node).

(** The node of key [search_path], which exists, updated in place. *)
Fixpoint update_node_sources (nodes : list (string * Node))
    (search_path source_file : string) : list (string * Node) :=
  match nodes with
  | [] => []
  | (k, node) :: rest =>
      if decide (k = search_path)
      then (k, node_add_source source_file node) :: rest
      else (k, node) :: update_node_sources rest search_path source_file
  end.

(** The iterable of targets of a relation value: [for t in target] or the
    single string. *)
Definition targets_of (value : RelValue) : list string :=
  match value with
  | Single target => [target]
  | Many targets => targets
  end.

(** The body of the loop of [add_to_graph] for one concept. *)
Definition add_concept (clock : nat → string) (st : Graph * nat)
    (concept : ParsedConcept) : Graph * nat :=
  let '(graph, tick) := st in
  let search_path := pc_search_path concept in
  let classification_path := pc_classification_path concept in
  let '(nodes1, tick1) :=
    match PyDict.dict_get search_path (nodes graph) with
    | None =>
        (nodes graph ++
           [(search_path,
             mkNode search_path "concept" (Some classification_path)
               (clock tick) [pc_source_file concept] [] [])],
         S tick)
    | Some _ =>
        (update_node_sources (nodes graph) search_path
           (pc_source_file concept),
         tick)
    end in
  let graph1 :=
    mkGraph nodes1 (edges graph)
      (<[search_path := classification_path]> (taxonomy_mappings graph)) in
  fold_left
    (λ st '(rel_type, value),
       fold_left
         (λ st target,
            add_relation_at clock search_path rel_type target
              (pc_source_file concept) st)
         (targets_of value) st)
    (pc_relations concept) (graph1, tick1).

(** [add_to_graph]: the graph and the number of the next reading of the
    clock afterwards. *)
Definition add_to_graph (clock : nat → string)
    (parsed_concepts : list ParsedConcept) (st : Graph * nat) : Graph * nat :=
  fold_left (add_concept clock) parsed_concepts st.

End Parser.

(** ** The search engine *)

Module Search.
Import Parser.

(** [node_data.get("classification_path", node_id)]. *)
Definition classification_path_of (node_id : string) (node_data : Node)
  : string :=
  default node_id (n_classification_path node_data).





(** *** Ancestor hierarchy *)

(** The first node whose ["classification_path"] is the one looked for. *)
Definition find_search_path (nodes : list (string * Node))
    (classification_path : string) : option string :=
  (λ found, fst (snd found)) <$>
    list_find (λ item : string * Node,
                 n_classification_path (snd item) = Some classification_path)
      nodes.

(** [self.graph["nodes"].get(key, {})] followed by a read with a default:
    a missing node reads as the empty dictionary. *)
Definition lookup_node (nodes : list (string * Node)) (key : string)
  : option Node :=
  PyDict.dict_get key nodes.

(** [node.get("relations", {}).get("is_a", [])]. *)
Definition is_a_targets_of (node : option Node) : list string :=
  match node with
  | None => []
  | Some node_data =>
      default [] (PyDict.dict_get "is_a" (n_relations node_data))
  end.

(** The lexical fallback: [for i in range(len(parts) - 1, 0, -1)]. *)
Definition fallback_hierarchy (classification_path : string) : list string :=
  let parts := PyStr.split_char "/"%char classification_path in
  fst
    (fold_left
       (λ '(hierarchy, visited) i,
          let parent_path := PyStr.join "/" (take i parts) in
          if decide (parent_path ∈ visited) then (hierarchy, visited)
          else (hierarchy ++ [parent_path], {[parent_path]} ∪ visited))
       (reverse (seq 1 (length parts - 1)))
       ([classification_path], ({[classification_path]} : gset string))).

Definition max_depth : nat := 10.

(** The [while current and depth < max_depth] loop; [hops] is
    [max_depth - depth]. *)
Fixpoint traverse_is_a (hops : nat) (nodes : list (string * Node))
    (current : string) (hierarchy : list string) (visited : gset string)
  : list string :=
  match hops with
  | 0 => hierarchy
  | S hops' =>
      if decide (current = "") then hierarchy
      else
        match is_a_targets_of (lookup_node nodes current) with
        | [] => hierarchy
        | target :: _ =>
            let target_classification :=
              match lookup_node nodes target with
              | Some target_node => classification_path_of target target_node
              | None => target
              end in
            if decide (target_classification ∈ visited)
            then traverse_is_a hops' nodes target hierarchy visited
            else traverse_is_a hops' nodes target
                   (hierarchy ++ [target_classification])
                   ({[target_classification]} ∪ visited)
        end
  end.

(** [get_parent_hierarchy]: the list returned and [self.hierarchy_cache]
    afterwards. *)
Definition get_parent_hierarchy (graph : Graph)
    (hierarchy_cache : gmap string (list string))
    (classification_path : string)
  : list string * gmap string (list string) :=
  match hierarchy_cache !! classification_path with
  | Some cached => (cached, hierarchy_cache)
  | None =>
      match find_search_path (nodes graph) classification_path with
      | Some (String c rest) =>
          let hierarchy :=
            traverse_is_a max_depth (nodes graph) (String c rest)
              [classification_path] {[classification_path]} in
          (hierarchy, <[classification_path := hierarchy]> hierarchy_cache)
      | _ => (fallback_hierarchy classification_path, hierarchy_cache)
      end
  end.

(** *** Query *)

(** An element of the list returned by [search]; ["hierarchy"] is set only
    when the hierarchy is asked for. *)
Record SearchResult := mkSearchResult {
  r_search_path : string;
  r_classification_path : string;
  r_full_classification_path : string;
  r_depth : nat;
  r_specificity : nat;
  r_node : Node;
  r_matched_term : string;
  r_hierarchy : option (list string)
}.

(** [query_lower in part.lower() or part.lower() in query_lower]. *)
Definition segment_matches (query_lower part : string) : bool :=
  PyStr.contains query_lower (PyStr.lower part)
  || PyStr.contains (PyStr.lower part) query_lower.

(** The index at which a [for i, part in enumerate(...)] loop breaks. *)
Definition first_match (query_lower : string) (parts : list string)
  : option nat :=
  fst <$> list_find (λ part, segment_matches query_lower part = true) parts.

(** [match_index] after the two scans. *)
Definition match_index_of (query_lower node_id : string) (parts : list string)
  : option nat :=
  match first_match query_lower parts with
  | Some i => Some i
  | None =>
      match first_match query_lower (PyStr.split_char "/"%char node_id) with
      | Some _ => Some (length parts - 1)
      | None => None
      end
  end.

(** The body of the loop over the nodes: [seen] and [results] afterwards. *)
Definition search_node (query_lower : string)
    (acc : gset string * list SearchResult) (item : string * Node)
  : gset string * list SearchResult :=
  let '(seen, results) := acc in
  let '(node_id, node_data) := item in
  let classification_path := classification_path_of node_id node_data in
  let parts := PyStr.split_char "/"%char classification_path in
  match match_index_of query_lower node_id parts with
  | None => (seen, results)
  | Some match_index =>
      let truncated_path := PyStr.join "/" (take (match_index + 1) parts) in
      if decide (truncated_path ∈ seen) then (seen, results)
      else
        let matched_term :=
          match parts !! match_index with
          | Some part => part
          | None => PyStr.last_segment (PyStr.split_char "/"%char node_id)
          end in
        ({[truncated_path]} ∪ seen,
         results ++
           [mkSearchResult node_id truncated_path classification_path
              match_index (match_index + 1) node_data matched_term None])
  end.

(** The order of the keys [(-x["specificity"], x["classification_path"])]:
    [key_lt a b] when the key of [a] is strictly below the key of [b]. *)
Definition key_lt (a b : SearchResult) : bool :=
  bool_decide (r_specificity b < r_specificity a)
  || (bool_decide (r_specificity a = r_specificity b)
      && String.ltb (r_classification_path a) (r_classification_path b)).

(** One step of a stable sort: [r] stood before every element of [l]. *)
Fixpoint insert_result (r : SearchResult) (l : list SearchResult)
  : list SearchResult :=
  match l with
  | [] => [r]
  | y :: l' => if key_lt y r then y :: insert_result r l' else r :: y :: l'
  end.

(** [results.sort(key=...)]. *)
Definition sort_results (results : list SearchResult) : list SearchResult :=
  foldr insert_result [] results.

Definition set_hierarchy (r : SearchResult) (hierarchy : list string)
  : SearchResult :=
  mkSearchResult (r_search_path r) (r_classification_path r)
    (r_full_classification_path r) (r_depth r) (r_specificity r) (r_node r)
    (r_matched_term r) (Some hierarchy).

(** The loop that attaches the hierarchy to every result, in order. *)
Fixpoint attach_hierarchies (graph : Graph)
    (hierarchy_cache : gmap string (list string)) (results : list SearchResult)
  : list SearchResult * gmap string (list string) :=
  match results with
  | [] => ([], hierarchy_cache)
  | r :: rest =>
      let '(hierarchy, cache1) :=
        get_parent_hierarchy graph hierarchy_cache (r_classification_path r) in
      let '(rest', cache2) := attach_hierarchies graph cache1 rest in
      (set_hierarchy r hierarchy :: rest', cache2)
  end.

(** [search]: the list returned and [self.hierarchy_cache] afterwards. *)
Definition search (graph : Graph)
    (hierarchy_cache : gmap string (list string)) (query : string)
    (include_hierarchy : bool)
  : list SearchResult * gmap string (list string) :=
  let query_lower := PyStr.lower query in
  let results :=
    sort_results
      (snd (fold_left (search_node query_lower) (nodes graph) (∅, []))) in
  if include_hierarchy then attach_hierarchies graph hierarchy_cache results
  else (results, hierarchy_cache).

End Search.

(** ** The diagnostics: checks of a stored graph

    [src/semwiki_errors.py], class [SemWikiDiagnostics]: the checks that read
    only the graph. Each method appends to [self.errors]; here it takes the
    list and returns it extended. *)

Module Errors.
Import Parser.

(** The dictionary given as [fix_params], one shape for each check. *)
Inductive FixParams :=
  | RemoveCircular (cycle : list string) (suggested_break : string * string)
  | AddInverse (source relation target : string)
  | RemoveStaleTaxonomy (search_path classification : string)
  | MergeConcepts (classification : string) (nodes : list string).

(** The dataclass [SemWikiError]. *)
Record SemWikiError := mkSemWikiError {
  error_type : string;
  severity : string;
  file_path : string;
  concept : string;
  message : string;
  impact : string;
  fix_instructions : string;
  fix_action : string;
  fix_params : FixParams
}.

(** How a call ends: with its value, with Python's [IndexError], or with
    the recursion budget of the model used up. *)
Inductive Run (A : Type) :=
  | Returned (a : A)
  | IndexError
  | OutOfFuel.
Arguments Returned {A} a.
Arguments IndexError {A}.
Arguments OutOfFuel {A}.

Definition newline : string := String "010"%char "".

(** [l[-k]] for [k > 0]. *)
Definition index_from_end {A} (l : list A) (k : nat) : option A :=
  if decide (k ≤ length l) then l !! (length l - k) else None.

(** *** Circular references *)

(** The local [is_a_graph], a [defaultdict(set)], and the list of its keys
    when the loop starts: the sources of the is_a edges in the order of their
    first occurrence. (Looking up a node without is_a edge adds its key while
    the traversal runs; the loop goes over the list made before.) *)
Definition is_a_graph_of_edges (edges : list Edge)
  : gmap string (gset string) :=
  fold_left
    (λ G edge,
       if decide (e_relation edge = "is_a")
       then add_target G (e_source edge) (e_target edge) else G)
    edges ∅.

Definition is_a_keys (edges : list Edge) : list string :=
  fold_left
    (λ keys edge,
       if decide (e_relation edge = "is_a")
       then (if decide (e_source edge ∈ keys) then keys
             else keys ++ [e_source edge])
       else keys)
    edges [].

(** The inner function [find_cycle(node, visited, path)]: statement by
    statement the [dfs] of the parser, on the set and the list it is given. *)
Definition find_cycle (fuel : nat) (is_a_graph : gmap string (gset string))
    (node : string) (st : dfs_state) : dfs_outcome :=
  dfs fuel is_a_graph node st.

Definition circular_error (cycle : list string) (first : string)
    (break_point : string * string) : SemWikiError :=
  mkSemWikiError "circular_reference" "critical" "" first
    ("Circular inheritance detected: " +:+ PyStr.join " -> " cycle)
    "Specificity cannot be measured. Hierarchy traversal will infinite loop. Reasoning about types becomes impossible."
    ("1. Remove is_a relationship: '" +:+ fst break_point
       +:+ "' should NOT be a '" +:+ snd break_point +:+ "', OR" +:+ newline
       +:+ "2. Reclassify one concept to break the cycle, OR" +:+ newline
       +:+ "3. Ensure all is_a relationships use properly typed links with clear specificity direction")
    "remove_circular"
    (RemoveCircular cycle break_point).

(** The loop over the keys, with the set [checked]. *)
Fixpoint check_keys (fuel : nat) (is_a_graph : gmap string (gset string))
    (keys : list string) (checked : gset string)
    (errors : list SemWikiError) : Run (list SemWikiError) :=
  match keys with
  | [] => Returned errors
  | node :: rest =>
      if decide (node ∈ checked)
      then check_keys fuel is_a_graph rest checked errors
      else
        match find_cycle fuel is_a_graph node (∅, []) with
        | None => OutOfFuel
        | Some (Some ((first :: _) as cycle), _) =>
            match index_from_end cycle 2, index_from_end cycle 1 with
            | Some a, Some b =>
                check_keys fuel is_a_graph rest
                  (list_to_set cycle ∪ checked)
                  (errors ++ [circular_error cycle first (a, b)])
            | _, _ => IndexError
            end
        | Some (_, _) => check_keys fuel is_a_graph rest checked errors
        end
  end.

(** [_check_circular_references]. *)
Definition _check_circular_references (edges : list Edge)
    (errors : list SemWikiError) : Run (list SemWikiError) :=
  check_keys (dfs_fuel edges) (is_a_graph_of_edges edges) (is_a_keys edges)
    ∅ errors.

(** *** Missing inverses *)

(** The table of the check, local to it. *)
Definition relation_inverses_table : list (string * string) :=
  [ ("is_a", "has_instance");
    ("part_of", "has_part");
    ("located_in", "location_of");
    ("created_by", "creator_of") ].

Definition relation_inverses : gmap string string :=
  list_to_map relation_inverses_table.

Definition missing_inverse_error (edge : Edge) (inverse : string)
  : SemWikiError :=
  mkSemWikiError "missing_inverse" "info" (e_source_file edge) (e_source edge)
    ("Missing inverse: '" +:+ e_target edge +:+ "' should have '" +:+ inverse
       +:+ "' relation back to '" +:+ e_source edge +:+ "'")
    "Navigation is one-way only. Cannot traverse relationship in reverse direction. Search may miss related concepts."
    ("Add relation: [[" +:+ e_target edge +:+ "]]{" +:+ inverse +:+ ": "
       +:+ e_source edge +:+ "}")
    "add_inverse"
    (AddInverse (e_target edge) inverse (e_source edge)).

(** [_check_bidirectional_missing]. *)
Definition _check_bidirectional_missing (edges : list Edge)
    (errors : list SemWikiError) : list SemWikiError :=
  let edge_set : gset (string * string * string) :=
    list_to_set
      ((λ e, (e_source e, e_relation e, e_target e)) <$> edges) in
  fold_left
    (λ errors edge,
       match relation_inverses !! e_relation edge with
       | Some inverse =>
           let expected := (e_target edge, inverse, e_source edge) in
           if decide (expected ∉ edge_set)
           then errors ++ [missing_inverse_error edge inverse]
           else errors
       | None => errors
       end)
    edges errors.

(** *** Taxonomy mappings *)

Definition taxonomy_orphan_error (search_path classification : string)
  : SemWikiError :=
  mkSemWikiError "taxonomy_orphan" "warning" "" search_path
    ("Stale mapping: Taxonomy maps '" +:+ search_path +:+ "' to '"
       +:+ classification +:+ "' but concept no longer exists")
    "Search may return incorrect results. Classification lookups will fail. Memory leak in taxonomy index."
    ("1. Remove stale taxonomy mapping, OR" +:+ newline
       +:+ "2. Recreate the missing concept, OR" +:+ newline
       +:+ "3. Update mapping to point to existing concept")
    "remove_stale_taxonomy"
    (RemoveStaleTaxonomy search_path classification).

(** [_check_taxonomy_consistency], on the dictionaries [nodes] and
    [taxonomy_mappings] of the stored graph, the second as the list of its
    items. *)
Definition _check_taxonomy_consistency (nodes : list (string * Node))
    (mappings : list (string * string)) (errors : list SemWikiError)
  : list SemWikiError :=
  fold_left
    (λ errors '(search_path, classification),
       match PyDict.dict_get search_path nodes with
       | None => errors ++ [taxonomy_orphan_error search_path classification]
       | Some _ => errors
       end)
    mappings errors.

(** *** Duplicate concepts *)

(** [classifications[classification].append(node_id)] on a
    [defaultdict(list)] kept in insertion order. *)
Fixpoint group_append (groups : list (string * list string))
    (classification node_id : string) : list (string * list string) :=
  match groups with
  | [] => [(classification, [node_id])]
  | (k, ids) :: rest =>
      if decide (k = classification) then (k, ids ++ [node_id]) :: rest
      else (k, ids) :: group_append rest classification node_id
  end.

(** [node.get("classification_path", "")]. *)
Definition classification_of (node : Node) : string :=
  default "" (n_classification_path node).

Definition classifications_of (nodes : list (string * Node))
  : list (string * list string) :=
  fold_left
    (λ groups '(node_id, node),
       let classification := classification_of node in
       if decide (classification = "") then groups
       else group_append groups classification node_id)
    nodes [].

Definition duplicate_concept_error (classification : string)
    (nodes : list string) (first : string) : SemWikiError :=
  mkSemWikiError "duplicate_concept" "warning" "" first
    ("Duplicate classification: Multiple nodes share '" +:+ classification
       +:+ "': " +:+ PyStr.join ", " nodes)
    "Ambiguous search results. Cannot distinguish between concepts. Graph traversal is non-deterministic."
    ("1. Merge the duplicate concepts into one, OR" +:+ newline
       +:+ "2. Differentiate classifications (e.g., concept/type1, concept/type2), OR"
       +:+ newline +:+ "3. Remove duplicate if accidental")
    "merge_concepts"
    (MergeConcepts classification nodes).

(** [_check_duplicate_concepts]. *)
Definition _check_duplicate_concepts (nodes : list (string * Node))
    (errors : list SemWikiError) : list SemWikiError :=
  fold_left
    (λ errors '(classification, ids),
       match ids with
       | first :: _ :: _ =>
           errors ++ [duplicate_concept_error classification ids first]
       | _ => errors
       end)
    (classifications_of nodes) errors.

End Errors.

(** ** Vocabulary of the statements *)

Module Vocab.
Import Parser Search.

(** The number of segments of a classification path. *)
Definition segment_count (path : string) : nat :=
  length (PyStr.split_char "/"%char path).

(** The components of what [resolve_reference] returns. *)
Definition res_classification_path
    (r : (string * string * list string) * Taxonomy) : string :=
  snd (fst (fst r)).


Definition res_taxonomy
    (r : (string * string * list string) * Taxonomy) : Taxonomy :=
  snd r.

(** [alias_path name parent]: a declared parent combined with the local name
    of the concept. *)
Definition alias_path (concept_name parent : string) : string :=
  parent +:+ "/" +:+ concept_base_of concept_name.

(** The choice of the primary parent in the words of the design document:
    a deepest declared parent, the least one in the order of strings among
    the deepest. *)
Definition deepest_then_least (parents : list string) (primary : string)
  : Prop :=
  primary ∈ parents
  ∧ ∀ q, q ∈ parents →
      segment_count q < segment_count primary
      ∨ (segment_count q = segment_count primary
         ∧ PyStr.str_le primary q = true).




(** [node["relations"].get(rel_type, [])]. *)
Definition relation_targets (node : Node) (rel_type : string) : list string :=
  default [] (PyDict.dict_get rel_type (n_relations node)).

(** The edge [_add_relation] builds for a call. *)
Definition edge_of (op : AddEdge) : Edge :=
  mkEdge (edge_id_of (op_source op) (op_relation op) (op_target op))
    (op_source op) (op_relation op) (op_target op) (op_source_file op)
    (op_now op).

(** The call is refused because of a cycle. *)
Definition rejected (graph : Graph) (op : AddEdge) : bool :=
  if decide (op_relation op = "is_a")
  then truthy (detect_circular_reference (edges graph) (op_source op)
                 (op_target op) "is_a")
  else false.



(** The (source, relation, target) of an edge, and of a call with its
    inverse. *)
Definition triple_of (edge : Edge) : string * string * string :=
  (e_source edge, e_relation edge, e_target edge).

Definition triple_id (x : string * string * string) : string :=
  edge_id_of (fst (fst x)) (snd (fst x)) (snd x).

Definition has_edge (graph : Graph) (source rel_type target : string) : Prop :=
  (source, rel_type, target) ∈ triple_of <$> edges graph.

Definition edge_count (graph : Graph) (source rel_type target : string)
  : nat :=
  length (filter (λ edge, triple_of edge = (source, rel_type, target))
            (edges graph)).

Definition op_triples (op : AddEdge) : list (string * string * string) :=
  (op_source op, op_relation op, op_target op)
  :: match relation_inverses !! op_relation op with
     | Some inverse_type => [(op_target op, inverse_type, op_source op)]
     | None => []
     end.

(** Distinct triples have distinct edge ids. *)
Definition ids_distinct (triples : list (string * string * string)) : Prop :=
  Forall (λ x, Forall (λ y, triple_id x = triple_id y → x = y) triples)
    triples.

(** Every edge whose relation has an inverse in the table has its inverse
    edge in the graph, once. *)
Definition inverse_complete (graph : Graph) : Prop :=
  ∀ source rel_type target inverse_type,
    has_edge graph source rel_type target →
    relation_inverses !! rel_type = Some inverse_type →
    edge_count graph target inverse_type source = 1.

(** The state of the edge list that every call keeps, for a set [T] of
    triples that holds those of the calls and of their inverses. *)
Definition edges_invariant (T : list (string * string * string))
    (l : list Edge) : Prop :=
  Forall (λ e, e_id e = triple_id (triple_of e)) l
  ∧ NoDup (e_id <$> l)
  ∧ Forall (λ e, triple_of e ∈ T) l
  ∧ Forall (λ e, ∀ inverse_type,
              relation_inverses !! e_relation e = Some inverse_type →
              (e_target e, inverse_type, e_source e) ∈ triple_of <$> l) l.

(** *** Cycles *)

(** The adjacency the detector explores: the is_a edges of the graph and the
    proposed edge. *)
Definition is_a_step (edges : list Edge) (source target : string)
  : relation string :=
  λ v w,
    (∃ e, e ∈ edges ∧ e_relation e = "is_a" ∧ e_source e = v ∧ e_target e = w)
    ∨ (v = source ∧ w = target).

(** The adjacency read in the dictionary of sets. *)
Definition adjacent (G : gmap string (gset string)) : relation string :=
  λ v w, w ∈ G !!! v.

(** A cycle can be reached from [source]. *)
Definition cycle_reachable (R : relation string) (source : string) : Prop :=
  ∃ v, rtc R source v ∧ tc R v v.

Definition acyclic (R : relation string) : Prop := ∀ v, ¬ tc R v v.

(** The is_a subgraph of a graph. *)
Definition is_a_rel (graph : Graph) : relation string :=
  λ v w, has_edge graph v "is_a" w.

(** Consecutive elements of the list are adjacent. *)
Definition chain (R : relation string) (l : list string) : Prop :=
  ∀ i v w, l !! i = Some v → l !! S i = Some w → R v w.

(** What the traversal keeps about the nodes it has finished with (visited
    and no longer on the stack): their successors are finished too, and none
    of them lies on a cycle. *)
Definition finished_closed (R : relation string) (visited : gset string)
    (path_stack : list string) : Prop :=
  ∀ v, v ∈ visited → v ∉ path_stack →
       (∀ w, R v w → w ∈ visited ∧ w ∉ path_stack) ∧ ¬ tc R v v.

(** The end points of the edges and of the proposed edge. *)
Definition end_points (edges : list Edge) (source target : string)
  : list string :=
  source :: target :: (e_source <$> edges) ++ (e_target <$> edges).


(** The sort key of a result, without the sign: its specificity and its
    truncated path; [key_before a b] when [a] may stand before [b], that is
    higher specificity first and, at equal specificity, the smaller path. *)
Definition rank_key (r : SearchResult) : nat * string :=
  (r_specificity r, r_classification_path r).

Definition key_before (a b : nat * string) : Prop :=
  fst b < fst a ∨ (fst a = fst b ∧ String.leb (snd a) (snd b) = true).


(** The prefix of [k] segments of a path. *)
Definition path_prefix (path : string) (k : nat) : string :=
  PyStr.join "/" (take k (PyStr.split_char "/"%char path)).

(** What a node is apart from its relations. *)
Definition node_core (node : Node)
  : string * string * option string * string * list string
    * list (string * string) :=
  (n_id node, n_type node, n_classification_path node, n_created node,
   n_sources node, n_properties node).

(** Two node maps with the same keys and, key by key, the same nodes apart
    from their relations. *)
Definition same_cores (nodes nodes' : list (string * Node)) : Prop :=
  ∀ key,
    node_core <$> PyDict.dict_get key nodes
    = node_core <$> PyDict.dict_get key nodes'.

(** The concepts of a list that have a given search path. *)
Definition concepts_of (key : string) (concepts : list ParsedConcept)
  : list ParsedConcept :=
  filter (λ c, pc_search_path c = key) concepts.

(** A node as [add_to_graph] creates it. *)
Definition concept_node (node_id classification_path : string)
    (relations : list (string * list string)) : Node :=
  mkNode node_id "concept" (Some classification_path) "" [] relations [].

(** [matched query_lower nodes r]: the result [r] was made for a node of the
    graph at its match index. *)
Definition matched (query_lower : string) (nodes : list (string * Node))
    (r : SearchResult) : Prop :=
  ∃ node_id node_data match_index,
    (node_id, node_data) ∈ nodes
    ∧ match_index_of query_lower node_id
        (PyStr.split_char "/"%char (classification_path_of node_id node_data))
      = Some match_index
    ∧ r_search_path r = node_id
    ∧ r_full_classification_path r = classification_path_of node_id node_data
    ∧ r_classification_path r =
        PyStr.join "/"
          (take (match_index + 1)
             (PyStr.split_char "/"%char
                (classification_path_of node_id node_data)))
    ∧ r_specificity r = match_index + 1.

(** An is_a chain of twelve nodes, ["n00"] the most specific: each node has
    the next one as its only is_a target, ["n11"] is the root. *)
Definition chain12 : Graph :=
  mkGraph
    [ ("n00", concept_node "n00" "c00" [("is_a", ["n01"])]);
      ("n01", concept_node "n01" "c01" [("is_a", ["n02"])]);
      ("n02", concept_node "n02" "c02" [("is_a", ["n03"])]);
      ("n03", concept_node "n03" "c03" [("is_a", ["n04"])]);
      ("n04", concept_node "n04" "c04" [("is_a", ["n05"])]);
      ("n05", concept_node "n05" "c05" [("is_a", ["n06"])]);
      ("n06", concept_node "n06" "c06" [("is_a", ["n07"])]);
      ("n07", concept_node "n07" "c07" [("is_a", ["n08"])]);
      ("n08", concept_node "n08" "c08" [("is_a", ["n09"])]);
      ("n09", concept_node "n09" "c09" [("is_a", ["n10"])]);
      ("n10", concept_node "n10" "c10" [("is_a", ["n11"])]);
      ("n11", concept_node "n11" "c11" []) ]
    [] ∅.

(** *** Relation arrays *)

(** No character of [s] satisfies [P]. *)
Fixpoint free_of (P : ascii → bool) (s : string) : Prop :=
  match s with
  | EmptyString => True
  | String a s' => P a = false ∧ free_of P s'
  end.

(** The characters that make [_parse_array] leave the plain reading. *)
Definition is_quote_or_bracket (a : ascii) : bool :=
  bool_decide (a = dquote ∨ a = squote ∨ a = "["%char ∨ a = "]"%char).

(** A text after which [_parse_array] is outside quotes and brackets. *)
Definition closed (text : string) : Prop :=
  pa_in_quote (parse_array_loop text parse_array_start) = false
  ∧ pa_bracket_depth (parse_array_loop text parse_array_start) = 0%Z.

(** *** Stored graphs *)

(** The is_a edges of a list of edges, as a relation. *)
Definition is_a_edge (edges : list Edge) : relation string :=
  λ v w, ∃ e, e ∈ edges ∧ e_relation e = "is_a"
              ∧ e_source e = v ∧ e_target e = w.

(** [mappings] lists the items of the dictionary [taxonomy_mappings]. *)
Definition items_of (mappings : list (string * string))
    (taxonomy_mappings : gmap string string) : Prop :=
  ∀ k v, (k, v) ∈ mappings → taxonomy_mappings !! k = Some v.

(** Every search path with a taxonomy mapping has a node. *)
Definition mappings_have_nodes (graph : Graph) : Prop :=
  ∀ k, is_Some (taxonomy_mappings graph !! k) →
       is_Some (PyDict.dict_get k (nodes graph)).

(** The classification paths of the nodes that have one, in the order of the
    nodes. *)
Definition classified (nodes : list (string * Node)) : list string :=
  filter (λ c, c ≠ "") (Errors.classification_of ∘ snd <$> nodes).

(** What the check of circular references puts in a report: a cycle and, as
    suggested break, an is_a edge of the graph that ends on a cycle. *)
Definition reports_cycle (edges : list Edge) (err : Errors.SemWikiError)
  : Prop :=
  ∃ cycle a b,
    Errors.fix_params err = Errors.RemoveCircular cycle (a, b)
    ∧ is_a_edge edges a b ∧ tc (is_a_edge edges) b b.

(** The ids of the nodes of a given classification path, in the order of the
    nodes, and what the check of duplicate concepts puts in a report: a
    classification path that is not empty, with the ids of all the nodes that
    have it, at least two. *)
Definition nodes_classified (c : string) (nodes : list (string * Node))
  : list string :=
  fst <$> filter (λ item, Errors.classification_of (snd item) = c) nodes.

Definition reports_duplicate (nodes : list (string * Node))
    (err : Errors.SemWikiError) : Prop :=
  ∃ c first ids,
    Errors.fix_params err = Errors.MergeConcepts c ids
    ∧ c ≠ "" ∧ ids = nodes_classified c nodes
    ∧ 2 ≤ length ids
    ∧ head ids = Some first ∧ Errors.concept err = first.

End Vocab.

(** * Properties *)

Import Parser Search Vocab.

(** ** String primitives *)

Example split_char_abc : PyStr.split_char "/"%char "a/b/c" = ["a"; "b"; "c"].
Proof. reflexivity. Qed.

Example split_char_trailing : PyStr.split_char "/"%char "a//" = ["a"; ""; ""].
Proof. reflexivity. Qed.

Example remove_all_md : PyStr.remove_all ".md" "x/bank.md" = "x/bank".
Proof. reflexivity. Qed.

Example after_first_concepts :
  PyStr.after_first "concepts/" "workspace/concepts/a/b.md" = Some "a/b.md".
Proof. reflexivity. Qed.

Example lower_mixed : PyStr.lower "Bank/FIN_a1" = "bank/fin_a1".
Proof. reflexivity. Qed.

Lemma split_char_nonempty c s : PyStr.split_char c s ≠ [].
Proof.
  destruct s as [|a s]; simpl; [done|].
  case_decide; [done|]. by destruct (PyStr.split_char c s).
Qed.

(** The segment count of a path is one more than its number of slashes. *)
Lemma length_split_char c s :
  length (PyStr.split_char c s) = S (PyStr.count_char c s).
Proof.
  induction s as [|a s IH]; simpl; [done|].
  case_decide; simpl; [by rewrite IH|].
  destruct (PyStr.split_char c s); simpl in *; lia.
Qed.

(** ** Path resolver *)

Section Resolver.

Lemma segment_count_slashes path : segment_count path = S (slash_count path).
Proof. apply length_split_char. Qed.

Lemma head_insert_by_depth x l :
  head (insert_by_depth x l) =
  Some (match head l with
        | None => x
        | Some y => if decide (slash_count x < slash_count y) then y else x
        end).
Proof. destruct l as [|y l]; simpl; [done|]. by case_decide. Qed.

Lemma sorted_by_depth_nil l : sorted_by_depth l = [] → l = [].
Proof.
  destruct l as [|x l]; [done|]. simpl. intros H.
  apply (f_equal head) in H. by rewrite head_insert_by_depth in H.
Qed.

(** The head of the sorted list is the first of the deepest declared
    parents. *)
Lemma head_sorted_by_depth l p :
  head (sorted_by_depth l) = Some p →
  ∃ i, l !! i = Some p
       ∧ (∀ q, q ∈ l → slash_count q ≤ slash_count p)
       ∧ (∀ j q, j < i → l !! j = Some q → slash_count q < slash_count p).
Proof.
  revert p. induction l as [|x l IH]; intros p; simpl; [done|].
  rewrite head_insert_by_depth.
  destruct (head (sorted_by_depth l)) as [y|] eqn:Hy.
  - destruct (IH y eq_refl) as (i & Hi & Hmax & Hfirst).
    case_decide as Hlt; intros [= <-].
    + exists (S i). split_and!; [done| |].
      * intros q [->|Hq]%elem_of_cons; [lia|by apply Hmax].
      * intros [|j] q Hj Hq; simpl in *; [naive_solver lia|].
        apply (Hfirst j); [lia|done].
    + exists 0. split_and!; [done| |intros; lia].
      intros q [->|Hq]%elem_of_cons; [done|]. specialize (Hmax q Hq). lia.
  - intros [= <-]. exists 0.
    assert (l = []) as ->.
    { apply sorted_by_depth_nil. by destruct (sorted_by_depth l). }
    split_and!; [done| |intros; lia].
    by intros q ->%list_elem_of_singleton.
Qed.

Lemma head_sorted_by_depth_is_Some x l :
  is_Some (head (sorted_by_depth (x :: l))).
Proof. simpl. rewrite head_insert_by_depth. eauto. Qed.

(** The result of [resolve_reference] for a name that is not registered and
    a non-empty list of declared parents. *)
Lemma resolve_reference_new name x l ctx tax :
  search_to_classification tax !! name = None →
  ∃ primary,
    head (sorted_by_depth (x :: l)) = Some primary
    ∧ resolve_reference name (Some (x :: l)) ctx tax =
      ((name, primary +:+ "/" +:+ concept_base_of name,
        (λ path, path +:+ "/" +:+ concept_base_of name) <$> (x :: l)),
       mkTaxonomy
         (<[name := primary +:+ "/" +:+ concept_base_of name]>
            (search_to_classification tax))
         (<[primary +:+ "/" +:+ concept_base_of name := name]>
            (classification_to_search tax))
         (if decide (1 < length (x :: l))
          then <[name := (λ path, path +:+ "/" +:+ concept_base_of name) <$> l]>
                 (aliases tax)
          else aliases tax)).
Proof.
  intros Hnew.
  destruct (head_sorted_by_depth_is_Some x l) as [primary Hp].
  exists primary. split; [done|].
  unfold resolve_reference. rewrite Hnew, Hp. simpl.
  rewrite !length_fmap. done.
Qed.

(** Once a name is registered, resolution returns its mapping and leaves the
    taxonomy as it is. *)
Lemma resolve_reference_registered name cp parents ctx tax :
  search_to_classification tax !! name = Some cp →
  resolve_reference name parents ctx tax = ((name, cp, [cp]), tax).
Proof. intros H. unfold resolve_reference. by rewrite H. Qed.

End Resolver.

Section ResolverClaims.

Local Arguments resolve_reference : simpl never.

(** C5. Resolution is idempotent: two calls in succession with the same
    search name and the same declared parents give the same classification
    path; and a name that has a primary classification mapping resolves to
    that mapping, whatever parents are passed, with the taxonomy unchanged. *)
Theorem C5_resolution_idempotent (name : string)
    (parents : option (list string)) (ctx : option string) (tax : Taxonomy) :
  let first := resolve_reference name parents ctx tax in
  let second := resolve_reference name parents ctx (res_taxonomy first) in
  res_classification_path second = res_classification_path first
  ∧ ∀ cp parents' ctx',
      search_to_classification tax !! name = Some cp →
      resolve_reference name parents' ctx' tax = ((name, cp, [cp]), tax).
Proof.
  intros first second.
  split; [|intros; by apply resolve_reference_registered].
  destruct (search_to_classification tax !! name) as [cp|] eqn:Hreg.
  - subst first second.
    rewrite (resolve_reference_registered name cp parents ctx tax Hreg).
    unfold res_taxonomy; simpl.
    by rewrite (resolve_reference_registered name cp parents ctx tax Hreg).
  - destruct parents as [[|x l]|].
    + subst first second. unfold resolve_reference. rewrite Hreg.
      destruct ctx as [c|]; [destruct (PyStr.contains "/" c)|];
        simpl; by rewrite Hreg.
    + destruct (resolve_reference_new name x l ctx tax Hreg) as (p & _ & Hr).
      subst first second. rewrite Hr. unfold res_taxonomy; simpl.
      erewrite resolve_reference_registered; [done|].
      simpl. apply lookup_insert_eq.
    + subst first second. unfold resolve_reference. rewrite Hreg.
      destruct ctx as [c|]; [destruct (PyStr.contains "/" c)|];
        simpl; by rewrite Hreg.
Qed.

Lemma C5_resolution_idempotent_witness :
  resolve_reference "bank" (Some ["other"]) None
    (mkTaxonomy {["bank" := "institution/financial/bank"]} ∅ ∅) =
  (("bank", "institution/financial/bank", ["institution/financial/bank"]),
   mkTaxonomy {["bank" := "institution/financial/bank"]} ∅ ∅).
Proof.
  apply (C5_resolution_idempotent "bank" None None
           (mkTaxonomy {["bank" := "institution/financial/bank"]} ∅ ∅)).
  vm_compute. reflexivity.
Defined.

(** C4 (as the code has it). For a name that is not registered and a
    non-empty list of declared parents, the primary parent is the first
    declared among the parents of greatest segment count; the classification
    path is the primary parent, a slash and the last segment of the name, and
    it is registered; when the primary parent is the first declared one, the
    other declared parents, combined with the local name, are the aliases
    recorded. For parents ["x/y"; "x"] and concept "z" the classification is
    "x/y/z" and "x/z" is the alias. *)
Theorem C4_primary_parent_selection (name x : string) (l : list string)
    (ctx : option string) (tax : Taxonomy) :
  search_to_classification tax !! name = None →
  let parents := x :: l in
  let r := resolve_reference name (Some parents) ctx tax in
  (∃ i primary,
     parents !! i = Some primary
     ∧ (∀ q, q ∈ parents → segment_count q ≤ segment_count primary)
     ∧ (∀ j q, j < i → parents !! j = Some q →
          segment_count q < segment_count primary)
     ∧ res_classification_path r = alias_path name primary
     ∧ search_to_classification (res_taxonomy r) !! name =
         Some (res_classification_path r)
     ∧ (i = 0 → l ≠ [] →
          aliases (res_taxonomy r) !! name = Some (alias_path name <$> l)))
  ∧ (let rz := resolve_reference "z" (Some ["x/y"; "x"]) ctx empty_taxonomy in
     res_classification_path rz = "x/y/z"
     ∧ aliases (res_taxonomy rz) !! "z" = Some ["x/z"]).
Proof.
  intros Hnew parents r. split.
  - destruct (resolve_reference_new name x l ctx tax Hnew) as (p & Hp & Hr).
    destruct (head_sorted_by_depth _ _ Hp) as (i & Hi & Hmax & Hfirst).
    exists i, p. subst r parents. rewrite Hr.
    unfold res_classification_path, res_taxonomy; simpl.
    split_and!; [done| | |done|apply lookup_insert_eq|].
    + intros q Hq. rewrite !segment_count_slashes.
      specialize (Hmax q Hq). lia.
    + intros j q Hj Hq. rewrite !segment_count_slashes.
      specialize (Hfirst j q Hj Hq). lia.
    + intros _ Hl. rewrite decide_True by (destruct l; simpl; [done|lia]).
      apply lookup_insert_eq.
  - by vm_compute.
Qed.

Lemma C4_primary_parent_selection_witness :
  ∃ i primary,
    ["x"; "a/b"; "c/d"] !! i = Some primary
    ∧ res_classification_path
        (resolve_reference "k/z" (Some ["x"; "a/b"; "c/d"]) None empty_taxonomy)
      = alias_path "k/z" primary.
Proof.
  destruct (C4_primary_parent_selection "k/z" "x" ["a/b"; "c/d"] None
              empty_taxonomy) as [(i & p & Hi & _ & _ & Hcp & _) _].
  - reflexivity.
  - exists i, p. split; [exact Hi|exact Hcp].
Defined.

(** C4, as stated, fails: for the parents ["b"; "a"], of equal segment count,
    the code keeps the first declared parent "b", not the least one "a". *)
Lemma C4_counterexample :
  ¬ ∃ primary,
      deepest_then_least ["b"; "a"] primary
      ∧ res_classification_path
          (resolve_reference "z" (Some ["b"; "a"]) None empty_taxonomy)
        = alias_path "z" primary.
Proof.
  intros (p & [Hin Hleast] & Hcp).
  assert (p = "b" ∨ p = "a") as [-> | ->].
  { apply elem_of_cons in Hin as [->|Hin]; [by left|].
    apply list_elem_of_singleton in Hin. by right. }
  - destruct (Hleast "a") as [H|[_ H]]; [repeat constructor|..].
    + vm_compute in H. lia.
    + by vm_compute in H.
  - by vm_compute in Hcp.
Qed.




End ResolverClaims.

(** ** Index construction *)

Section Index.








End Index.

(** ** Graph store: nodes *)

Section StoreNodes.

Lemma relation_inverses_NoDup : NoDup (fst <$> relation_inverses_table).
Proof. compute_done. Qed.

Lemma relation_inverses_elem r r' :
  relation_inverses !! r = Some r' ↔ (r, r') ∈ relation_inverses_table.
Proof.
  unfold relation_inverses. symmetry.
  apply elem_of_list_to_map, relation_inverses_NoDup.
Qed.

(** The table is symmetric and has no relation that is its own inverse. *)
Lemma relation_inverses_symmetric r r' :
  relation_inverses !! r = Some r' →
  relation_inverses !! r' = Some r ∧ r' ≠ r.
Proof.
  rewrite relation_inverses_elem. unfold relation_inverses_table.
  rewrite !elem_of_cons, elem_of_nil.
  intros H. repeat (destruct H as [[= -> ->]|H]; [by vm_compute|]). done.
Qed.

Lemma dict_get_relations_add relations rel_type target key :
  PyDict.dict_get key (relations_add relations rel_type target) =
  if decide (rel_type = key)
  then let old := default [] (PyDict.dict_get key relations) in
       Some (if decide (target ∈ old) then old else old ++ [target])
  else PyDict.dict_get key relations.
Proof.
  induction relations as [|[k ts] rest IH]; simpl.
  - repeat case_decide; done.
  - destruct (decide (k = rel_type)) as [->|Hk]; simpl.
    + repeat (case_decide; simplify_eq/=); done.
    + rewrite IH. repeat (case_decide; simplify_eq/=); done.
Qed.

Lemma relation_targets_node_add rel_type target node key :
  relation_targets (node_add_relation rel_type target node) key =
  if decide (rel_type = key)
  then if decide (target ∈ relation_targets node key)
       then relation_targets node key
       else relation_targets node key ++ [target]
  else relation_targets node key.
Proof.
  unfold relation_targets, node_add_relation. simpl.
  rewrite dict_get_relations_add. by case_decide.
Qed.

Lemma dict_get_update_node_relations nodes source rel_type target key :
  PyDict.dict_get key (update_node_relations nodes source rel_type target) =
  if decide (source = key)
  then node_add_relation rel_type target <$> PyDict.dict_get key nodes
  else PyDict.dict_get key nodes.
Proof.
  induction nodes as [|[k node] rest IH]; simpl.
  - by case_decide.
  - destruct (decide (k = source)) as [->|Hk]; simpl.
    + repeat (case_decide; simplify_eq/=); done.
    + rewrite IH. repeat (case_decide; simplify_eq/=); done.
Qed.

Lemma keys_update_node_relations nodes source rel_type target :
  fst <$> update_node_relations nodes source rel_type target = fst <$> nodes.
Proof.
  induction nodes as [|[k node] rest IH]; simpl; [done|].
  case_decide; simpl; [done|]. f_equal. apply IH.
Qed.

(** What [_add_inverse_relation] does to the nodes: at most the node of key
    [target] gets [source] under the inverse relation. *)
Lemma nodes_add_inverse_relation now source rel_type target file graph :
  nodes (_add_inverse_relation now source rel_type target file graph) =
    nodes graph
  ∨ ∃ inverse_type,
      relation_inverses !! rel_type = Some inverse_type
      ∧ nodes (_add_inverse_relation now source rel_type target file graph) =
        update_node_relations (nodes graph) target inverse_type source.
Proof.
  unfold _add_inverse_relation.
  destruct (relation_inverses !! rel_type) as [inv|]; [|by left].
  destruct (find_edge _ _); [by left|]. right. by exists inv.
Qed.

(** The edges only grow. *)
Lemma edges_add_inverse_relation now source rel_type target file graph :
  ∃ added,
    edges (_add_inverse_relation now source rel_type target file graph) =
    edges graph ++ added.
Proof.
  unfold _add_inverse_relation.
  destruct (relation_inverses !! rel_type) as [inv|];
    [|exists []; by rewrite app_nil_r].
  destruct (find_edge _ _); [exists []; by rewrite app_nil_r|].
  by eexists [_].
Qed.

(** C9 (as the code has it). When a call appends a new edge (it is not
    refused for a cycle and its id is not in the graph), the edge is appended
    to the edge list; if the source is a key of the node map, its relations
    afterwards have the relation type as a key, with the former list of
    targets followed by the target unless the list held it already; if the
    source is not a key of the node map it is not one afterwards either: the
    keys of the node map are unchanged. *)
Theorem C9_source_relations_updated (graph : Graph) (op : AddEdge) :
  rejected graph op = false →
  find_edge (e_id (edge_of op)) (edges graph) = None →
  let graph' := add_edge graph op in
  (∃ added, edges graph' = edges graph ++ edge_of op :: added)
  ∧ (∀ node, PyDict.dict_get (op_source op) (nodes graph) = Some node →
       ∃ node',
         PyDict.dict_get (op_source op) (nodes graph') = Some node'
         ∧ is_Some (PyDict.dict_get (op_relation op) (n_relations node'))
         ∧ relation_targets node' (op_relation op) =
             if decide (op_target op ∈ relation_targets node (op_relation op))
             then relation_targets node (op_relation op)
             else relation_targets node (op_relation op) ++ [op_target op])
  ∧ (PyDict.dict_get (op_source op) (nodes graph) = None →
       PyDict.dict_get (op_source op) (nodes graph') = None)
  ∧ fst <$> nodes graph' = fst <$> nodes graph.
Proof.
  intros Hrej Hnew graph'. subst graph'.
  unfold add_edge, _add_relation. unfold rejected in Hrej. rewrite Hrej.
  simpl in Hnew. rewrite Hnew.
  set (g1 := mkGraph _ _ _).
  assert (Hsrc : ∀ key,
    PyDict.dict_get key
      (nodes (_add_inverse_relation (op_now_inverse op) (op_source op)
                (op_relation op) (op_target op) (op_source_file op) g1)) =
    PyDict.dict_get key (nodes g1)
    ∨ ∃ inv, relation_inverses !! op_relation op = Some inv
        ∧ PyDict.dict_get key
            (nodes (_add_inverse_relation (op_now_inverse op) (op_source op)
                      (op_relation op) (op_target op) (op_source_file op) g1))
          = node_add_relation inv (op_source op)
              <$> PyDict.dict_get key (nodes g1)).
  { intros key.
    destruct (nodes_add_inverse_relation (op_now_inverse op) (op_source op)
                (op_relation op) (op_target op) (op_source_file op) g1)
      as [->|(inv & Hinv & ->)]; [by left|].
    rewrite dict_get_update_node_relations.
    destruct (decide (op_target op = key));
      [right; exists inv; by split|by left]. }
  split_and!.
  - destruct (edges_add_inverse_relation (op_now_inverse op) (op_source op)
                (op_relation op) (op_target op) (op_source_file op) g1)
      as [added ->].
    exists added. subst g1. simpl. by rewrite <- app_assoc.
  - intros node Hnode.
    assert (PyDict.dict_get (op_source op) (nodes g1) =
            Some (node_add_relation (op_relation op) (op_target op) node))
      as Hg1.
    { subst g1. simpl. rewrite dict_get_update_node_relations.
      by rewrite decide_True, Hnode by done. }
    destruct (Hsrc (op_source op)) as [->|(inv & Hinv & ->)]; rewrite Hg1.
    + eexists. split; [done|].
      rewrite relation_targets_node_add, decide_True by done.
      split; [|done]. simpl. rewrite dict_get_relations_add.
      by rewrite decide_True by done.
    + apply relation_inverses_symmetric in Hinv as [_ Hne].
      eexists. split; [done|].
      rewrite relation_targets_node_add, decide_False by done.
      rewrite relation_targets_node_add, decide_True by done.
      split; [|done]. simpl. rewrite !dict_get_relations_add.
      rewrite decide_False by done. by rewrite decide_True by done.
  - intros Hnone.
    assert (PyDict.dict_get (op_source op) (nodes g1) = None) as Hg1.
    { subst g1. simpl. rewrite dict_get_update_node_relations.
      by rewrite decide_True, Hnone by done. }
    destruct (Hsrc (op_source op)) as [->|(inv & Hinv & ->)];
      by rewrite Hg1.
  - destruct (nodes_add_inverse_relation (op_now_inverse op) (op_source op)
                (op_relation op) (op_target op) (op_source_file op) g1)
      as [->|(inv & Hinv & ->)]; subst g1; simpl;
      by rewrite ?keys_update_node_relations.
Qed.

Lemma C9_source_relations_updated_witness :
  ∃ node',
    PyDict.dict_get "bank"
      (nodes (add_edge
                (mkGraph [("bank", concept_node "bank" "institution/bank" [])]
                   [] ∅)
                (mkAddEdge "bank" "part_of" "economy" "doc" "t0" "t1")))
    = Some node'
    ∧ relation_targets node' "part_of" = ["economy"].
Proof.
  destruct (C9_source_relations_updated
              (mkGraph [("bank", concept_node "bank" "institution/bank" [])]
                 [] ∅)
              (mkAddEdge "bank" "part_of" "economy" "doc" "t0" "t1"))
    as (_ & Hsrc & _).
  - reflexivity.
  - reflexivity.
  - destruct (Hsrc (concept_node "bank" "institution/bank" []) eq_refl)
      as (node' & Hget & _ & Htargets).
    exists node'. split; [exact Hget|exact Htargets].
Defined.

(** C9, as stated, fails: on the empty graph the call for ("a", "part_of",
    "b") appends its edge, and "a", which is not a key of the node map, is
    not made one. *)
Lemma C9_counterexample :
  let op := mkAddEdge "a" "part_of" "b" "doc" "t0" "t1" in
  let graph' := add_edge empty_graph op in
  edge_of op ∈ edges graph'
  ∧ PyDict.dict_get "a" (nodes empty_graph) = None
  ∧ ¬ is_Some (PyDict.dict_get "a" (nodes graph')).
Proof.
  intros op graph'. split_and!.
  - vm_compute. constructor.
  - reflexivity.
  - vm_compute. by intros [? ?].
Qed.

End StoreNodes.

(** ** Ancestor hierarchy *)

Section Hierarchy.

(** The loop only appends, and at most one path for each hop. *)
Lemma traverse_is_a_extends hops nodes current hierarchy visited :
  ∃ ancestors,
    traverse_is_a hops nodes current hierarchy visited = hierarchy ++ ancestors
    ∧ length ancestors ≤ hops.
Proof.
  revert current hierarchy visited.
  induction hops as [|hops IH]; intros current hierarchy visited; simpl.
  { exists []. by rewrite app_nil_r. }
  case_decide; [exists []; rewrite app_nil_r; split; [done|simpl; lia]|].
  destruct (is_a_targets_of _) as [|target ?];
    [exists []; rewrite app_nil_r; split; [done|simpl; lia]|].
  case_decide.
  - destruct (IH target hierarchy visited) as (anc & -> & Hlen).
    exists anc. split; [done|lia].
  - edestruct IH as (anc & -> & Hlen).
    eexists (_ :: anc). rewrite <- app_assoc. split; [done|simpl; lia].
Qed.







End Hierarchy.

(** ** Query *)

Section Query.


(** The segments of a split hold no separator. *)
Lemma split_char_free c s :
  Forall (λ x, PyStr.count_char c x = 0) (PyStr.split_char c s).
Proof.
  induction s as [|a s IH]; simpl.
  - by constructor.
  - case_decide; [by constructor|].
    destruct (PyStr.split_char c s) as [|h t] eqn:Hs;
      [by apply split_char_nonempty in Hs|].
    inversion_clear IH. constructor; [|done].
    simpl. by rewrite decide_False.
Qed.

Lemma split_char_free_id c s :
  PyStr.count_char c s = 0 → PyStr.split_char c s = [s].
Proof.
  induction s as [|a s IH]; simpl; [done|].
  case_decide; [lia|]. intros Hs. by rewrite IH.
Qed.









Lemma matched_mono query_lower nodes nodes' r :
  nodes ⊆ nodes' → matched query_lower nodes r → matched query_lower nodes' r.
Proof.
  intros Hsub (node_id & node_data & mi & Hin & H).
  exists node_id, node_data, mi. split; [by apply Hsub|done].
Qed.

(** The state of the loop of [search] after the nodes [items]. *)
Lemma search_loop_invariant query_lower items :
  let acc := fold_left (search_node query_lower) items (∅, []) in
  (∀ path, path ∈ fst acc ↔ ∃ r, r ∈ snd acc ∧ r_classification_path r = path)
  ∧ (∀ r, r ∈ snd acc → matched query_lower items r ∧ r_hierarchy r = None)
  ∧ (∀ node_id node_data match_index,
       (node_id, node_data) ∈ items →
       match_index_of query_lower node_id
         (PyStr.split_char "/" (classification_path_of node_id node_data))
         = Some match_index →
       PyStr.join "/"
         (take (match_index + 1)
            (PyStr.split_char "/" (classification_path_of node_id node_data)))
       ∈ fst acc).
Proof.
  induction items as [|[node_id node_data] items IH] using rev_ind.
  { simpl. split_and!.
    - intros path. split; [set_solver|]. by intros (r & ?%elem_of_nil & _).
    - by intros r ?%elem_of_nil.
    - by intros ??? ?%elem_of_nil. }
  rewrite fold_left_app. simpl fold_left.
  destruct (fold_left (search_node query_lower) items (∅, []))
    as [seen results].
  simpl in IH. destruct IH as (Hseen & Hres & Hcov).
  assert (∀ r, r ∈ results →
               matched query_lower (items ++ [(node_id, node_data)]) r
               ∧ r_hierarchy r = None) as Hres'.
  { intros r Hr. destruct (Hres r Hr) as [Hm Hh]. split; [|done].
    eapply matched_mono; [|done]. intros x Hx. apply elem_of_app. by left. }
  unfold search_node.
  destruct (match_index_of query_lower node_id _) as [mi|] eqn:Hmi.
  2:{ simpl. split_and!; [done|done|].
      intros id nd mi' [Hin|Hin%list_elem_of_singleton]%elem_of_app Hmi';
        [by eapply Hcov|]. injection Hin as -> ->. congruence. }
  set (truncated := PyStr.join "/" (take (mi + 1) _)).
  destruct (decide (truncated ∈ seen)) as [Hin|Hnotin].
  { simpl. split_and!; [done|done|].
    intros id nd mi' [Hin'|Hin'%list_elem_of_singleton]%elem_of_app Hmi';
      [by eapply Hcov|]. injection Hin' as -> ->.
    rewrite Hmi in Hmi'. injection Hmi' as <-. done. }
  simpl. split_and!.
  - intros path. rewrite elem_of_union, elem_of_singleton, Hseen. split.
    + intros [->|(r & Hr & Hp)].
      * eexists. split; [apply elem_of_app; right; by constructor|done].
      * exists r. split; [apply elem_of_app; by left|done].
    + intros (r & [Hr|Hr%list_elem_of_singleton]%elem_of_app & Hp).
      * right. by exists r.
      * left. by subst r.
  - intros r [Hr|Hr%list_elem_of_singleton]%elem_of_app; [by apply Hres'|].
    subst r. split; [|done]. exists node_id, node_data, mi. simpl.
    split_and!; [apply elem_of_app; right; by constructor|done..].
  - intros id nd mi' [Hin'|Hin'%list_elem_of_singleton]%elem_of_app Hmi'.
    + apply elem_of_union. right. by eapply Hcov.
    + injection Hin' as -> ->. rewrite Hmi in Hmi'. injection Hmi' as <-.
      apply elem_of_union. left. by apply elem_of_singleton.
Qed.

Lemma insert_result_perm r l : insert_result r l ≡ₚ r :: l.
Proof.
  induction l as [|y l IH]; simpl; [done|].
  destruct (key_lt y r); [|done]. rewrite IH. apply Permutation_swap.
Qed.

Lemma sort_results_perm l : sort_results l ≡ₚ l.
Proof.
  induction l as [|r l IH]; simpl; [done|].
  fold (sort_results l). by rewrite insert_result_perm, IH.
Qed.

Lemma matched_set_hierarchy query_lower nodes r hierarchy :
  matched query_lower nodes (set_hierarchy r hierarchy) ↔
  matched query_lower nodes r.
Proof. done. Qed.

Lemma attach_hierarchies_elem graph cache results r' :
  r' ∈ fst (attach_hierarchies graph cache results) →
  ∃ r hierarchy, r ∈ results ∧ r' = set_hierarchy r hierarchy.
Proof.
  revert cache. induction results as [|r results IH]; intros cache; simpl.
  { by intros ?%elem_of_nil. }
  destruct (get_parent_hierarchy graph cache _) as [h cache1].
  specialize (IH cache1).
  destruct (attach_hierarchies graph cache1 results) as [rest cache2].
  simpl in *. intros [->|Hr]%elem_of_cons.
  - exists r, h. split; [by constructor|done].
  - destruct (IH Hr) as (r0 & h0 & Hr0 & ->).
    exists r0, h0. split; [by constructor|done].
Qed.

Lemma attach_hierarchies_covers graph cache results r :
  r ∈ results →
  ∃ hierarchy,
    set_hierarchy r hierarchy ∈ fst (attach_hierarchies graph cache results).
Proof.
  revert cache. induction results as [|r0 results IH]; intros cache; simpl.
  { by intros ?%elem_of_nil. }
  destruct (get_parent_hierarchy graph cache _) as [h cache1].
  specialize (IH cache1).
  destruct (attach_hierarchies graph cache1 results) as [rest cache2].
  simpl in *. intros [->|Hr]%elem_of_cons.
  - exists h. by constructor.
  - destruct (IH Hr) as (h0 & Hr0). exists h0. by constructor.
Qed.

(** Every result of [search] was made for a node at its match index. *)
Lemma search_matched graph cache query include_hierarchy r :
  r ∈ fst (search graph cache query include_hierarchy) →
  matched (PyStr.lower query) (nodes graph) r.
Proof.
  unfold search.
  destruct (search_loop_invariant (PyStr.lower query) (nodes graph))
    as (_ & Hres & _).
  destruct include_hierarchy; simpl.
  - intros (r0 & h & Hr0 & ->)%attach_hierarchies_elem.
    apply matched_set_hierarchy. apply Hres.
    by rewrite <- (sort_results_perm _).
  - intros Hr. apply Hres. by rewrite <- (sort_results_perm _).
Qed.

(** A node that matches is represented by a result with its truncated
    path. *)
Lemma search_covers graph cache query include_hierarchy
    node_id node_data match_index :
  (node_id, node_data) ∈ nodes graph →
  match_index_of (PyStr.lower query) node_id
    (PyStr.split_char "/" (classification_path_of node_id node_data))
    = Some match_index →
  ∃ r, r ∈ fst (search graph cache query include_hierarchy)
       ∧ r_classification_path r =
         PyStr.join "/"
           (take (match_index + 1)
              (PyStr.split_char "/"
                 (classification_path_of node_id node_data))).
Proof.
  intros Hin Hmi. unfold search.
  destruct (search_loop_invariant (PyStr.lower query) (nodes graph))
    as (Hseen & _ & Hcov).
  specialize (Hcov _ _ _ Hin Hmi). apply Hseen in Hcov as (r & Hr & Hp).
  rewrite <- (sort_results_perm _) in Hr.
  destruct include_hierarchy; simpl.
  - destruct (attach_hierarchies_covers graph cache _ _ Hr) as (h & Hh).
    eexists. split; [exact Hh|]. done.
  - by exists r.
Qed.

Lemma first_match_here query_lower part parts :
  segment_matches query_lower part = true →
  first_match query_lower (part :: parts) = Some 0.
Proof. intros H. unfold first_match. simpl. by rewrite decide_True. Qed.





End Query.

(** ** Graph store: edges and their inverses *)

Section StoreEdges.

Lemma find_edge_None edge_id (l : list Edge) :
  find_edge edge_id l = None ↔ edge_id ∉ e_id <$> l.
Proof.
  unfold find_edge. rewrite fmap_None, list_find_None, Forall_forall.
  rewrite list_elem_of_fmap. split.
  - intros H (e & -> & He). by apply (H e).
  - intros H e He Hid. apply H. by exists e.
Qed.

Lemma find_edge_Some edge_id (l : list Edge) e :
  find_edge edge_id l = Some e → e ∈ l ∧ e_id e = edge_id.
Proof.
  unfold find_edge. intros ([i e'] & Hfind & [= <-])%fmap_Some.
  apply list_find_Some in Hfind as (Hi & Hid & _).
  split; [by eapply list_elem_of_lookup_2|done].
Qed.

Lemma ids_distinct_inj T x y :
  ids_distinct T → x ∈ T → y ∈ T → triple_id x = triple_id y → x = y.
Proof.
  unfold ids_distinct. rewrite Forall_forall. intros H Hx Hy.
  specialize (H x Hx). rewrite Forall_forall in H. by apply H.
Qed.

Lemma edges_invariant_add_edge T graph op :
  ids_distinct T →
  op_triples op ⊆ T →
  edges_invariant T (edges graph) →
  edges_invariant T (edges (add_edge graph op)).
Proof.
  intros Hinj Hop Hinv. unfold add_edge, _add_relation.
  destruct (if decide _ then _ else _); [done|].
  destruct (find_edge _ (edges graph)) as [?|] eqn:Hfind; [done|].
  apply find_edge_None in Hfind.
  destruct Hinv as (Hid & Hnodup & HT & Hcomplete).
  set (e := mkEdge _ _ _ _ _ _).
  assert (HeT : triple_of e ∈ T).
  { apply Hop. unfold op_triples. by constructor. }
  assert (Hmono : ∀ (l l' : list Edge) x,
            x ∈ triple_of <$> l → x ∈ triple_of <$> (l ++ l')).
  { intros l l' x Hx. rewrite fmap_app. apply elem_of_app. by left. }
  unfold _add_inverse_relation. cbn [edges].
  destruct (relation_inverses !! op_relation op) as [inv|] eqn:Hrel.
  2:{ cbn [edges]. split_and!.
      - apply Forall_app. split; [done|]. by constructor.
      - rewrite fmap_app. apply NoDup_app. split_and!; [done| |].
        + intros x Hx ->%list_elem_of_singleton. done.
        + apply NoDup_singleton.
      - apply Forall_app. split; [done|]. by constructor.
      - apply Forall_app. split.
        + eapply Forall_impl; [exact Hcomplete|].
          intros x Hx inv Hinv'. by apply Hmono, Hx.
        + constructor; [|done]. intros inv. simpl. by rewrite Hrel. }
  assert (HinvT : (op_target op, inv, op_source op) ∈ T).
  { apply Hop. unfold op_triples. rewrite Hrel. repeat constructor. }
  assert (Hbase :
    Forall (λ e0, e_id e0 = triple_id (triple_of e0)) (edges graph ++ [e])
    ∧ NoDup (e_id <$> edges graph ++ [e])
    ∧ Forall (λ e0, triple_of e0 ∈ T) (edges graph ++ [e])).
  { split_and!.
    - apply Forall_app. split; [done|]. by constructor.
    - rewrite fmap_app. apply NoDup_app. split_and!; [done| |].
      + intros x Hx ->%list_elem_of_singleton. done.
      + apply NoDup_singleton.
    - apply Forall_app. split; [done|]. by constructor. }
  destruct Hbase as (Hid1 & Hnodup1 & HT1).
  destruct (find_edge _ (edges graph ++ [e])) as [e0|] eqn:Hfind'.
  - apply find_edge_Some in Hfind' as [He0 Hid0]. cbn [edges].
    split_and!; [done..|].
    apply Forall_app. split.
    + eapply Forall_impl; [exact Hcomplete|].
      intros x Hx inv' Hinv'. by apply Hmono, Hx.
    + constructor; [|done]. intros inv'. simpl. rewrite Hrel.
      intros [= <-]. apply list_elem_of_fmap. exists e0. split; [|done].
      symmetry. apply (ids_distinct_inj T); [done| |done|].
      * rewrite Forall_forall in HT1. by apply HT1.
      * rewrite Forall_forall in Hid1. by rewrite <- (Hid1 e0 He0).
  - apply find_edge_None in Hfind'. cbn [edges].
    set (e' := mkEdge _ _ _ _ _ _).
    split_and!.
    + apply Forall_app. split; [done|]. by constructor.
    + rewrite fmap_app. apply NoDup_app. split_and!; [done| |].
      * intros x Hx ->%list_elem_of_singleton. done.
      * apply NoDup_singleton.
    + apply Forall_app. split; [done|]. by constructor.
    + rewrite <- app_assoc. apply Forall_app. split.
      * eapply Forall_impl; [exact Hcomplete|].
        intros x Hx inv' Hinv'. by apply Hmono, Hx.
      * constructor; [|constructor; [|done]]; intros inv'; simpl.
        -- rewrite Hrel. intros [= <-]. rewrite fmap_app, elem_of_app.
           right. simpl. repeat constructor.
        -- apply relation_inverses_symmetric in Hrel as [Hrel' _].
           rewrite Hrel'. intros [= <-]. rewrite fmap_app, elem_of_app.
           right. simpl. repeat constructor.
Qed.

Lemma edges_invariant_add_edges T ops graph :
  ids_distinct T →
  ops ≫= op_triples ⊆ T →
  edges_invariant T (edges graph) →
  edges_invariant T (edges (add_edges ops graph)).
Proof.
  intros Hinj. revert graph.
  induction ops as [|op ops IH]; intros graph Hsub Hinv; [done|].
  simpl. rewrite bind_cons in Hsub. apply IH.
  - intros x Hx. apply Hsub, elem_of_app. by right.
  - apply edges_invariant_add_edge; [done| |done].
    intros x Hx. apply Hsub, elem_of_app. by left.
Qed.

(** Whatever the ids, no id occurs twice and every edge carries the id of
    its triple. *)
Lemma edge_ids_add_edge graph op :
  Forall (λ e, e_id e = triple_id (triple_of e)) (edges graph)
  ∧ NoDup (e_id <$> edges graph) →
  Forall (λ e, e_id e = triple_id (triple_of e)) (edges (add_edge graph op))
  ∧ NoDup (e_id <$> edges (add_edge graph op)).
Proof.
  intros [Hid Hnodup]. unfold add_edge, _add_relation.
  destruct (if decide _ then _ else _); [done|].
  destruct (find_edge _ (edges graph)) as [?|] eqn:Hfind; [done|].
  apply find_edge_None in Hfind.
  assert (∀ (l : list Edge) e,
    Forall (λ e, e_id e = triple_id (triple_of e)) l ∧ NoDup (e_id <$> l) →
    e_id e = triple_id (triple_of e) → e_id e ∉ e_id <$> l →
    Forall (λ e, e_id e = triple_id (triple_of e)) (l ++ [e])
    ∧ NoDup (e_id <$> l ++ [e])) as Hsnoc.
  { intros l e [Hl Hn] He Hnotin. split.
    - apply Forall_app. split; [done|]. by constructor.
    - rewrite fmap_app. apply NoDup_app. split_and!; [done| |].
      + intros x Hx ->%list_elem_of_singleton. done.
      + apply NoDup_singleton. }
  unfold _add_inverse_relation. cbn [edges].
  destruct (relation_inverses !! op_relation op) as [inv|];
    [|cbn [edges]; by apply Hsnoc].
  destruct (find_edge _ (edges graph ++ _)) as [?|] eqn:Hfind';
    cbn [edges]; [by apply Hsnoc|].
  apply find_edge_None in Hfind'. apply Hsnoc; [by apply Hsnoc|done..].
Qed.

Lemma edge_ids_add_edges ops graph :
  Forall (λ e, e_id e = triple_id (triple_of e)) (edges graph)
  ∧ NoDup (e_id <$> edges graph) →
  Forall (λ e, e_id e = triple_id (triple_of e)) (edges (add_edges ops graph))
  ∧ NoDup (e_id <$> edges (add_edges ops graph)).
Proof.
  revert graph. induction ops as [|op ops IH]; intros graph H; [done|].
  simpl. by apply IH, edge_ids_add_edge.
Qed.

Lemma filter_length_le_1 (l : list Edge) x :
  Forall (λ e, e_id e = triple_id (triple_of e)) l →
  NoDup (e_id <$> l) →
  length (filter (λ e, triple_of e = x) l) ≤ 1.
Proof.
  induction l as [|e l IH]; intros Hid Hnodup; [simpl; lia|].
  inversion_clear Hid as [|?? He Hl]. rewrite fmap_cons in Hnodup.
  apply NoDup_cons in Hnodup as [Hnotin Hnodup].
  rewrite filter_cons. case_decide as Hx; [|by apply IH].
  simpl. destruct (filter _ l) as [|e' ?] eqn:Hf; [simpl; lia|].
  exfalso. apply Hnotin.
  assert (e' ∈ filter (λ e, triple_of e = x) l) as He'
    by (rewrite Hf; constructor).
  apply list_elem_of_filter in He' as [Hx' He'].
  apply list_elem_of_fmap. exists e'. split; [|done].
  rewrite Forall_forall in Hl. rewrite He, (Hl e' He'). congruence.
Qed.

Lemma filter_length_pos (l : list Edge) x :
  x ∈ triple_of <$> l → 0 < length (filter (λ e, triple_of e = x) l).
Proof.
  intros (e & -> & He)%list_elem_of_fmap.
  assert (e ∈ filter (λ e0, triple_of e0 = triple_of e) l) as Hin
    by (by apply list_elem_of_filter).
  destruct (filter _ l); [by apply elem_of_nil in Hin|simpl; lia].
Qed.

(** C2 (as the code has it). After any sequence of calls from the empty
    graph no (source, relation, target) occurs twice in the edge list; and
    when distinct triples among those of the calls and of their inverses have
    distinct edge ids, every edge whose relation has an inverse in the table
    has its inverse edge in the graph, exactly once. *)
Theorem C2_inverse_edges_present_once (ops : list AddEdge) :
  let graph := add_edges ops empty_graph in
  (∀ source rel_type target, edge_count graph source rel_type target ≤ 1)
  ∧ (ids_distinct (ops ≫= op_triples) → inverse_complete graph).
Proof.
  intros graph.
  destruct (edge_ids_add_edges ops empty_graph) as [Hid Hnodup].
  { split; [constructor|]. simpl. constructor. }
  split.
  - intros s r t. by apply filter_length_le_1.
  - intros Hinj s r t inv Hedge Hrel.
    destruct (edges_invariant_add_edges (ops ≫= op_triples) ops empty_graph)
      as (_ & _ & _ & Hcomplete); [done|done| |].
    { split_and!; simpl; constructor. }
    apply list_elem_of_fmap in Hedge as (e & Hte & He).
    rewrite Forall_forall in Hcomplete.
    injection Hte as -> -> ->.
    specialize (Hcomplete e He inv Hrel).
    pose proof (filter_length_pos _ _ Hcomplete).
    pose proof (filter_length_le_1 (edges graph)
                  (e_target e, inv, e_source e) Hid Hnodup).
    unfold edge_count. subst graph. lia.
Qed.

Lemma C2_inverse_edges_present_once_witness :
  inverse_complete
    (add_edges
       [ mkAddEdge "bank" "is_a" "institution" "doc" "t0" "t1";
         mkAddEdge "bank" "is_a" "institution" "doc" "t2" "t3";
         mkAddEdge "institution" "has_instance" "bank" "doc" "t4" "t5";
         mkAddEdge "bank" "tagged" "money" "doc" "t6" "t7" ]
       empty_graph).
Proof.
  apply (C2_inverse_edges_present_once
           [ mkAddEdge "bank" "is_a" "institution" "doc" "t0" "t1";
             mkAddEdge "bank" "is_a" "institution" "doc" "t2" "t3";
             mkAddEdge "institution" "has_instance" "bank" "doc" "t4" "t5";
             mkAddEdge "bank" "tagged" "money" "doc" "t6" "t7" ]).
  unfold ids_distinct. vm_compute. repeat constructor; congruence.
Defined.

(** C2, as stated, fails when the ids of two distinct triples coincide: the
    id of the inverse of ("a--x--c", is_a, "b") is the id of the edge
    ("b--has_instance--a", x, "c"), so the inverse edge is taken for a
    duplicate and is not inserted. *)
Lemma C2_counterexample :
  ¬ inverse_complete
      (add_edges
         [ mkAddEdge "b--has_instance--a" "x" "c" "doc" "t0" "t1";
           mkAddEdge "a--x--c" "is_a" "b" "doc" "t2" "t3" ]
         empty_graph).
Proof.
  intros H. specialize (H "a--x--c" "is_a" "b" "has_instance").
  assert (0 = 1); [|done]. apply H.
  - vm_compute. repeat constructor.
  - reflexivity.
Qed.

End StoreEdges.

(** ** Cycle detector *)

Section Traversal.

Variable G : gmap string (gset string).

Lemma truthy_Some_snoc (l : list string) x : truthy (Some (l ++ [x])) = true.
Proof. by destruct l. Qed.

(** A call that reports no cycle returns [None] and leaves the stack as it
    found it. *)
Lemma dfs_neighbors_falsy (rec : string → dfs_state → dfs_outcome)
    neighbors visited path_stack result visited' path_stack' :
  (∀ node vis res vis' path',
     rec node (vis, path_stack) = Some (res, (vis', path')) →
     truthy res = false → res = None ∧ path' = path_stack) →
  dfs_neighbors rec neighbors (visited, path_stack)
    = Some (result, (visited', path_stack')) →
  truthy result = false →
  result = None ∧ path_stack' = path_stack.
Proof.
  intros Hrec. revert visited.
  induction neighbors as [|nb rest IH]; intros visited; simpl.
  { by intros [= <- <- <-] _. }
  destruct (rec nb (visited, path_stack)) as [[res [vis1 path1]]|] eqn:Hnb;
    [|done].
  destruct (truthy res) eqn:Hres.
  - intros [= <- <- <-] ?. congruence.
  - destruct (Hrec _ _ _ _ _ Hnb Hres) as [-> ->]. apply IH.
Qed.

Lemma dfs_falsy fuel node visited path_stack result visited' path_stack' :
  dfs fuel G node (visited, path_stack)
    = Some (result, (visited', path_stack')) →
  truthy result = false →
  result = None ∧ path_stack' = path_stack.
Proof.
  revert node visited path_stack result visited' path_stack'.
  induction fuel as [|fuel IH];
    intros node visited path_stack result visited' path_stack'; simpl;
    [done|].
  destruct (decide (node ∈ path_stack)).
  { intros [= <- <- <-]. by rewrite truthy_Some_snoc. }
  destruct (decide (node ∈ visited)); [by intros [= <- <- <-]|].
  destruct (dfs_neighbors _ _ _) as [[res [vis1 path1]]|] eqn:Hloop; [|done].
  destruct (truthy res) eqn:Hres.
  - intros [= <- <- <-] ?. congruence.
  - intros [= <- <- <-] _.
    eapply dfs_neighbors_falsy in Hloop as [_ ->]; [|by eauto|done].
    by rewrite removelast_last.
Qed.

(** A node that was fully explored earlier in the call is not reported. *)
Lemma dfs_finished fuel node visited path_stack :
  node ∈ visited → node ∉ path_stack →
  dfs (S fuel) G node (visited, path_stack) = Some (None, (visited, path_stack)).
Proof. intros Hv Hp. simpl. by rewrite decide_False, decide_True. Qed.

(** *** The recursion budget suffices *)

Section Fuel.

Variable U : list string.
Hypothesis U_closed : ∀ v w, adjacent G v w → w ∈ U.

Lemma dfs_returns fuel node visited path_stack :
  NoDup path_stack → (∀ x, x ∈ path_stack → x ∈ U) → node ∈ U →
  length U < fuel + length path_stack →
  is_Some (dfs fuel G node (visited, path_stack)).
Proof.
  revert node visited path_stack.
  induction fuel as [|fuel IH]; intros node visited path_stack Hnd Hsub Hn Hlen.
  { pose proof (submseteq_length _ _ (NoDup_submseteq _ _ Hnd Hsub)). lia. }
  simpl. destruct (decide (node ∈ path_stack)); [by eauto|].
  destruct (decide (node ∈ visited)); [by eauto|].
  assert (Hloop : ∀ neighbors vis,
    (∀ x, x ∈ neighbors → x ∈ U) →
    is_Some (dfs_neighbors (dfs fuel G) neighbors
               (vis, path_stack ++ [node]))).
  { induction neighbors as [|nb rest IHn]; intros vis Hnbs; simpl;
      [by eauto|].
    destruct (IH nb vis (path_stack ++ [node])) as [[res [vis1 path1]] Hnb].
    - apply NoDup_app. split_and!; [done| |apply NoDup_singleton].
      by intros x Hx ->%list_elem_of_singleton.
    - intros x [Hx| ->%list_elem_of_singleton]%elem_of_app; [by apply Hsub|done].
    - apply Hnbs. constructor.
    - rewrite length_app. simpl. lia.
    - rewrite Hnb. destruct (truthy res) eqn:Hres; [by eauto|].
      apply dfs_falsy in Hnb as [_ ->]; [|done].
      apply IHn. intros x Hx. apply Hnbs. by constructor. }
  destruct (Hloop (elements (G !!! node)) ({[node]} ∪ visited))
    as [[res [vis1 path1]] ->].
  { intros x Hx%elem_of_elements. by eapply U_closed. }
  destruct (truthy res); eauto.
Qed.

End Fuel.

(** *** A reported cycle is a cycle on the stack *)

Lemma chain_snoc R l v w :
  chain R (l ++ [v]) → R v w → chain R ((l ++ [v]) ++ [w]).
Proof.
  intros Hc Hvw i x y Hi HSi.
  apply lookup_snoc_Some in HSi as [[Hlt HSi]|[Hlen <-]].
  - rewrite lookup_app_l in Hi by lia. by eapply Hc.
  - rewrite length_app in Hlen. simpl in Hlen.
    apply lookup_snoc_Some in Hi as [[Hlt Hi]|[Hlen' _]];
      [|rewrite length_app in Hlen'; simpl in Hlen'; lia].
    apply lookup_snoc_Some in Hi as [[Hlt' Hi]|[_ <-]]; [lia|done].
Qed.

Lemma chain_singleton R v : chain R ([] ++ [v]).
Proof. intros [|i] x y Hi HSi; simpl in *; done. Qed.

Lemma chain_tc R l i j v w :
  chain R l → i < j → l !! i = Some v → l !! j = Some w → tc R v w.
Proof.
  intros Hc. revert w. induction j as [|j IH]; intros w Hij Hi Hj; [lia|].
  destruct (decide (i = j)) as [->|Hne].
  - apply tc_once. by eapply Hc.
  - destruct (lookup_lt_is_Some_2 l j) as [u Hu].
    { apply lookup_lt_Some in Hj. lia. }
    eapply tc_r; [apply IH; [lia|done|done]|]. by eapply Hc.
Qed.

Lemma index_of_lookup node (path_stack : list string) :
  node ∈ path_stack → path_stack !! index_of node path_stack = Some node.
Proof.
  intros Hin. unfold index_of.
  destruct (list_find_elem_of (λ x, x = node) path_stack node Hin eq_refl)
    as [[i x] Hfind].
  rewrite Hfind. by apply list_find_Some in Hfind as (Hi & -> & _).
Qed.

Lemma dfs_truthy fuel node visited path_stack result visited' path_stack' :
  dfs fuel G node (visited, path_stack)
    = Some (result, (visited', path_stack')) →
  truthy result = true →
  chain (adjacent G) (path_stack ++ [node]) →
  ∃ n, n ∈ path_stack'
       ∧ result = Some (drop (index_of n path_stack') path_stack' ++ [n])
       ∧ path_stack ++ [node] `prefix_of` path_stack' ++ [n]
       ∧ chain (adjacent G) (path_stack' ++ [n]).
Proof.
  revert node visited path_stack result visited' path_stack'.
  induction fuel as [|fuel IH];
    intros node visited path_stack result visited' path_stack'; simpl;
    [done|].
  destruct (decide (node ∈ path_stack)).
  { intros [= <- <- <-] _ Hc. by exists node. }
  destruct (decide (node ∈ visited)); [by intros [= <- <- <-]|].
  destruct (dfs_neighbors _ _ _) as [[res [vis1 path1]]|] eqn:Hloop; [|done].
  destruct (truthy res) eqn:Hres; [|by intros [= <- <- <-]].
  intros [= <- <- <-] _ Hc.
  assert (Hnbs : ∀ x, x ∈ elements (G !!! node) → adjacent G node x).
  { intros x Hx. by apply elem_of_elements in Hx. }
  revert Hloop Hnbs. generalize ({[node]} ∪ visited).
  generalize (elements (G !!! node)).
  induction l as [|nb rest IHn]; intros vis Hloop Hnbs; simpl in Hloop.
  { injection Hloop as <- <- <-. done. }
  destruct (dfs fuel G nb (vis, path_stack ++ [node]))
    as [[res' [vis2 path2]]|] eqn:Hnb; [|done].
  destruct (truthy res') eqn:Hres'.
  - injection Hloop as <- <- <-.
    destruct (IH _ _ _ _ _ _ Hnb Hres') as (m & Hm & Hr & Hpre & Hch).
    { apply chain_snoc; [done|]. apply Hnbs. constructor. }
    exists m. split_and!; [done..| |done]. by eapply prefix_app_l.
  - apply dfs_falsy in Hnb as [_ ->]; [|done].
    eapply IHn; [done|]. intros x Hx. apply Hnbs. by constructor.
Qed.

(** *** A call that reports nothing has finished with its node *)

Lemma finished_closed_rtc R visited path_stack v w :
  finished_closed R visited path_stack →
  v ∈ visited → v ∉ path_stack → rtc R v w →
  w ∈ visited ∧ w ∉ path_stack.
Proof.
  intros Hinv Hv Hp Hrtc. induction Hrtc as [|x y z Hxy _ IH]; [done|].
  destruct (Hinv x Hv Hp) as [Hsucc _]. destruct (Hsucc y Hxy). by apply IH.
Qed.

Lemma dfs_none fuel node visited path_stack visited' path_stack' :
  dfs fuel G node (visited, path_stack)
    = Some (None, (visited', path_stack')) →
  finished_closed (adjacent G) visited path_stack →
  (visited ⊆ visited') ∧ (node ∈ visited') ∧ (node ∉ path_stack)
  ∧ finished_closed (adjacent G) visited' path_stack.
Proof.
  revert node visited path_stack visited' path_stack'.
  induction fuel as [|fuel IH];
    intros node visited path_stack visited' path_stack'; simpl; [done|].
  destruct (decide (node ∈ path_stack)); [done|].
  destruct (decide (node ∈ visited)); [by intros [= <- <-]|].
  destruct (dfs_neighbors _ _ _) as [[res [vis1 path1]]|] eqn:Hloop; [|done].
  destruct (truthy res) eqn:Hres; [intros [= -> _ _]; done|].
  intros [= <- _] Hinv.
  assert (Hinv1 : finished_closed (adjacent G) ({[node]} ∪ visited)
                    (path_stack ++ [node])).
  { intros v Hv Hp. rewrite not_elem_of_app, list_elem_of_singleton in Hp.
    destruct Hp as [Hp Hne].
    assert (v ∈ visited) as Hv' by (clear -Hv Hne; set_solver).
    destruct (Hinv v Hv' Hp) as [Hsucc Hacyc]. split; [|done].
    intros w Hw. destruct (Hsucc w Hw) as [Hwv Hwp].
    split; [clear -Hwv; set_solver|].
    rewrite not_elem_of_app, list_elem_of_singleton. split; [done|].
    by intros ->. }
  assert (Hloop' :
    {[node]} ∪ visited ⊆ vis1
    ∧ (∀ x, x ∈ elements (G !!! node) →
            x ∈ vis1 ∧ x ∉ path_stack ++ [node])
    ∧ finished_closed (adjacent G) vis1 (path_stack ++ [node])).
  { revert Hloop Hinv1. generalize ({[node]} ∪ visited).
    generalize (elements (G !!! node)).
    induction l as [|nb rest IHn]; intros vis Hloop Hinv1; simpl in Hloop.
    { injection Hloop as _ <- _. split_and!; [done| |done].
      by intros x ?%elem_of_nil. }
    destruct (dfs fuel G nb (vis, path_stack ++ [node]))
      as [[res' [vis2 path2]]|] eqn:Hnb; [|done].
    destruct (truthy res') eqn:Hres'.
    { injection Hloop as -> _ _. congruence. }
    destruct (dfs_falsy _ _ _ _ _ _ _ Hnb Hres') as [-> ->].
    destruct (IH _ _ _ _ _ Hnb Hinv1) as (Hsub & Hnbv & Hnbp & Hinv2).
    destruct (IHn _ Hloop Hinv2) as (Hsub' & Hall & Hinv3).
    split_and!; [clear -Hsub Hsub'; set_solver| |done].
    intros x [->|Hx]%elem_of_cons; [|by apply Hall].
    split; [clear -Hnbv Hsub'; set_solver|done]. }
  destruct Hloop' as (Hsub & Hall & Hinv2).
  split_and!; [clear -Hsub; set_solver|clear -Hsub; set_solver|done|].
  intros v Hv Hp. destruct (decide (v = node)) as [->|Hne].
  - split.
    + intros w Hw. destruct (Hall w) as [Hwv Hwp].
      { by apply elem_of_elements. }
      split; [done|]. rewrite not_elem_of_app in Hwp. by destruct Hwp.
    + intros Hcyc.
      assert (∃ w, adjacent G node w ∧ rtc (adjacent G) w node)
        as (w & Hw & Hrtc).
      { inversion Hcyc as [? ? Hstep|? w ? Hstep Htc]; subst.
        - by exists node.
        - exists w. split; [done|]. by apply tc_rtc. }
      destruct (Hall w) as [Hwv Hwp]; [by apply elem_of_elements|].
      destruct (finished_closed_rtc _ _ _ _ _ Hinv2 Hwv Hwp Hrtc) as [_ Hn].
      apply Hn, elem_of_app. right. constructor.
  - assert (v ∉ path_stack ++ [node]) as Hp'.
    { rewrite not_elem_of_app, list_elem_of_singleton. done. }
    destruct (Hinv2 v Hv Hp') as [Hsucc Hacyc]. split; [|done].
    intros w Hw. destruct (Hsucc w Hw) as [Hwv Hwp]. split; [done|].
    rewrite not_elem_of_app in Hwp. by destruct Hwp.
Qed.

End Traversal.

Section Detector.

Lemma lookup_total_add_target (G : gmap string (gset string)) s t v :
  add_target G s t !!! v =
  if decide (s = v) then {[t]} ∪ (G !!! v) else G !!! v.
Proof.
  unfold add_target. case_decide as Hs.
  - subst. by rewrite lookup_total_insert_eq.
  - by rewrite lookup_total_insert_ne.
Qed.

Lemma elem_of_fold_is_a (l : list Edge) (G0 : gmap string (gset string)) v w :
  w ∈ fold_left
        (λ G edge,
           if decide (e_relation edge = "is_a")
           then add_target G (e_source edge) (e_target edge) else G)
        l G0 !!! v
  ↔ w ∈ G0 !!! v
    ∨ ∃ e, e ∈ l ∧ e_relation e = "is_a" ∧ e_source e = v ∧ e_target e = w.
Proof.
  revert G0. induction l as [|e l IH]; intros G0; simpl.
  { split; [by left|]. intros [?|(e & ?%elem_of_nil & _)]; done. }
  rewrite IH. split.
  - intros [Hw|(e' & He' & H)].
    + destruct (decide (e_relation e = "is_a")) as [Hrel|]; [|by left].
      rewrite lookup_total_add_target in Hw.
      destruct (decide (e_source e = v)) as [Hs|]; [|by left].
      apply elem_of_union in Hw as [Hw%elem_of_singleton|Hw]; [|by left].
      right. exists e. split; [constructor|done].
    + right. exists e'. split; [by constructor|done].
  - intros [Hw|(e' & [->|He']%elem_of_cons & Hrel & Hs & Ht)].
    + left. destruct (decide (e_relation e = "is_a")); [|done].
      rewrite lookup_total_add_target. case_decide; [|done].
      apply elem_of_union. by right.
    + left. rewrite decide_True by done. rewrite lookup_total_add_target.
      rewrite decide_True by done. apply elem_of_union. left.
      by apply elem_of_singleton.
    + right. by exists e'.
Qed.

(** The dictionary of sets built by the detector holds exactly the is_a
    edges and the proposed edge. *)
Lemma adjacent_is_a_graph_of l source target v w :
  adjacent (is_a_graph_of l source target) v w ↔ is_a_step l source target v w.
Proof.
  unfold adjacent, is_a_graph_of, is_a_step.
  rewrite lookup_total_add_target. split.
  - destruct (decide (source = v)) as [<-|].
    + intros [Hw%elem_of_singleton|Hw]%elem_of_union; [by right|].
      apply elem_of_fold_is_a in Hw as [Hw|Hw]; [|by left].
      by rewrite lookup_total_empty in Hw.
    + intros Hw. apply elem_of_fold_is_a in Hw as [Hw|Hw]; [|by left].
      by rewrite lookup_total_empty in Hw.
  - intros [He|[-> ->]].
    + assert (w ∈ fold_left
                (λ G edge,
                   if decide (e_relation edge = "is_a")
                   then add_target G (e_source edge) (e_target edge) else G)
                l ∅ !!! v) as Hw by (apply elem_of_fold_is_a; by right).
      case_decide; [|done]. apply elem_of_union. by right.
    + rewrite decide_True by done. apply elem_of_union. left.
      by apply elem_of_singleton.
Qed.

Lemma cycle_reachable_ext (R R' : relation string) source :
  (∀ v w, R v w → R' v w) → cycle_reachable R source →
  cycle_reachable R' source.
Proof.
  intros Hsub (v & Hreach & Hcyc). exists v. split.
  - by eapply rtc_subrel.
  - by apply (tc_congruence (R:=R) id R').
Qed.

Lemma end_points_closed l source target v w :
  is_a_step l source target v w → w ∈ end_points l source target.
Proof.
  unfold end_points. intros [(e & He & _ & _ & <-)|[_ ->]].
  - do 2 apply list_elem_of_further. apply elem_of_app. right.
    by apply list_elem_of_fmap_2.
  - apply list_elem_of_further. constructor.
Qed.

(** The traversal always returns within the budget. *)
Lemma detect_run_returns l source target :
  is_Some (detect_run l source target).
Proof.
  unfold detect_run.
  apply (dfs_returns _ (end_points l source target)).
  - intros v w Hvw. eapply end_points_closed.
    by apply adjacent_is_a_graph_of.
  - constructor.
  - by intros x ?%elem_of_nil.
  - constructor.
  - unfold end_points, dfs_fuel. simpl.
    rewrite length_app, !length_fmap. lia.
Qed.

(** A reported cycle is the part of the stack from the first occurrence of
    a node met again, closed by that node; the stack starts at the source and
    is a path of the graph, so the cycle is one, reachable from the source. *)
Lemma detect_run_truthy l source target result visited path_stack :
  detect_run l source target = Some (result, (visited, path_stack)) →
  truthy result = true →
  ∃ n, n ∈ path_stack
       ∧ result = Some (drop (index_of n path_stack) path_stack ++ [n])
       ∧ head path_stack = Some source
       ∧ chain (is_a_step l source target) (path_stack ++ [n])
       ∧ cycle_reachable (is_a_step l source target) source.
Proof.
  intros Hrun Htruthy. unfold detect_run in Hrun.
  destruct (dfs_truthy _ _ _ _ _ _ _ _ Hrun Htruthy)
    as (n & Hn & Hres & Hpre & Hch); [apply chain_singleton|].
  assert (Hch' : chain (is_a_step l source target) (path_stack ++ [n])).
  { intros i v w Hi HSi. apply adjacent_is_a_graph_of. by eapply Hch. }
  pose proof (index_of_lookup n path_stack Hn) as Hidx.
  pose proof (lookup_lt_Some _ _ _ Hidx) as Hlt.
  assert (Hhead : (path_stack ++ [n]) !! 0 = Some source).
  { eapply prefix_lookup_Some; [|exact Hpre]. done. }
  exists n. split_and!; [done|done| |done|].
  - destruct path_stack; [by apply elem_of_nil in Hn|done].
  - exists n. split.
    + destruct (decide (index_of n path_stack = 0)) as [H0|Hne].
      * rewrite H0 in Hidx. rewrite lookup_app_l in Hhead by lia.
        rewrite Hidx in Hhead. by injection Hhead as ->.
      * apply tc_rtc.
        apply (chain_tc _ (path_stack ++ [n]) 0 (index_of n path_stack));
          [done|lia|done|]. by rewrite lookup_app_l.
    + apply (chain_tc _ (path_stack ++ [n]) (index_of n path_stack)
               (length path_stack)); [done|done| |].
      * by rewrite lookup_app_l.
      * by rewrite list_lookup_middle.
Qed.

(** When nothing is reported, no cycle can be reached from the source. *)
Lemma detect_run_falsy l source target result visited path_stack :
  detect_run l source target = Some (result, (visited, path_stack)) →
  truthy result = false →
  result = None ∧ ¬ cycle_reachable (is_a_step l source target) source.
Proof.
  intros Hrun Hfalsy. unfold detect_run in Hrun.
  destruct (dfs_falsy _ _ _ _ _ _ _ _ Hrun Hfalsy) as [-> ->].
  split; [done|].
  destruct (dfs_none _ _ _ _ _ _ _ Hrun) as (_ & Hsrc & _ & Hinv).
  { by intros v ?%elem_of_empty. }
  intros Hcyc.
  apply (cycle_reachable_ext _
           (adjacent (is_a_graph_of l source target))) in Hcyc.
  2:{ intros v w. apply adjacent_is_a_graph_of. }
  destruct Hcyc as (v & Hreach & Hcyc).
  destruct (finished_closed_rtc _ _ _ _ _ Hinv Hsrc (not_elem_of_nil _) Hreach)
    as [Hv Hp].
  by destruct (Hinv v Hv Hp) as [_ Hacyc].
Qed.

(** What a returned path is made of. *)
Lemma returned_path_on_stack l source target c :
  detect_circular_reference l source target "is_a" = Some c →
  ∃ path_stack n,
    n ∈ path_stack
    ∧ c = drop (index_of n path_stack) path_stack ++ [n]
    ∧ head path_stack = Some source
    ∧ chain (is_a_step l source target) (path_stack ++ [n]).
Proof.
  assert (Hdet : detect_circular_reference l source target "is_a" =
                 match detect_run l source target with
                 | Some (result, _) => result
                 | None => None
                 end) by done.
  destruct (detect_run_returns l source target)
    as [[result [visited path_stack]] Hrun].
  rewrite Hrun in Hdet. rewrite Hdet. intros ->.
  assert (truthy (Some c) = true) as Htruthy.
  { destruct (truthy (Some c)) eqn:Ht; [done|].
    by destruct (detect_run_falsy _ _ _ _ _ _ Hrun Ht). }
  destruct (detect_run_truthy _ _ _ _ _ _ Hrun Htruthy)
    as (n & Hn & [= ->] & Hhead & Hch & _).
  by exists path_stack, n.
Qed.

(** C3. For the relation is_a the detector returns a non-empty cycle path
    exactly when a cycle of the is_a edges with the proposed edge can be
    reached from the proposed source; the path returned is the part of the
    active stack from the first occurrence of the node met again through its
    repeat, the stack being a path of that graph from the source; for another
    relation it returns nothing; and a node that is visited and no longer on
    the stack is never reported. *)
Theorem C3_cycle_detector (l : list Edge) (source target : string) :
  ((∃ c, detect_circular_reference l source target "is_a" = Some c ∧ c ≠ [])
   ↔ cycle_reachable (is_a_step l source target) source)
  ∧ (∀ c, detect_circular_reference l source target "is_a" = Some c →
       ∃ visited path_stack n,
         detect_run l source target = Some (Some c, (visited, path_stack))
         ∧ n ∈ path_stack
         ∧ c = drop (index_of n path_stack) path_stack ++ [n]
         ∧ head path_stack = Some source
         ∧ chain (is_a_step l source target) (path_stack ++ [n]))
  ∧ (∀ relation, relation ≠ "is_a" →
       detect_circular_reference l source target relation = None)
  ∧ (∀ fuel node visited path_stack,
       node ∈ visited → node ∉ path_stack →
       dfs (S fuel) (is_a_graph_of l source target) node (visited, path_stack)
       = Some (None, (visited, path_stack))).
Proof.
  assert (Hdet : detect_circular_reference l source target "is_a" =
                 match detect_run l source target with
                 | Some (result, _) => result
                 | None => None
                 end) by done.
  destruct (detect_run_returns l source target)
    as [[result [visited path_stack]] Hrun].
  rewrite Hrun in Hdet. rewrite Hdet.
  split_and!.
  - destruct (truthy result) eqn:Htruthy.
    + destruct (detect_run_truthy _ _ _ _ _ _ Hrun Htruthy)
        as (n & _ & -> & _ & _ & Hcyc).
      split; [done|]. intros _. eexists. split; [done|].
      by destruct (drop _ _).
    + destruct (detect_run_falsy _ _ _ _ _ _ Hrun Htruthy) as [-> Hno].
      split; [by intros (c & ? & _)|done].
  - intros c ->.
    assert (truthy (Some c) = true) as Htruthy.
    { destruct (truthy (Some c)) eqn:Ht; [done|].
      by destruct (detect_run_falsy _ _ _ _ _ _ Hrun Ht). }
    destruct (detect_run_truthy _ _ _ _ _ _ Hrun Htruthy)
      as (n & Hn & [= ->] & Hhead & Hch & _).
    by exists visited, path_stack, n.
  - intros relation Hrel. unfold detect_circular_reference.
    by rewrite decide_True.
  - intros fuel node vis P. apply dfs_finished.
Qed.

End Detector.

(** * Further properties of the code *)

(** ** The detector and the store *)

Section DetectorAndStore.

Lemma detect_truthy_iff (l : list Edge) (source target : string) :
  truthy (detect_circular_reference l source target "is_a") = true
  ↔ cycle_reachable (is_a_step l source target) source.
Proof.
  assert (Hdet : detect_circular_reference l source target "is_a" =
                 match detect_run l source target with
                 | Some (result, _) => result
                 | None => None
                 end) by done.
  destruct (detect_run_returns l source target)
    as [[result [visited path_stack]] Hrun].
  rewrite Hrun in Hdet. rewrite Hdet.
  destruct (truthy result) eqn:Htruthy.
  - by destruct (detect_run_truthy _ _ _ _ _ _ Hrun Htruthy)
      as (n & _ & _ & _ & _ & Hcyc).
  - by destruct (detect_run_falsy _ _ _ _ _ _ Hrun Htruthy) as [_ Hno].
Qed.


Lemma chain_drop R l k : chain R l → chain R (drop k l).
Proof.
  intros Hc i v w Hi HSi. rewrite lookup_drop in Hi, HSi.
  apply (Hc (k + i)); [done|]. by replace (S (k + i)) with (k + S i) by lia.
Qed.

(** A path returned by the detector is a closed walk of the graph it
    explored: it starts and ends with the same node, and each node is followed
    by one of its is_a targets (the proposed edge counted in). *)
Theorem reported_cycle_is_closed_walk (l : list Edge)
    (source target : string) (c : list string) :
  detect_circular_reference l source target "is_a" = Some c →
  ∃ n middle,
    c = n :: middle ++ [n]
    ∧ chain (is_a_step l source target) c
    ∧ rtc (is_a_step l source target) source n.
Proof.
  intros Hc.
  destruct (returned_path_on_stack l source target c Hc)
    as (path_stack & n & Hn & -> & Hhead & Hch).
  pose proof (index_of_lookup n path_stack Hn) as Hidx.
  pose proof (lookup_lt_Some _ _ _ Hidx) as Hlt.
  exists n, (drop (S (index_of n path_stack)) path_stack).
  split_and!.
  - by rewrite (drop_S _ _ _ Hidx).
  - rewrite <- (drop_app_le _ [n]) by lia. by apply chain_drop.
  - destruct (decide (index_of n path_stack = 0)) as [H0|Hne].
    + rewrite H0 in Hidx. destruct path_stack; [done|].
      simpl in *. by simplify_eq.
    + apply tc_rtc.
      apply (chain_tc _ (path_stack ++ [n]) 0 (index_of n path_stack));
        [done|lia| |by rewrite lookup_app_l].
      destruct path_stack; [done|]. simpl in *. by simplify_eq.
Qed.

Lemma reported_cycle_is_closed_walk_witness :
  ∃ n middle,
    ["c"; "a"; "b"; "c"] = n :: middle ++ [n]
    ∧ chain
        (is_a_step
           [mkEdge "a--is_a--b" "a" "is_a" "b" "doc" "t0";
            mkEdge "b--is_a--c" "b" "is_a" "c" "doc" "t1"] "c" "a")
        ["c"; "a"; "b"; "c"]
    ∧ rtc
        (is_a_step
           [mkEdge "a--is_a--b" "a" "is_a" "b" "doc" "t0";
            mkEdge "b--is_a--c" "b" "is_a" "c" "doc" "t1"] "c" "a")
        "c" n.
Proof.
  apply (reported_cycle_is_closed_walk
           [mkEdge "a--is_a--b" "a" "is_a" "b" "doc" "t0";
            mkEdge "b--is_a--c" "b" "is_a" "c" "doc" "t1"] "c" "a").
  vm_compute. reflexivity.
Defined.

(** An is_a insertion that would close a cycle reachable from its source
    leaves the whole graph (nodes, edges, taxonomy mappings) as it was. *)
Theorem cycle_closing_insertion_changes_nothing (graph : Graph)
    (op : AddEdge) :
  op_relation op = "is_a" →
  cycle_reachable
    (is_a_step (edges graph) (op_source op) (op_target op)) (op_source op) →
  add_edge graph op = graph.
Proof.
  intros Hrel Hcyc. apply detect_truthy_iff in Hcyc.
  unfold add_edge, _add_relation. by rewrite decide_True, Hcyc by done.
Qed.

Lemma tc_new_edge (R R' : relation string) s t x y :
  (∀ v w, R' v w → R v w ∨ (v = s ∧ w = t)) →
  tc R' x y → tc R x y ∨ (rtc R' x s ∧ rtc R' s y).
Proof.
  intros Hsub Htc. induction Htc as [x y Hxy|x y z Hxy Hyz IH].
  - destruct (Hsub _ _ Hxy) as [HR|[-> ->]]; [left; by apply tc_once|].
    right. split; [done|by apply rtc_once].
  - destruct IH as [HR|[Hys Hsz]].
    + destruct (Hsub _ _ Hxy) as [HR'|[-> ->]].
      * left. by eapply tc_l.
      * right. split; [done|]. eapply rtc_l; [exact Hxy|by apply tc_rtc].
    + right. split; [|done]. by eapply rtc_l.
Qed.

(** A new edge closes a cycle of an acyclic relation only through its
    source. *)
Lemma new_edge_cycle (R R' : relation string) s t v :
  acyclic R →
  (∀ v w, R' v w → R v w ∨ (v = s ∧ w = t)) →
  tc R' v v → cycle_reachable R' s.
Proof.
  intros Hacyc Hsub Htc.
  destruct (tc_new_edge R R' s t v v Hsub Htc) as [HR|[Hvs Hsv]].
  - by destruct (Hacyc v).
  - exists v. by split.
Qed.

Lemma inverse_is_a r : relation_inverses !! r = Some "is_a" → r = "has_instance".
Proof.
  intros [H _]%relation_inverses_symmetric.
  assert (relation_inverses !! "is_a" = Some "has_instance") as H'
    by (by vm_compute).
  congruence.
Qed.

(** The edges after a call: those before, then possibly the edge of the
    call, then possibly its inverse. *)
Lemma edges_add_edge graph op :
  edges (add_edge graph op) = edges graph
  ∨ (rejected graph op = false
     ∧ (e_id (edge_of op) ∉ e_id <$> edges graph)
     ∧ (edges (add_edge graph op) = edges graph ++ [edge_of op]
        ∨ ∃ inverse_type e',
            relation_inverses !! op_relation op = Some inverse_type
            ∧ triple_of e' = (op_target op, inverse_type, op_source op)
            ∧ e_id e' = edge_id_of (op_target op) inverse_type (op_source op)
            ∧ (e_id e' ∉ e_id <$> (edges graph ++ [edge_of op]))
            ∧ edges (add_edge graph op) = edges graph ++ [edge_of op; e'])).
Proof.
  unfold add_edge, _add_relation. fold (rejected graph op).
  destruct (rejected graph op); [by left|].
  fold (edge_of op).
  destruct (find_edge _ (edges graph)) as [?|] eqn:Hfind; [by left|].
  apply find_edge_None in Hfind. right. split; [done|]. split; [done|].
  unfold _add_inverse_relation. cbn [edges].
  destruct (relation_inverses !! op_relation op) as [inv|]; [|by left].
  destruct (find_edge _ (edges graph ++ _)) as [?|] eqn:Hfind';
    cbn [edges]; [by left|].
  apply find_edge_None in Hfind'. right.
  exists inv,
    (mkEdge (edge_id_of (op_target op) inv (op_source op)) (op_target op) inv
       (op_source op) (op_source_file op) (op_now_inverse op)).
  split_and!; [done..|by rewrite <- app_assoc].
Qed.

Lemma is_a_rel_add_edge graph op v w :
  op_relation op ≠ "has_instance" →
  is_a_rel (add_edge graph op) v w →
  is_a_rel graph v w
  ∨ (op_relation op = "is_a" ∧ rejected graph op = false
     ∧ v = op_source op ∧ w = op_target op).
Proof.
  intros Hrel. unfold is_a_rel, has_edge.
  destruct (edges_add_edge graph op)
    as [->|(Hrej & _ & [->|(inv & e' & Hinv & He' & _ & _ & ->)])];
    [by left|..].
  - rewrite fmap_app, elem_of_app.
    intros [?|[=]%list_elem_of_singleton]; [by left|]. by right.
  - rewrite fmap_app, elem_of_app. intros [?|Hin]; [by left|].
    simpl in Hin. apply elem_of_cons in Hin as [[=]|Hin]; [by right|].
    apply list_elem_of_singleton in Hin. rewrite He' in Hin.
    injection Hin as -> <- ->. by apply inverse_is_a in Hinv.
Qed.

Lemma acyclic_add_edge graph op :
  op_relation op ≠ "has_instance" →
  acyclic (is_a_rel graph) → acyclic (is_a_rel (add_edge graph op)).
Proof.
  intros Hrel Hacyc v Htc.
  destruct (decide (op_relation op = "is_a" ∧ rejected graph op = false))
    as [[His Hrej]|Hno].
  - apply (new_edge_cycle (is_a_rel graph) _ (op_source op) (op_target op))
      in Htc; [|done|].
    2:{ intros x y Hxy.
        destruct (is_a_rel_add_edge _ _ _ _ Hrel Hxy) as [?|(_ & _ & ? & ?)];
          [by left|by right]. }
    apply (cycle_reachable_ext _
             (is_a_step (edges graph) (op_source op) (op_target op))) in Htc.
    2:{ intros x y Hxy.
        destruct (is_a_rel_add_edge _ _ _ _ Hrel Hxy) as [Hold|(_ & _ & ? & ?)];
          [|by right].
        left. apply list_elem_of_fmap in Hold as (e & [= -> ? ->] & He).
        by exists e. }
    apply detect_truthy_iff in Htc.
    unfold rejected in Hrej. rewrite decide_True in Hrej by done. congruence.
  - apply (Hacyc v). apply (tc_congruence (R:=is_a_rel (add_edge graph op)) id).
    2:{ exact Htc. }
    intros x y Hxy.
    destruct (is_a_rel_add_edge _ _ _ _ Hrel Hxy) as [?|(? & ? & _)];
      [done|]. by destruct Hno.
Qed.

(** Calls of relations other than has_instance keep the is_a subgraph
    acyclic. *)
Theorem is_a_acyclic_without_has_instance (ops : list AddEdge)
    (graph : Graph) :
  acyclic (is_a_rel graph) →
  Forall (λ op, op_relation op ≠ "has_instance") ops →
  acyclic (is_a_rel (add_edges ops graph)).
Proof.
  revert graph. induction ops as [|op ops IH]; intros graph Hacyc Hops;
    [done|].
  inversion_clear Hops. simpl. apply IH; [|done]. by apply acyclic_add_edge.
Qed.

Lemma acyclic_empty_graph : acyclic (is_a_rel empty_graph).
Proof.
  intros v Htc. inversion Htc as [?? H|??? H _]; subst;
    unfold is_a_rel, has_edge in H; simpl in H; by apply elem_of_nil in H.
Qed.

Lemma is_a_acyclic_without_has_instance_witness :
  acyclic
    (is_a_rel
       (add_edges
          [ mkAddEdge "a" "is_a" "b" "doc" "t0" "t1";
            mkAddEdge "b" "is_a" "c" "doc" "t2" "t3";
            mkAddEdge "c" "is_a" "a" "doc" "t4" "t5";
            mkAddEdge "c" "part_of" "a" "doc" "t6" "t7" ]
          empty_graph)).
Proof.
  apply (is_a_acyclic_without_has_instance _ empty_graph).
  - exact acyclic_empty_graph.
  - repeat constructor; discriminate.
Defined.

Lemma cycle_closing_insertion_changes_nothing_witness :
  add_edge
    (add_edges [mkAddEdge "a" "is_a" "b" "doc" "t0" "t1"] empty_graph)
    (mkAddEdge "b" "is_a" "a" "doc" "t2" "t3")
  = add_edges [mkAddEdge "a" "is_a" "b" "doc" "t0" "t1"] empty_graph.
Proof.
  apply cycle_closing_insertion_changes_nothing; [reflexivity|].
  apply detect_truthy_iff. vm_compute. reflexivity.
Defined.

(** The inverse of a has_instance call is an is_a edge, and it is inserted
    without the detector being asked: when the two ids are new, the is_a edge
    from the target to the source is in the graph afterwards, and it closes a
    cycle if the opposite is_a edge was there. *)
Theorem has_instance_insertion_skips_detector (graph : Graph) (op : AddEdge) :
  op_relation op = "has_instance" →
  e_id (edge_of op) ∉ e_id <$> edges graph →
  edge_id_of (op_target op) "is_a" (op_source op)
    ∉ e_id <$> edges graph ++ [edge_of op] →
  has_edge (add_edge graph op) (op_target op) "is_a" (op_source op)
  ∧ (has_edge graph (op_source op) "is_a" (op_target op) →
     tc (is_a_rel (add_edge graph op)) (op_source op) (op_source op)).
Proof.
  intros Hrel Hnew Hnew'.
  assert (edges (add_edge graph op) =
          edges graph ++
          [edge_of op;
           mkEdge (edge_id_of (op_target op) "is_a" (op_source op))
             (op_target op) "is_a" (op_source op) (op_source_file op)
             (op_now_inverse op)]) as Hedges.
  { unfold add_edge, _add_relation. rewrite decide_False by (by rewrite Hrel).
    apply find_edge_None in Hnew. simpl in Hnew. rewrite Hnew.
    unfold _add_inverse_relation. cbn [edges]. rewrite Hrel.
    assert (relation_inverses !! "has_instance" = Some "is_a") as ->
      by (by vm_compute).
    apply find_edge_None in Hnew'. unfold edge_of in Hnew'.
    rewrite Hrel in Hnew'. rewrite Hnew'. cbn [edges].
    unfold edge_of. by rewrite <- app_assoc, Hrel. }
  assert (has_edge (add_edge graph op) (op_target op) "is_a" (op_source op))
    as Hback.
  { unfold has_edge. rewrite Hedges, fmap_app, elem_of_app. right.
    simpl. repeat constructor. }
  split; [done|]. intros Hold.
  eapply tc_l; [|apply tc_once; exact Hback].
  unfold is_a_rel, has_edge. rewrite Hedges, fmap_app, elem_of_app. by left.
Qed.

Lemma has_instance_insertion_skips_detector_witness :
  tc (is_a_rel
        (add_edge
           (add_edges [mkAddEdge "a" "is_a" "b" "doc" "t0" "t1"] empty_graph)
           (mkAddEdge "a" "has_instance" "b" "doc" "t2" "t3")))
    "a" "a".
Proof.
  apply (has_instance_insertion_skips_detector
           (add_edges [mkAddEdge "a" "is_a" "b" "doc" "t0" "t1"] empty_graph)
           (mkAddEdge "a" "has_instance" "b" "doc" "t2" "t3")).
  - reflexivity.
  - vm_compute. intros H. repeat (apply elem_of_cons in H as [[=]|H]).
    by apply elem_of_nil in H.
  - vm_compute. intros H. repeat (apply elem_of_cons in H as [[=]|H]).
    by apply elem_of_nil in H.
  - vm_compute. repeat constructor.
Defined.

Lemma rejected_same_triple graph op op' :
  op_source op' = op_source op → op_relation op' = op_relation op →
  op_target op' = op_target op →
  rejected graph op' = rejected graph op.
Proof. intros Hs Hr Ht. unfold rejected. by rewrite Hs, Hr, Ht. Qed.

(** Insertion is idempotent: a second call for the same (source, relation,
    target), whatever its document and time, changes nothing. *)
Theorem add_edge_idempotent (graph : Graph) (op op' : AddEdge) :
  op_source op' = op_source op → op_relation op' = op_relation op →
  op_target op' = op_target op →
  add_edge (add_edge graph op) op' = add_edge graph op.
Proof.
  intros Hs Hr Ht.
  assert (Hagain : ∀ g,
    edge_id_of (op_source op) (op_relation op) (op_target op)
      ∈ e_id <$> edges g →
    add_edge g op' = g).
  { intros g Hin. unfold add_edge, _add_relation. rewrite Hs, Hr, Ht.
    destruct (if decide _ then _ else _); [done|].
    destruct (find_edge _ (edges g)) as [?|] eqn:Hfind; [done|].
    by apply find_edge_None in Hfind. }
  destruct (edges_add_edge graph op)
    as [Hsame|(Hrej & Hnew & Hgrown)].
  - assert (add_edge graph op = graph) as ->; [|].
    { unfold add_edge, _add_relation in *. fold (rejected graph op) in *.
      destruct (rejected graph op); [done|].
      destruct (find_edge _ (edges graph)) as [?|] eqn:Hfind; [done|].
      exfalso. unfold _add_inverse_relation in Hsame. cbn [edges] in Hsame.
      destruct (relation_inverses !! op_relation op).
      + destruct (find_edge _ (edges graph ++ _)); cbn [edges] in Hsame.
        * apply (f_equal length) in Hsame.
          rewrite length_app in Hsame. simpl in Hsame. lia.
        * apply (f_equal length) in Hsame.
          rewrite !length_app in Hsame. simpl in Hsame. lia.
      + cbn [edges] in Hsame. apply (f_equal length) in Hsame.
        rewrite length_app in Hsame. simpl in Hsame. lia. }
    unfold add_edge at 1, _add_relation. rewrite Hs, Hr, Ht.
    unfold add_edge, _add_relation in Hsame.
    destruct (if decide _ then _ else _); [done|].
    destruct (find_edge _ (edges graph)) as [?|] eqn:Hfind; [done|].
    exfalso. unfold _add_inverse_relation in Hsame. cbn [edges] in Hsame.
    destruct (relation_inverses !! op_relation op).
    + destruct (find_edge _ (edges graph ++ _)); cbn [edges] in Hsame.
      * apply (f_equal length) in Hsame.
        rewrite length_app in Hsame. simpl in Hsame. lia.
      * apply (f_equal length) in Hsame.
        rewrite !length_app in Hsame. simpl in Hsame. lia.
    + cbn [edges] in Hsame. apply (f_equal length) in Hsame.
      rewrite length_app in Hsame. simpl in Hsame. lia.
  - apply Hagain.
    destruct Hgrown as [->|(inv & e' & _ & _ & _ & _ & ->)];
      rewrite fmap_app, elem_of_app; right; simpl; constructor.
Qed.

(** Whatever the calls, no edge id and no (source, relation, target) occurs
    twice in the edge list. *)
Theorem add_edges_no_duplicates (ops : list AddEdge) :
  NoDup (e_id <$> edges (add_edges ops empty_graph))
  ∧ ∀ source rel_type target,
      edge_count (add_edges ops empty_graph) source rel_type target ≤ 1.
Proof.
  destruct (edge_ids_add_edges ops empty_graph) as [Hid Hnodup].
  { split; [constructor|]. simpl. constructor. }
  split; [done|]. intros s r t. by apply filter_length_le_1.
Qed.

(** When distinct triples among those of the calls and of their inverses
    have distinct edge ids, the graph built from the empty one holds, for
    every edge whose relation has an inverse in the table, the inverse edge. *)
Theorem add_edges_inverse_present (ops : list AddEdge)
    (source rel_type target inverse_type : string) :
  ids_distinct (ops ≫= op_triples) →
  has_edge (add_edges ops empty_graph) source rel_type target →
  relation_inverses !! rel_type = Some inverse_type →
  has_edge (add_edges ops empty_graph) target inverse_type source.
Proof.
  intros Hinj Hedge Hrel.
  destruct (edges_invariant_add_edges (ops ≫= op_triples) ops empty_graph)
    as (_ & _ & _ & Hcomplete); [done|done| |].
  { split_and!; simpl; constructor. }
  apply list_elem_of_fmap in Hedge as (e & Hte & He).
  rewrite Forall_forall in Hcomplete. injection Hte as -> -> ->.
  by apply Hcomplete.
Qed.

Lemma add_edges_inverse_present_witness :
  has_edge
    (add_edges
       [ mkAddEdge "bank" "part_of" "economy" "doc" "t0" "t1";
         mkAddEdge "bank" "is_a" "institution" "doc" "t2" "t3" ]
       empty_graph)
    "institution" "has_instance" "bank".
Proof.
  apply (add_edges_inverse_present
           [ mkAddEdge "bank" "part_of" "economy" "doc" "t0" "t1";
             mkAddEdge "bank" "is_a" "institution" "doc" "t2" "t3" ]
           "bank" "is_a" "institution" "has_instance").
  - unfold ids_distinct. vm_compute. repeat constructor; congruence.
  - vm_compute. repeat constructor.
  - reflexivity.
Defined.

Lemma add_edge_idempotent_witness :
  add_edge
    (add_edge empty_graph (mkAddEdge "a" "is_a" "b" "doc" "t0" "t1"))
    (mkAddEdge "a" "is_a" "b" "other" "t2" "t3")
  = add_edge empty_graph (mkAddEdge "a" "is_a" "b" "doc" "t0" "t1").
Proof. by apply add_edge_idempotent. Defined.

End DetectorAndStore.

(** ** Adding parsed concepts *)

Section AddToGraph.

Variable clock : nat → string.

Lemma same_cores_refl nodes : same_cores nodes nodes.
Proof. done. Qed.

Lemma same_cores_trans n1 n2 n3 :
  same_cores n1 n2 → same_cores n2 n3 → same_cores n1 n3.
Proof. intros H1 H2 key. by rewrite H1. Qed.

Lemma same_cores_update_node_relations nodes source rel_type target :
  same_cores nodes (update_node_relations nodes source rel_type target).
Proof.
  intros key. rewrite dict_get_update_node_relations.
  case_decide; [|done]. by destruct (PyDict.dict_get key nodes).
Qed.

(** [_add_relation] touches the relations of nodes and the edges, nothing
    else. *)
Lemma add_relation_frame now now' source rel_type target file graph :
  same_cores (nodes graph)
    (nodes (_add_relation now now' source rel_type target file graph))
  ∧ taxonomy_mappings
      (_add_relation now now' source rel_type target file graph)
    = taxonomy_mappings graph.
Proof.
  unfold _add_relation.
  destruct (if decide _ then _ else _); [done|].
  destruct (find_edge _ (edges graph)); [done|].
  unfold _add_inverse_relation. cbn [edges nodes taxonomy_mappings].
  destruct (relation_inverses !! rel_type);
    [|split; [apply same_cores_update_node_relations|done]].
  destruct (find_edge _ _); cbn [nodes taxonomy_mappings];
    (split; [|done]).
  - apply same_cores_update_node_relations.
  - eapply same_cores_trans; apply same_cores_update_node_relations.
Qed.

Lemma add_relations_frame search_path file
    (relations : list (string * RelValue)) graph tick :
  let st' :=
    fold_left
      (λ st '(rel_type, value),
         fold_left
           (λ st target,
              add_relation_at clock search_path rel_type target file st)
           (targets_of value) st)
      relations (graph, tick) in
  same_cores (nodes graph) (nodes (fst st'))
  ∧ taxonomy_mappings (fst st') = taxonomy_mappings graph.
Proof.
  revert graph tick.
  induction relations as [|[rel_type value] relations IH];
    intros graph tick; [done|].
  simpl fold_left.
  assert (Hinner : ∀ targets g t,
    let st1 :=
      fold_left
        (λ st target,
           add_relation_at clock search_path rel_type target file st)
        targets (g, t) in
    same_cores (nodes g) (nodes (fst st1))
    ∧ taxonomy_mappings (fst st1) = taxonomy_mappings g).
  { induction targets as [|target targets IHt]; intros g t; [done|].
    simpl fold_left.
    destruct (add_relation_frame (clock t) (clock (S t)) search_path rel_type
                target file g) as [Hc Ht].
    specialize (IHt
      (_add_relation (clock t) (clock (S t)) search_path rel_type target
         file g)
      (t + clock_reads g search_path rel_type target)).
    destruct IHt as [Hc' Ht']. split.
    - by eapply same_cores_trans.
    - by rewrite Ht'. }
  specialize (Hinner (targets_of value) graph tick).
  destruct (fold_left _ (targets_of value) (graph, tick)) as [g1 t1].
  destruct Hinner as [Hc Ht]. destruct (IH g1 t1) as [Hc' Ht'].
  split; [by eapply same_cores_trans|]. simpl in *. by rewrite Ht'.
Qed.

Lemma dict_get_update_node_sources nodes search_path file key :
  PyDict.dict_get key (update_node_sources nodes search_path file) =
  if decide (search_path = key)
  then node_add_source file <$> PyDict.dict_get key nodes
  else PyDict.dict_get key nodes.
Proof.
  induction nodes as [|[k node] rest IH]; simpl.
  - by case_decide.
  - destruct (decide (k = search_path)) as [->|Hk]; simpl.
    + repeat (case_decide; simplify_eq/=); done.
    + rewrite IH. repeat (case_decide; simplify_eq/=); done.
Qed.

Lemma dict_get_snoc {A} key k (v : A) (d : list (string * A)) :
  PyDict.dict_get key (d ++ [(k, v)]) =
  match PyDict.dict_get key d with
  | Some x => Some x
  | None => if decide (k = key) then Some v else None
  end.
Proof.
  induction d as [|[k' v'] d IH]; simpl; [done|].
  destruct (decide (k' = key)); [done|apply IH].
Qed.

(** One concept: the node map afterwards, read at any key. *)
Lemma add_concept_nodes graph tick concept key :
  node_core <$>
    PyDict.dict_get key (nodes (fst (add_concept clock (graph, tick) concept)))
  = match PyDict.dict_get key (nodes graph) with
    | Some node =>
        Some (node_core
                (if decide (pc_search_path concept = key)
                 then node_add_source (pc_source_file concept) node
                 else node))
    | None =>
        if decide (pc_search_path concept = key)
        then Some (key, "concept", Some (pc_classification_path concept),
                   clock tick, [pc_source_file concept], [])
        else None
    end.
Proof.
  unfold add_concept.
  destruct (PyDict.dict_get (pc_search_path concept) (nodes graph))
    as [node0|] eqn:Hget.
  - match goal with
    | |- context [fold_left ?f (pc_relations concept) (?g1, ?t1)] =>
        destruct (add_relations_frame (pc_search_path concept)
                    (pc_source_file concept) (pc_relations concept) g1 t1)
          as [Hc _]
    end.
    rewrite <- Hc. cbn [nodes]. rewrite dict_get_update_node_sources.
    destruct (decide (pc_search_path concept = key)) as [<-|Hne].
    + by rewrite Hget.
    + by destruct (PyDict.dict_get key (nodes graph)).
  - match goal with
    | |- context [fold_left ?f (pc_relations concept) (?g1, ?t1)] =>
        destruct (add_relations_frame (pc_search_path concept)
                    (pc_source_file concept) (pc_relations concept) g1 t1)
          as [Hc _]
    end.
    rewrite <- Hc. cbn [nodes]. rewrite dict_get_snoc.
    destruct (decide (pc_search_path concept = key)) as [<-|Hne].
    + by rewrite Hget.
    + by destruct (PyDict.dict_get key (nodes graph)).
Qed.

Lemma add_concept_taxonomy graph tick concept :
  taxonomy_mappings (fst (add_concept clock (graph, tick) concept))
  = <[pc_search_path concept := pc_classification_path concept]>
      (taxonomy_mappings graph).
Proof.
  unfold add_concept.
  destruct (PyDict.dict_get (pc_search_path concept) (nodes graph));
    match goal with
    | |- context [fold_left ?f (pc_relations concept) (?g1, ?t1)] =>
        destruct (add_relations_frame (pc_search_path concept)
                    (pc_source_file concept) (pc_relations concept) g1 t1)
          as [_ Ht]
    end; by rewrite Ht.
Qed.

Lemma add_concept_keeps_node graph tick concept key node :
  PyDict.dict_get key (nodes graph) = Some node →
  ∃ node',
    PyDict.dict_get key (nodes (fst (add_concept clock (graph, tick) concept)))
      = Some node'
    ∧ n_id node' = n_id node
    ∧ n_classification_path node' = n_classification_path node
    ∧ n_created node' = n_created node
    ∧ n_sources node `prefix_of` n_sources node'
    ∧ (pc_search_path concept = key → pc_source_file concept ∈ n_sources node').
Proof.
  intros Hget.
  pose proof (add_concept_nodes graph tick concept key) as Hcore.
  rewrite Hget in Hcore.
  destruct (PyDict.dict_get key (nodes (fst (add_concept _ _ _))))
    as [node'|]; [|done].
  exists node'. split; [done|]. injection Hcore as Hid _ Hcp Hcr Hsrc _.
  rewrite Hid, Hcp, Hcr, Hsrc.
  destruct (decide (pc_search_path concept = key)) as [Hk|Hk]; simpl.
  - split_and!; [done..| |].
    + case_decide; [done|]. by apply prefix_app_r.
    + intros _. case_decide; [done|]. apply elem_of_app. right. constructor.
  - by split_and!.
Qed.

Lemma add_to_graph_cons c concepts st :
  add_to_graph clock (c :: concepts) st
  = add_to_graph clock concepts (add_concept clock st c).
Proof. done. Qed.

Lemma add_to_graph_keeps_node (concepts : list ParsedConcept)
    (graph : Graph) (tick : nat) (key : string) (node : Node) :
  PyDict.dict_get key (nodes graph) = Some node →
  ∃ node',
    PyDict.dict_get key
      (nodes (fst (add_to_graph clock concepts (graph, tick)))) = Some node'
    ∧ n_id node' = n_id node
    ∧ n_classification_path node' = n_classification_path node
    ∧ n_created node' = n_created node
    ∧ n_sources node `prefix_of` n_sources node'.
Proof.
  revert graph tick node.
  induction concepts as [|c concepts IH]; intros graph tick node Hget.
  { exists node. by split_and!. }
  rewrite add_to_graph_cons.
  destruct (add_concept_keeps_node graph tick c key node Hget)
    as (node1 & Hget1 & Hid & Hcp & Hcr & Hsrc & _).
  destruct (add_concept clock (graph, tick) c) as [g1 t1].
  destruct (IH g1 t1 node1 Hget1) as (node' & Hget' & Hid' & Hcp' & Hcr' & Hsrc').
  exists node'. split_and!; [done|congruence..|by etrans].
Qed.

(** [add_to_graph] never removes a node and never alters its id, its
    classification path or its creation time; its sources only grow. *)
Theorem add_to_graph_keeps_nodes (concepts : list ParsedConcept)
    (graph : Graph) (tick : nat) (key : string) (node : Node) :
  PyDict.dict_get key (nodes graph) = Some node →
  ∃ node',
    PyDict.dict_get key
      (nodes (fst (add_to_graph clock concepts (graph, tick)))) = Some node'
    ∧ n_id node' = n_id node
    ∧ n_classification_path node' = n_classification_path node
    ∧ n_created node' = n_created node
    ∧ n_sources node `prefix_of` n_sources node'.
Proof.
  revert graph tick node.
  induction concepts as [|c concepts IH]; intros graph tick node Hget.
  { exists node. by split_and!. }
  rewrite add_to_graph_cons.
  destruct (add_concept_keeps_node graph tick c key node Hget)
    as (node1 & Hget1 & Hid & Hcp & Hcr & Hsrc & _).
  destruct (add_concept clock (graph, tick) c) as [g1 t1].
  destruct (IH g1 t1 node1 Hget1)
    as (node' & Hget' & Hid' & Hcp' & Hcr' & Hsrc').
  exists node'. split_and!; [done|congruence..|by etrans].
Qed.

(** After [add_to_graph] every concept of the list has a node, and the node
    lists the source file of the concept. *)
Theorem add_to_graph_creates_nodes (concepts : list ParsedConcept)
    (graph : Graph) (tick : nat) (concept : ParsedConcept) :
  concept ∈ concepts →
  ∃ node',
    PyDict.dict_get (pc_search_path concept)
      (nodes (fst (add_to_graph clock concepts (graph, tick)))) = Some node'
    ∧ pc_source_file concept ∈ n_sources node'.
Proof.
  revert graph tick.
  induction concepts as [|c concepts IH]; intros graph tick Hin.
  { by apply elem_of_nil in Hin. }
  rewrite add_to_graph_cons. apply elem_of_cons in Hin as [->|Hin].
  - assert (∃ node1,
      PyDict.dict_get (pc_search_path c)
        (nodes (fst (add_concept clock (graph, tick) c))) = Some node1
      ∧ pc_source_file c ∈ n_sources node1) as (node1 & Hget1 & Hsrc1).
    { destruct (PyDict.dict_get (pc_search_path c) (nodes graph))
        as [node|] eqn:Hget.
      - destruct (add_concept_keeps_node graph tick c _ node Hget)
          as (node1 & Hget1 & _ & _ & _ & _ & Hsrc).
        exists node1. split; [done|]. by apply Hsrc.
      - pose proof (add_concept_nodes graph tick c (pc_search_path c))
          as Hcore.
        rewrite Hget, decide_True in Hcore by done.
        destruct (PyDict.dict_get _ (nodes (fst (add_concept _ _ _))))
          as [node1|]; [|done].
        exists node1. split; [done|]. injection Hcore as _ _ _ _ -> _.
        constructor. }
    destruct (add_concept clock (graph, tick) c) as [g1 t1].
    destruct (add_to_graph_keeps_node concepts g1 t1 _ node1 Hget1)
      as (node' & Hget' & _ & _ & _ & Hpre).
    exists node'. split; [done|].
    destruct Hpre as [k ->]. apply elem_of_app. by left.
  - destruct (add_concept clock (graph, tick) c) as [g1 t1]. by apply IH.
Qed.

(** The node of a concept keeps the classification path of the first
    concept that created it, while [taxonomy_mappings] holds that of the last
    concept with the same search path. *)
Theorem add_to_graph_first_node_last_mapping (concepts : list ParsedConcept)
    (graph : Graph) (tick : nat) (key : string) :
  taxonomy_mappings (fst (add_to_graph clock concepts (graph, tick))) !! key
  = match last (concepts_of key concepts) with
    | Some c => Some (pc_classification_path c)
    | None => taxonomy_mappings graph !! key
    end
  ∧ (PyDict.dict_get key (nodes graph) = None →
     ∀ c, head (concepts_of key concepts) = Some c →
          ∃ node',
            PyDict.dict_get key
              (nodes (fst (add_to_graph clock concepts (graph, tick))))
              = Some node'
            ∧ n_id node' = key
            ∧ n_classification_path node' = Some (pc_classification_path c)
            ∧ head (n_sources node') = Some (pc_source_file c)).
Proof.
  revert graph tick.
  induction concepts as [|c0 concepts IH]; intros graph tick; [done|].
  rewrite add_to_graph_cons.
  pose proof (add_concept_taxonomy graph tick c0) as Htax.
  pose proof (add_concept_nodes graph tick c0 key) as Hcore.
  destruct (add_concept clock (graph, tick) c0) as [g1 t1].
  destruct (IH g1 t1) as [IHtax IHnode]. simpl in Htax, Hcore.
  unfold concepts_of in *. rewrite filter_cons. split.
  - rewrite IHtax, Htax.
    destruct (decide (pc_search_path c0 = key)) as [Hk|Hk].
    + destruct (filter _ concepts) as [|c1 l] eqn:Hf; simpl.
      * subst key. apply lookup_insert_eq.
      * destruct (last_is_Some (c1 :: l)) as [_ [c' ->]]; done.
    + destruct (last (filter _ concepts)); [done|].
      by rewrite lookup_insert_ne.
  - intros Hnone c Hhead. rewrite Hnone in Hcore.
    destruct (decide (pc_search_path c0 = key)) as [Hk|Hk].
    + simpl in Hhead. injection Hhead as <-.
      destruct (PyDict.dict_get key (nodes g1)) as [node1|] eqn:Hget1;
        [|done].
      injection Hcore as Hid _ Hcp _ Hsrc _.
      destruct (add_to_graph_keeps_node concepts g1 t1 key node1 Hget1)
        as (node' & Hget' & Hid' & Hcp' & _ & Hpre).
      exists node'. split_and!; [done|congruence|congruence|].
      destruct Hpre as [k ->]. by rewrite Hsrc.
    + apply IHnode; [|done].
      by destruct (PyDict.dict_get key (nodes g1)).
Qed.

End AddToGraph.

Lemma add_to_graph_keeps_nodes_witness :
  ∃ node',
    PyDict.dict_get "bank"
      (nodes
         (fst (add_to_graph (λ _, "t")
                 [mkParsedConcept "bank" "other/bank" ["other/bank"]
                    [("is_a", Single "other")] "b.md"]
                 (mkGraph
                    [("bank", concept_node "bank" "institution/bank" [])]
                    [] ∅, 0))))
    = Some node'
    ∧ n_classification_path node' = Some "institution/bank".
Proof.
  destruct (add_to_graph_keeps_nodes (λ _, "t")
              [mkParsedConcept "bank" "other/bank" ["other/bank"]
                 [("is_a", Single "other")] "b.md"]
              (mkGraph [("bank", concept_node "bank" "institution/bank" [])]
                 [] ∅)
              0 "bank" (concept_node "bank" "institution/bank" []))
    as (node' & Hget & _ & Hcp & _).
  - reflexivity.
  - exists node'. split; [exact Hget|exact Hcp].
Defined.

Lemma add_to_graph_creates_nodes_witness :
  ∃ node',
    PyDict.dict_get "bank"
      (nodes
         (fst (add_to_graph (λ _, "t")
                 [mkParsedConcept "bank" "institution/bank"
                    ["institution/bank"] [("is_a", Single "institution")]
                    "a.md"]
                 (empty_graph, 0))))
    = Some node'
    ∧ "a.md" ∈ n_sources node'.
Proof.
  apply (add_to_graph_creates_nodes (λ _, "t")
           [mkParsedConcept "bank" "institution/bank" ["institution/bank"]
              [("is_a", Single "institution")] "a.md"]
           empty_graph 0
           (mkParsedConcept "bank" "institution/bank" ["institution/bank"]
              [("is_a", Single "institution")] "a.md")).
  constructor.
Defined.

Lemma add_to_graph_first_node_last_mapping_witness :
  ∃ node',
    PyDict.dict_get "x"
      (nodes
         (fst (add_to_graph (λ _, "t")
                 [mkParsedConcept "x" "a/b/x" ["a/b/x"] [] "a/b.md";
                  mkParsedConcept "x" "c/d/x" ["c/d/x"] [] "c/d.md"]
                 (empty_graph, 0))))
    = Some node'
    ∧ n_classification_path node' = Some "a/b/x"
    ∧ taxonomy_mappings
        (fst (add_to_graph (λ _, "t")
                [mkParsedConcept "x" "a/b/x" ["a/b/x"] [] "a/b.md";
                 mkParsedConcept "x" "c/d/x" ["c/d/x"] [] "c/d.md"]
                (empty_graph, 0))) !! "x"
      = Some "c/d/x".
Proof.
  destruct (add_to_graph_first_node_last_mapping (λ _, "t")
              [mkParsedConcept "x" "a/b/x" ["a/b/x"] [] "a/b.md";
               mkParsedConcept "x" "c/d/x" ["c/d/x"] [] "c/d.md"]
              empty_graph 0 "x") as [Htax Hnode].
  destruct (Hnode eq_refl (mkParsedConcept "x" "a/b/x" ["a/b/x"] [] "a/b.md")
              eq_refl) as (node' & Hget & _ & Hcp & _).
  exists node'. split; [exact Hget|]. split; [exact Hcp|].
  rewrite Htax. reflexivity.
Defined.

(** ** Path resolver, further *)

Section ResolverFurther.




Lemma split_char_snoc c s1 s2 :
  PyStr.count_char c s2 = 0 →
  PyStr.split_char c (s1 +:+ String c s2) = PyStr.split_char c s1 ++ [s2].
Proof.
  intros Hs2. induction s1 as [|a s1 IH]; simpl.
  - rewrite decide_True by done. by rewrite split_char_free_id.
  - case_decide; [by rewrite IH|].
    rewrite IH. destruct (PyStr.split_char c s1) eqn:Hs; [|done].
    by apply split_char_nonempty in Hs.
Qed.

Lemma concept_base_free name : slash_count (concept_base_of name) = 0.
Proof.
  unfold concept_base_of, PyStr.last_segment, slash_count.
  destruct (last (PyStr.split_char "/" name)) as [x|] eqn:Hlast; [|done].
  simpl. apply last_Some in Hlast as [l' Hl'].
  pose proof (split_char_free "/" name) as Hfree. rewrite Hl' in Hfree.
  apply Forall_app in Hfree as [_ Hfree]. by inversion Hfree.
Qed.

(** The classification path given to a newly resolved concept is made of the
    segments of one of its declared parents, a deepest one, followed by the
    local name of the concept: it lies exactly one level below that parent. *)
Theorem resolved_path_extends_primary (name x : string) (l : list string)
    (ctx : option string) (tax : Taxonomy) :
  search_to_classification tax !! name = None →
  ∃ primary,
    primary ∈ x :: l
    ∧ (∀ q, q ∈ x :: l → segment_count q ≤ segment_count primary)
    ∧ PyStr.split_char "/"
        (res_classification_path
           (resolve_reference name (Some (x :: l)) ctx tax))
      = PyStr.split_char "/" primary ++ [concept_base_of name].
Proof.
  intros Hnew.
  destruct (resolve_reference_new name x l ctx tax Hnew) as (p & Hp & Hr).
  destruct (head_sorted_by_depth _ _ Hp) as (i & Hi & Hmax & _).
  exists p. split_and!.
  - by eapply list_elem_of_lookup_2.
  - intros q Hq. rewrite !segment_count_slashes. specialize (Hmax q Hq). lia.
  - rewrite Hr. unfold res_classification_path. simpl.
    apply split_char_snoc, concept_base_free.
Qed.

End ResolverFurther.



Lemma resolved_path_extends_primary_witness :
  ∃ primary,
    primary ∈ ["cooperative"; "institution/financial"]
    ∧ PyStr.split_char "/"
        (res_classification_path
           (resolve_reference "credit_union/financial"
              (Some ["cooperative"; "institution/financial"]) None
              empty_taxonomy))
      = PyStr.split_char "/" primary ++ ["financial"].
Proof.
  destruct (resolved_path_extends_primary "credit_union/financial"
              "cooperative" ["institution/financial"] None empty_taxonomy)
    as (p & Hin & _ & Hsplit).
  - reflexivity.
  - exists p. split; [exact Hin|exact Hsplit].
Defined.

(** ** Query, further *)

Section QueryFurther.

Lemma ltb_false_leb a b : String.ltb a b = false → String.leb b a = true.
Proof.
  unfold String.ltb, String.leb. rewrite (String.compare_antisym b a).
  by destruct (String.compare a b).
Qed.

Lemma ltb_true_leb a b : String.ltb a b = true → String.leb a b = true.
Proof.
  unfold String.ltb, String.leb. by destruct (String.compare a b).
Qed.

Lemma key_lt_true y r :
  key_lt y r = true → key_before (rank_key y) (rank_key r).
Proof.
  unfold key_lt, key_before, rank_key. simpl.
  intros [H|[H1 H2]%andb_prop]%orb_prop.
  - left. by apply bool_decide_eq_true in H.
  - right. apply bool_decide_eq_true in H1. split; [done|].
    by apply ltb_true_leb.
Qed.

Lemma key_lt_false y r :
  key_lt y r = false → key_before (rank_key r) (rank_key y).
Proof.
  unfold key_lt, key_before, rank_key. simpl.
  intros [H1 H2]%orb_false_elim.
  apply bool_decide_eq_false in H1.
  destruct (decide (r_specificity y = r_specificity r)) as [Heq|Hne].
  - right. split; [done|]. apply ltb_false_leb.
    apply andb_false_iff in H2 as [H2|H2]; [|done].
    by apply bool_decide_eq_false in H2.
  - left. lia.
Qed.

Lemma insert_result_HdRel a r l :
  HdRel key_before a (rank_key <$> l) →
  key_before a (rank_key r) →
  HdRel key_before a (rank_key <$> insert_result r l).
Proof.
  intros Hl Hr. destruct l as [|y l]; simpl; [by constructor|].
  destruct (key_lt y r); simpl; constructor; [|done].
  by inversion Hl.
Qed.

Lemma insert_result_Sorted r l :
  Sorted key_before (rank_key <$> l) →
  Sorted key_before (rank_key <$> insert_result r l).
Proof.
  induction l as [|y l IH]; intros Hl; simpl.
  { repeat constructor. }
  inversion_clear Hl as [|?? Hs Hh].
  destruct (key_lt y r) eqn:Hlt; simpl.
  - constructor; [by apply IH|].
    apply insert_result_HdRel; [done|]. by apply key_lt_true.
  - constructor; [by constructor|]. constructor. by apply key_lt_false.
Qed.

Lemma sort_results_Sorted l : Sorted key_before (rank_key <$> sort_results l).
Proof.
  induction l as [|r l IH]; simpl; [constructor|].
  by apply insert_result_Sorted.
Qed.

Lemma attach_hierarchies_keys graph cache results :
  rank_key <$> fst (attach_hierarchies graph cache results)
  = rank_key <$> results.
Proof.
  revert cache. induction results as [|r results IH]; intros cache; simpl;
    [done|].
  destruct (get_parent_hierarchy graph cache _) as [h cache1].
  specialize (IH cache1).
  destruct (attach_hierarchies graph cache1 results) as [rest cache2].
  simpl in *. f_equal. apply IH.
Qed.

Lemma search_keys graph cache query include_hierarchy :
  rank_key <$> fst (search graph cache query include_hierarchy)
  = rank_key <$>
      sort_results
        (snd (fold_left (search_node (PyStr.lower query)) (nodes graph)
                (∅, []))).
Proof.
  unfold search. destruct include_hierarchy; [|done].
  apply attach_hierarchies_keys.
Qed.

Lemma Sorted_specificity (keys : list (nat * string)) i j a b :
  Sorted key_before keys → i ≤ j →
  keys !! i = Some a → keys !! j = Some b → fst b ≤ fst a.
Proof.
  intros Hs. revert i j a b.
  induction Hs as [|k keys Hs IH Hh]; intros i j a b Hij Hi Hj; [done|].
  destruct j as [|j].
  { assert (i = 0) as -> by lia. simpl in *. by simplify_eq. }
  destruct i as [|i]; simpl in *; [|apply (IH i j); [lia|done..]].
  injection Hi as <-.
  destruct keys as [|k' keys]; [done|].
  inversion_clear Hh as [|?? Hkk'].
  assert (fst b ≤ fst k') as Hb by (apply (IH 0 j); [lia|done..]).
  destruct Hkk' as [?|[? _]]; lia.
Qed.

(** The results come ranked: each one stands before the next in the order
    of the sort key (higher specificity first, at equal specificity the
    smaller truncated path first), and the specificity never increases along
    the list. *)
Theorem search_results_ranked (graph : Graph)
    (cache : gmap string (list string)) (query : string)
    (include_hierarchy : bool) :
  let results := fst (search graph cache query include_hierarchy) in
  Sorted key_before (rank_key <$> results)
  ∧ ∀ i j ri rj,
      i ≤ j → results !! i = Some ri → results !! j = Some rj →
      r_specificity rj ≤ r_specificity ri.
Proof.
  intros results.
  assert (Sorted key_before (rank_key <$> results)) as Hs.
  { subst results. rewrite search_keys. apply sort_results_Sorted. }
  split; [done|]. intros i j ri rj Hij Hi Hj.
  apply (Sorted_specificity (rank_key <$> results) i j (rank_key ri)
           (rank_key rj)); [done|done|..];
    by rewrite list_lookup_fmap, ?Hi, ?Hj.
Qed.

(** The state of the loop of [search]: the truncated paths of the results
    are exactly the paths seen, each once. *)
Lemma search_loop_NoDup query_lower items :
  let acc := fold_left (search_node query_lower) items (∅, []) in
  NoDup (r_classification_path <$> snd acc)
  ∧ ∀ path, path ∈ r_classification_path <$> snd acc → path ∈ fst acc.
Proof.
  induction items as [|[node_id node_data] items IH] using rev_ind.
  { simpl. split; [constructor|]. by intros ? ?%elem_of_nil. }
  rewrite fold_left_app. simpl fold_left.
  destruct (fold_left (search_node query_lower) items (∅, []))
    as [seen results].
  simpl in IH. destruct IH as [Hnd Hin]. unfold search_node.
  destruct (match_index_of query_lower node_id _) as [mi|]; [|done].
  case_decide as Hseen; [done|]. simpl. rewrite fmap_app. split.
  - apply NoDup_app. split_and!; [done| |apply NoDup_singleton].
    intros path Hp ->%list_elem_of_singleton. by apply Hseen, Hin.
  - intros path [Hp| ->%list_elem_of_singleton]%elem_of_app.
    + apply elem_of_union. right. by apply Hin.
    + apply elem_of_union. left. by apply elem_of_singleton.
Qed.

(** No two results have the same truncated path. *)
Theorem search_results_distinct (graph : Graph)
    (cache : gmap string (list string)) (query : string)
    (include_hierarchy : bool) :
  NoDup (r_classification_path <$>
           fst (search graph cache query include_hierarchy)).
Proof.
  assert (r_classification_path <$>
            fst (search graph cache query include_hierarchy)
          = snd <$> (rank_key <$>
                       fst (search graph cache query include_hierarchy)))
    as -> by (by rewrite <- list_fmap_compose).
  rewrite search_keys, <- list_fmap_compose.
  change (snd ∘ rank_key) with r_classification_path.
  rewrite (sort_results_perm _).
  apply (search_loop_NoDup (PyStr.lower query) (nodes graph)).
Qed.


(** The empty query matches the first segment of every classification
    path: every result has specificity 1 and is truncated to one segment, and
    there is a result as soon as the graph has a node. *)
Theorem search_empty_query (graph : Graph)
    (cache : gmap string (list string)) (include_hierarchy : bool) :
  let results := fst (search graph cache "" include_hierarchy) in
  (∀ r, r ∈ results →
        r_specificity r = 1
        ∧ head (PyStr.split_char "/" (r_full_classification_path r))
          = Some (r_classification_path r))
  ∧ (nodes graph ≠ [] → results ≠ []).
Proof.
  intros results.
  assert (Hfirst : ∀ node_id s,
    match_index_of "" node_id (PyStr.split_char "/" s) = Some 0).
  { intros node_id s. unfold match_index_of.
    destruct (PyStr.split_char "/" s) as [|x parts] eqn:Hs;
      [by apply split_char_nonempty in Hs|].
    rewrite first_match_here; [done|].
    unfold segment_matches. by destruct (PyStr.lower x). }
  split.
  - intros r Hr. apply search_matched in Hr
      as (id & nd & mi & _ & Hmi & _ & Hfull & Hp & Hs).
    change (PyStr.lower "") with "" in Hmi. rewrite Hfirst in Hmi.
    injection Hmi as <-. split; [done|]. rewrite Hfull, Hp.
    destruct (PyStr.split_char "/" (classification_path_of id nd)) eqn:Hsp;
      [by apply split_char_nonempty in Hsp|done].
  - intros Hnodes Hempty.
    destruct (nodes graph) as [|[id nd] l] eqn:Hl; [done|].
    destruct (search_covers graph cache "" include_hierarchy id nd 0)
      as (r & Hr & _).
    + rewrite Hl. constructor.
    + change (PyStr.lower "") with "". apply Hfirst.
    + unfold results in Hempty. rewrite Hempty in Hr.
      by apply elem_of_nil in Hr.
Qed.

End QueryFurther.

(** ** Ancestor hierarchy, further *)

Section HierarchyFurther.

(** Joining the segments of a split gives the string back. *)
Lemma join_split_char s : PyStr.join "/" (PyStr.split_char "/" s) = s.
Proof.
  induction s as [|a s IH]; [done|]. simpl PyStr.split_char.
  destruct (PyStr.split_char "/" s) as [|h t] eqn:Hs;
    [by apply split_char_nonempty in Hs|].
  case_decide as Ha.
  - subst a. change (PyStr.join "/" ("" :: h :: t))
      with ("" +:+ "/" +:+ PyStr.join "/" (h :: t)).
    by rewrite IH.
  - transitivity (String a (PyStr.join "/" (h :: t)));
      [by destruct t|by rewrite IH].
Qed.

Lemma string_length_app a b :
  String.length (a +:+ b) = String.length a + String.length b.
Proof. induction a as [|c a IH]; simpl; [done|]. by rewrite IH. Qed.

Lemma string_app_assoc a b c : (a +:+ b) +:+ c = a +:+ (b +:+ c).
Proof.
  induction a as [|x a IH]; [done|].
  change (String x ((a +:+ b) +:+ c) = String x (a +:+ b +:+ c)).
  by rewrite IH.
Qed.

Lemma join_snoc sep l x :
  l ≠ [] → PyStr.join sep (l ++ [x]) = PyStr.join sep l +:+ sep +:+ x.
Proof.
  induction l as [|y l IH]; [done|]. intros _.
  destruct l as [|z l]; [done|].
  change (PyStr.join sep ((y :: z :: l) ++ [x]))
    with (y +:+ sep +:+ PyStr.join sep ((z :: l) ++ [x])).
  rewrite IH by done.
  change (PyStr.join sep (y :: z :: l))
    with (y +:+ sep +:+ PyStr.join sep (z :: l)).
  by rewrite !string_app_assoc.
Qed.

(** A longer prefix of a path is a longer string. *)
Lemma path_prefix_longer path k :
  1 ≤ k → k < segment_count path →
  String.length (path_prefix path k) < String.length (path_prefix path (S k)).
Proof.
  unfold path_prefix, segment_count. intros Hk Hlt.
  destruct (lookup_lt_is_Some_2 (PyStr.split_char "/" path) k Hlt) as [x Hx].
  rewrite (take_S_r _ _ _ Hx), join_snoc.
  - rewrite !string_length_app. simpl. lia.
  - intros Hnil. apply (f_equal length) in Hnil.
    rewrite length_take in Hnil. simpl in Hnil. lia.
Qed.

Lemma path_prefix_full path : path_prefix path (segment_count path) = path.
Proof.
  unfold path_prefix, segment_count. rewrite take_ge by done.
  apply join_split_char.
Qed.

Lemma fallback_fold path k hierarchy (visited : gset string) :
  k < segment_count path →
  (1 ≤ k → ∀ x, x ∈ visited →
     String.length (path_prefix path k) < String.length x) →
  fst (fold_left
         (λ '(hierarchy, visited) i,
            let parent_path :=
              PyStr.join "/" (take i (PyStr.split_char "/" path)) in
            if decide (parent_path ∈ visited) then (hierarchy, visited)
            else (hierarchy ++ [parent_path], {[parent_path]} ∪ visited))
         (reverse (seq 1 k)) (hierarchy, visited))
  = hierarchy ++ (path_prefix path <$> reverse (seq 1 k)).
Proof.
  revert hierarchy visited.
  induction k as [|k IH]; intros hierarchy visited Hlt Hlong.
  { simpl. by rewrite app_nil_r. }
  rewrite seq_S, reverse_app. simpl reverse. simpl fold_left.
  fold (path_prefix path (S k)).
  rewrite decide_False.
  2:{ intros Hin. specialize (Hlong ltac:(lia) _ Hin). lia. }
  rewrite IH; [by rewrite <- app_assoc|lia|].
  intros Hk x [->%elem_of_singleton|Hx]%elem_of_union.
  - apply path_prefix_longer; lia.
  - specialize (Hlong ltac:(lia) x Hx).
    pose proof (path_prefix_longer path k Hk ltac:(lia)). lia.
Qed.

(** When no node has the classification path asked for, the answer is the
    lexical fallback: the path, then each of its proper prefixes from the
    longest to the first segment, so as many entries as the path has segments
    (the hop cap does not apply); the cache is left as it is. *)
Theorem hierarchy_of_unknown_path (graph : Graph)
    (cache : gmap string (list string)) (path : string) :
  cache !! path = None →
  find_search_path (nodes graph) path = None →
  get_parent_hierarchy graph cache path
  = (path_prefix path <$> reverse (seq 1 (segment_count path)), cache)
  ∧ length (fst (get_parent_hierarchy graph cache path))
    = segment_count path.
Proof.
  intros Hc Hf.
  assert (get_parent_hierarchy graph cache path
          = (path_prefix path <$> reverse (seq 1 (segment_count path)),
             cache)) as ->.
  { unfold get_parent_hierarchy. rewrite Hc, Hf. f_equal.
    unfold fallback_hierarchy. fold (segment_count path).
    pose proof (length_split_char "/" path) as Hlen.
    fold (segment_count path) in Hlen.
    rewrite fallback_fold.
    - replace (segment_count path) with (S (segment_count path - 1))
        at 2 by lia.
      rewrite seq_S, reverse_app. simpl.
      replace (S (segment_count path - 1)) with (segment_count path) by lia.
      by rewrite path_prefix_full.
    - lia.
    - intros Hk x ->%elem_of_singleton.
      pose proof (path_prefix_longer path (segment_count path - 1) Hk
                    ltac:(lia)) as Hl.
      replace (S (segment_count path - 1)) with (segment_count path)
        in Hl by lia.
      by rewrite path_prefix_full in Hl. }
  split; [done|]. simpl.
  by rewrite length_fmap, length_reverse, length_seq.
Qed.

Lemma hierarchy_of_unknown_path_witness :
  get_parent_hierarchy chain12 ∅ "a/b/c/d/e/f/g/h/i/j/k/l/m"
  = (path_prefix "a/b/c/d/e/f/g/h/i/j/k/l/m" <$> reverse (seq 1 13), ∅)
  ∧ length (fst (get_parent_hierarchy chain12 ∅ "a/b/c/d/e/f/g/h/i/j/k/l/m"))
    = 13.
Proof.
  apply (hierarchy_of_unknown_path chain12 ∅ "a/b/c/d/e/f/g/h/i/j/k/l/m").
  - reflexivity.
  - reflexivity.
Defined.

(** A cached answer is returned again unchanged, and no query replaces it. *)
Theorem hierarchy_cache_stable (graph : Graph)
    (cache : gmap string (list string)) (path other : string) :
  let r := get_parent_hierarchy graph cache path in
  get_parent_hierarchy graph (snd r) path = r
  ∧ ∀ cached, cache !! path = Some cached →
      snd (get_parent_hierarchy graph cache other) !! path = Some cached.
Proof.
  intros r. subst r. split.
  - unfold get_parent_hierarchy.
    destruct (cache !! path) as [cached|] eqn:Hc; cbn [snd].
    { by rewrite Hc. }
    destruct (find_search_path (nodes graph) path) as [[|c rest]|] eqn:Hf;
      cbn [snd]; rewrite ?Hc, ?Hf, ?lookup_insert_eq; done.
  - intros cached Hc. unfold get_parent_hierarchy.
    destruct (cache !! other) as [?|] eqn:Ho; [done|].
    destruct (find_search_path (nodes graph) other) as [[|c rest]|];
      cbn [snd]; [done| |done].
    rewrite lookup_insert_ne; [done|]. congruence.
Qed.

Lemma traverse_is_a_NoDup hops nodes current hierarchy (visited : gset string) :
  NoDup hierarchy → (∀ x, x ∈ hierarchy → x ∈ visited) →
  NoDup (traverse_is_a hops nodes current hierarchy visited).
Proof.
  revert current hierarchy visited.
  induction hops as [|hops IH]; intros current hierarchy visited Hnd Hsub;
    simpl; [done|].
  case_decide; [done|].
  destruct (is_a_targets_of _) as [|target ?]; [done|].
  case_decide as Hv; [by apply IH|].
  apply IH.
  - apply NoDup_app. split_and!; [done| |apply NoDup_singleton].
    intros x Hx ->%list_elem_of_singleton. by apply Hv, Hsub.
  - intros x [Hx| ->%list_elem_of_singleton]%elem_of_app.
    + apply elem_of_union. right. by apply Hsub.
    + apply elem_of_union. left. by apply elem_of_singleton.
Qed.

Lemma hierarchy_of_unknown_path_cases path :
  head (fallback_hierarchy path) = Some path
  ∧ NoDup (fallback_hierarchy path).
Proof.
  unfold fallback_hierarchy.
  assert (Hgen : ∀ (idxs : list nat) hierarchy (visited : gset string),
    head hierarchy = Some path → NoDup hierarchy →
    (∀ x, x ∈ hierarchy → x ∈ visited) →
    let h' :=
      fst (fold_left
             (λ '(hierarchy, visited) i,
                let parent_path :=
                  PyStr.join "/" (take i (PyStr.split_char "/" path)) in
                if decide (parent_path ∈ visited) then (hierarchy, visited)
                else (hierarchy ++ [parent_path], {[parent_path]} ∪ visited))
             idxs (hierarchy, visited)) in
    head h' = Some path ∧ NoDup h').
  { induction idxs as [|i idxs IH]; intros hierarchy visited Hh Hnd Hsub;
      [done|].
    simpl fold_left. case_decide as Hv; [by apply IH|].
    apply IH.
    - by destruct hierarchy.
    - apply NoDup_app. split_and!; [done| |apply NoDup_singleton].
      intros x Hx ->%list_elem_of_singleton. by apply Hv, Hsub.
    - intros x [Hx| ->%list_elem_of_singleton]%elem_of_app.
      + apply elem_of_union. right. by apply Hsub.
      + apply elem_of_union. left. by apply elem_of_singleton. }
  apply Hgen; [done|apply NoDup_singleton|].
  intros x ->%list_elem_of_singleton. by apply elem_of_singleton.
Qed.

(** Whatever the graph, cycles and shared classification paths included,
    the list of a query on a fresh cache starts with the path asked for and
    lists no path twice. *)
Theorem hierarchy_starts_at_path_without_repeats (graph : Graph)
    (path : string) :
  head (fst (get_parent_hierarchy graph ∅ path)) = Some path
  ∧ NoDup (fst (get_parent_hierarchy graph ∅ path)).
Proof.
  unfold get_parent_hierarchy. rewrite lookup_empty.
  destruct (find_search_path (nodes graph) path) as [[|c rest]|] eqn:Hf;
    cbn [fst].
  - destruct (hierarchy_of_unknown_path_cases path) as [Hh Hnd]. done.
  - split.
    + destruct (traverse_is_a_extends max_depth (nodes graph)
                  (String c rest) [path] {[path]}) as (anc & -> & _). done.
    + apply traverse_is_a_NoDup; [apply NoDup_singleton|].
      intros x ->%list_elem_of_singleton. by apply elem_of_singleton.
  - destruct (hierarchy_of_unknown_path_cases path) as [Hh Hnd]. done.
Qed.

End HierarchyFurther.

(** ** Index construction, further *)

Section IndexFurther.



End IndexFurther.

(** ** Relation arrays *)

Section RelationArrays.

Lemma string_app_nil_r s : s +:+ "" = s.
Proof.
  induction s as [|a s IH]; [done|].
  change (String a (s +:+ "") = String a s). by rewrite IH.
Qed.

Lemma string_app_cons s a t : (s +:+ String a "") +:+ t = s +:+ String a t.
Proof. by rewrite string_app_assoc. Qed.

Lemma free_of_app P s t : free_of P (s +:+ t) ↔ free_of P s ∧ free_of P t.
Proof.
  induction s as [|a s IH]; [simpl; tauto|].
  change (P a = false ∧ free_of P (s +:+ t)
          ↔ (P a = false ∧ free_of P s) ∧ free_of P t). tauto.
Qed.

Lemma free_of_lstrip P s : free_of P s → free_of P (PyStr.lstrip s).
Proof.
  induction s as [|a s IH]; [done|]. intros [Ha Hs]. simpl.
  destruct (PyStr.is_space a); [by apply IH|done].
Qed.

Lemma free_of_rstrip P s : free_of P s → free_of P (PyStr.rstrip s).
Proof.
  induction s as [|a s IH]; [done|]. intros [Ha Hs]. simpl.
  specialize (IH Hs). destruct (PyStr.rstrip s) as [|b r].
  - by destruct (PyStr.is_space a).
  - done.
Qed.

Lemma free_of_strip P s : free_of P s → free_of P (PyStr.strip s).
Proof. intros H. by apply free_of_rstrip, free_of_lstrip. Qed.

Lemma rstrip_idemp s : PyStr.rstrip (PyStr.rstrip s) = PyStr.rstrip s.
Proof.
  induction s as [|a s IH]; [done|]. simpl.
  destruct (PyStr.rstrip s) as [|b r] eqn:Hr.
  - destruct (PyStr.is_space a) eqn:Ha; [done|]. simpl. by rewrite Ha.
  - change (PyStr.rstrip (String a (String b r)))
      with (match PyStr.rstrip (String b r) with
            | EmptyString =>
                if PyStr.is_space a then EmptyString else String a EmptyString
            | String b' r' => String a (String b' r')
            end).
    by rewrite IH.
Qed.

Lemma rstrip_head a s :
  PyStr.is_space a = false →
  ∃ r, PyStr.rstrip (String a s) = String a r.
Proof.
  intros Ha. simpl. destruct (PyStr.rstrip s) as [|b r].
  - rewrite Ha. by eexists.
  - by eexists.
Qed.

Lemma lstrip_cases s :
  PyStr.lstrip s = ""
  ∨ ∃ a t, PyStr.lstrip s = String a t ∧ PyStr.is_space a = false.
Proof.
  induction s as [|a s IH]; [by left|]. simpl.
  destruct (PyStr.is_space a) eqn:Ha; [done|]. right. by exists a, s.
Qed.

Lemma strip_idemp s : PyStr.strip (PyStr.strip s) = PyStr.strip s.
Proof.
  unfold PyStr.strip.
  destruct (lstrip_cases s) as [->|(a & t & -> & Ha)]; [done|].
  destruct (rstrip_head a t Ha) as [r Hr]. rewrite Hr.
  assert (PyStr.lstrip (String a r) = String a r) as ->
    by (simpl; by rewrite Ha).
  by rewrite <- Hr, rstrip_idemp.
Qed.

Lemma rstrip_snoc s q :
  PyStr.is_space q = false →
  PyStr.rstrip (s +:+ String q "") = s +:+ String q "".
Proof.
  intros Hq. induction s as [|a s IH]; [simpl; by rewrite Hq|].
  change (PyStr.rstrip (String a (s +:+ String q ""))
          = String a (s +:+ String q "")).
  simpl. rewrite IH. by destruct s.
Qed.

Lemma strip_quoted q body :
  PyStr.is_space q = false →
  PyStr.strip (String q (body +:+ String q ""))
  = String q (body +:+ String q "").
Proof.
  intros Hq. unfold PyStr.strip. simpl PyStr.lstrip. rewrite Hq.
  by apply (rstrip_snoc (String q body)).
Qed.

Lemma drop_chars_app s t :
  PyStr.drop_chars (String.length s) (s +:+ t) = t.
Proof. induction s as [|a s IH]; [by destruct t|done]. Qed.

Lemma substring_app s t : String.substring 0 (String.length s) (s +:+ t) = s.
Proof.
  induction s as [|a s IH]; [by destruct t|].
  change (String a (String.substring 0 (String.length s) (s +:+ t))
          = String a s). by rewrite IH.
Qed.

Lemma endswith_snoc s q : PyStr.endswith (String q "") (s +:+ String q "") = true.
Proof.
  unfold PyStr.endswith. rewrite string_length_app. simpl String.length.
  apply andb_true_iff. split; [apply Nat.leb_le; lia|].
  apply bool_decide_eq_true.
  replace (String.length s + 1 - 1) with (String.length s) by lia.
  apply drop_chars_app.
Qed.

Lemma slice_quoted q body :
  PyStr.slice 1 1 (String q (body +:+ String q "")) = body.
Proof.
  unfold PyStr.slice. simpl String.length. rewrite string_length_app.
  simpl String.length.
  replace (S (String.length body + 1) - 1 - 1) with (String.length body)
    by lia.
  apply substring_app.
Qed.

Lemma startswith_other c p a t :
  c ≠ a → PyStr.startswith (String c p) (String a t) = false.
Proof.
  intros Hne. unfold PyStr.startswith. cbn [String.prefix].
  by destruct (ascii_dec c a).
Qed.

Lemma startswith_head a t : PyStr.startswith (String a "") (String a t) = true.
Proof.
  unfold PyStr.startswith. cbn [String.prefix].
  destruct (ascii_dec a a); [by destruct t|done].
Qed.

(** [_clean_value] takes the quotes off a quoted string. *)
Lemma clean_value_quoted q body :
  q = dquote ∨ q = squote →
  _clean_value (String q (body +:+ String q "")) = body.
Proof.
  intros Hq. unfold _clean_value.
  assert (PyStr.is_space q = false) as Hsp by (by destruct Hq as [->| ->]).
  rewrite (strip_quoted q body Hsp).
  rewrite (startswith_other "[" "[" q) by (by destruct Hq as [->| ->]).
  cbn [andb].
  pose proof (endswith_snoc (String q body) q) as Hend.
  change (String q body +:+ String q "")
    with (String q (body +:+ String q "")) in Hend.
  destruct Hq as [->| ->].
  - rewrite Hend, startswith_head. cbn [andb orb]. apply slice_quoted.
  - rewrite Hend, startswith_head. rewrite orb_true_r. apply slice_quoted.
Qed.

(** [_clean_value] leaves a trimmed string without quotes and brackets as it
    is. *)
Lemma clean_value_plain s :
  free_of is_quote_or_bracket s →
  _clean_value (PyStr.strip s) = PyStr.strip s.
Proof.
  intros Hfree. unfold _clean_value. rewrite strip_idemp.
  apply (free_of_strip _ _) in Hfree.
  destruct (PyStr.strip s) as [|a t]; [done|]. destruct Hfree as [Ha _].
  unfold is_quote_or_bracket in Ha. apply bool_decide_eq_false in Ha.
  rewrite (startswith_other "[" "[" a) by (intros <-; tauto).
  rewrite (startswith_other dquote "" a) by (intros <-; tauto).
  rewrite (startswith_other squote "" a) by (intros <-; tauto).
  done.
Qed.

Lemma parse_array_loop_app a b st :
  parse_array_loop (a +:+ b) st = parse_array_loop b (parse_array_loop a st).
Proof.
  revert st. induction a as [|c a IH]; intros st; [done|].
  change (parse_array_loop (a +:+ b) (parse_array_step st c)
          = parse_array_loop b (parse_array_loop a (parse_array_step st c))).
  apply IH.
Qed.

(** Outside quotes and brackets: a comma closes the current item, any other
    character that is neither a quote nor a bracket joins it. *)
Lemma parse_array_step_comma items current quote_char :
  parse_array_step (mkArrayState items current false quote_char 0) ","
  = mkArrayState (append_item items current) "" false quote_char 0.
Proof. unfold parse_array_step. by rewrite andb_false_r. Qed.

Lemma parse_array_step_plain items current quote_char c :
  is_quote_or_bracket c = false → c ≠ ","%char →
  parse_array_step (mkArrayState items current false quote_char 0) c
  = mkArrayState items (current +:+ String c "") false quote_char 0.
Proof.
  intros Hc Hcomma. unfold is_quote_or_bracket in Hc.
  apply bool_decide_eq_false in Hc. unfold parse_array_step.
  rewrite (bool_decide_eq_false_2 (c = dquote ∨ c = squote)) by tauto.
  rewrite andb_false_r.
  rewrite (bool_decide_eq_false_2 (c = "["%char)) by tauto.
  rewrite (bool_decide_eq_false_2 (c = "]"%char)) by tauto.
  by rewrite (bool_decide_eq_false_2 (c = ","%char)).
Qed.

Lemma parse_array_loop_plain text :
  free_of is_quote_or_bracket text →
  ∀ items current quote_char,
    let st := parse_array_loop text
                (mkArrayState items current false quote_char 0) in
    append_item (pa_items st) (pa_current st)
    = match PyStr.split_char "," text with
      | h :: t => fold_left append_item ((current +:+ h) :: t) items
      | [] => items
      end.
Proof.
  induction text as [|c text IH]; intros Hfree items current quote_char.
  { simpl. by rewrite string_app_nil_r. }
  destruct Hfree as [Hc Hfree]. specialize (IH Hfree).
  cbn [parse_array_loop]. cbn zeta.
  destruct (decide (c = ","%char)) as [->|Hne].
  - rewrite parse_array_step_comma. rewrite IH.
    change (PyStr.split_char "," (String "," text))
      with (EmptyString :: PyStr.split_char "," text).
    cbn [fold_left]. rewrite string_app_nil_r.
    by destruct (PyStr.split_char "," text).
  - rewrite parse_array_step_plain by done. rewrite IH.
    assert (PyStr.split_char "," (String c text)
            = match PyStr.split_char "," text with
              | [] => [String c ""]
              | h :: t => String c h :: t
              end) as -> by (simpl; by rewrite decide_False).
    destruct (PyStr.split_char "," text) as [|h t] eqn:Hs;
      [by apply split_char_nonempty in Hs|].
    by rewrite string_app_cons.
Qed.

Lemma free_of_split_char P c s :
  free_of P s → Forall (free_of P) (PyStr.split_char c s).
Proof.
  induction s as [|a s IH]; [by repeat constructor|]. intros [Ha Hs].
  specialize (IH Hs). simpl. case_decide.
  - by constructor.
  - destruct (PyStr.split_char c s) as [|h t]; [by repeat constructor|].
    inversion_clear IH. by constructor.
Qed.

Lemma fold_append_item_plain parts items :
  Forall (free_of is_quote_or_bracket) parts →
  fold_left append_item parts items
  = items ++ filter (λ s, s ≠ "") (PyStr.strip <$> parts).
Proof.
  revert items. induction parts as [|p parts IH]; intros items Hall.
  { by rewrite app_nil_r. }
  inversion_clear Hall as [|?? Hp Hparts]. cbn [fold_left fmap list_fmap].
  rewrite IH by done. unfold append_item. rewrite filter_cons.
  destruct (decide (PyStr.strip p = "")) as [He|Hne].
  - by rewrite decide_False by (by intros ?).
  - rewrite decide_True by done. rewrite clean_value_plain by done.
    by rewrite <- app_assoc.
Qed.

(** A text without quotes and brackets is split at its commas; the pieces
    are trimmed and the blank ones dropped. *)
Theorem parse_array_plain_list (text : string) :
  free_of is_quote_or_bracket text →
  _parse_array text
  = filter (λ s, s ≠ "") (PyStr.strip <$> PyStr.split_char "," text).
Proof.
  intros Hfree. unfold _parse_array, parse_array_start.
  rewrite (parse_array_loop_plain text Hfree [] "" None).
  destruct (PyStr.split_char "," text) as [|h t] eqn:Hs;
    [by apply split_char_nonempty in Hs|].
  change ("" +:+ h) with h. rewrite <- Hs.
  by rewrite fold_append_item_plain by (by apply free_of_split_char).
Qed.

Lemma append_item_app L items current :
  append_item (L ++ items) current = L ++ append_item items current.
Proof. unfold append_item. case_decide; [done|]. by rewrite app_assoc. Qed.

(** Two runs that differ by items already collected, and by the quote
    character remembered outside a quote, go on alike. *)
Lemma parse_array_step_shift L st st' c :
  pa_items st' = L ++ pa_items st →
  pa_current st' = pa_current st →
  pa_in_quote st' = pa_in_quote st →
  pa_bracket_depth st' = pa_bracket_depth st →
  (pa_in_quote st = true → pa_quote_char st' = pa_quote_char st) →
  let s := parse_array_step st c in
  let s' := parse_array_step st' c in
  pa_items s' = L ++ pa_items s
  ∧ pa_current s' = pa_current s
  ∧ pa_in_quote s' = pa_in_quote s
  ∧ pa_bracket_depth s' = pa_bracket_depth s
  ∧ (pa_in_quote s = true → pa_quote_char s' = pa_quote_char s).
Proof.
  destruct st as [items current in_quote quote_char depth].
  destruct st' as [items' current' in_quote' quote_char' depth'].
  cbn [pa_items pa_current pa_in_quote pa_bracket_depth pa_quote_char].
  intros -> -> -> -> Hq. cbn zeta. unfold parse_array_step.
  destruct in_quote.
  - rewrite Hq by done. rewrite !andb_false_r, !andb_true_r. cbn [andb].
    destruct (bool_decide (Some c = quote_char)); simpl; by split_and!.
  - rewrite !andb_false_r, !andb_true_r.
    destruct (bool_decide (c = dquote ∨ c = squote)); [simpl; by split_and!|].
    destruct (bool_decide (c = "["%char)); [simpl; by split_and!|].
    destruct (bool_decide (c = "]"%char)); [simpl; by split_and!|].
    destruct (bool_decide (c = ","%char)); [|simpl; by split_and!].
    destruct (bool_decide (depth = 0%Z)); simpl; [|by split_and!].
    split_and!; [|done..]. apply append_item_app.
Qed.

Lemma parse_array_loop_shift L text st st' :
  pa_items st' = L ++ pa_items st →
  pa_current st' = pa_current st →
  pa_in_quote st' = pa_in_quote st →
  pa_bracket_depth st' = pa_bracket_depth st →
  (pa_in_quote st = true → pa_quote_char st' = pa_quote_char st) →
  pa_items (parse_array_loop text st') = L ++ pa_items (parse_array_loop text st)
  ∧ pa_current (parse_array_loop text st')
    = pa_current (parse_array_loop text st).
Proof.
  revert st st'. induction text as [|c text IH]; intros st st' Hi Hc Hq Hd Hqc.
  { done. }
  destruct (parse_array_step_shift L st st' c Hi Hc Hq Hd Hqc)
    as (Hi' & Hc' & Hq' & Hd' & Hqc').
  by apply IH.
Qed.

(** A comma met outside quotes and brackets cuts the text in two parts that
    are read independently of each other. *)
Theorem parse_array_cut_at_comma (before after : string) :
  closed before →
  _parse_array (before +:+ String "," after)
  = _parse_array before ++ _parse_array after.
Proof.
  intros [Hq Hd]. unfold _parse_array.
  rewrite parse_array_loop_app. cbn [parse_array_loop].
  destruct (parse_array_loop before parse_array_start)
    as [items current in_quote quote_char depth] eqn:Hrun.
  cbn [pa_in_quote pa_bracket_depth pa_items pa_current] in *. subst.
  rewrite parse_array_step_comma.
  destruct (parse_array_loop_shift (append_item items current) after
              parse_array_start
              (mkArrayState (append_item items current) "" false quote_char 0))
    as [Hi Hc]; [by rewrite app_nil_r|done..|].
  rewrite Hi, Hc. apply append_item_app.
Qed.

Lemma parse_array_loop_in_quote q body items current depth :
  (q = dquote ∨ q = squote) →
  free_of (λ a, bool_decide (a = q)) body →
  parse_array_loop body (mkArrayState items current true (Some q) depth)
  = mkArrayState items (current +:+ body) true (Some q) depth.
Proof.
  intros Hq. revert current.
  induction body as [|c body IH]; intros current Hfree.
  { by rewrite string_app_nil_r. }
  destruct Hfree as [Hc Hfree]. apply bool_decide_eq_false in Hc.
  cbn [parse_array_loop].
  assert (parse_array_step (mkArrayState items current true (Some q) depth) c
          = mkArrayState items (current +:+ String c "") true (Some q) depth)
    as ->.
  { unfold parse_array_step. rewrite !andb_false_r, andb_true_r.
    rewrite bool_decide_eq_false_2; [done|]. by intros [= ->]. }
  rewrite IH by done. by rewrite string_app_cons.
Qed.

Lemma parse_array_loop_quoted q body :
  (q = dquote ∨ q = squote) →
  free_of (λ a, bool_decide (a = q)) body →
  parse_array_loop (String q (body +:+ String q "")) parse_array_start
  = mkArrayState [] (String q (body +:+ String q "")) false (Some q) 0.
Proof.
  intros Hq Hfree. cbn [parse_array_loop].
  assert (parse_array_step parse_array_start q
          = mkArrayState [] (String q "") true (Some q) 0) as ->.
  { unfold parse_array_step, parse_array_start.
    by rewrite bool_decide_eq_true_2. }
  rewrite parse_array_loop_app, parse_array_loop_in_quote by done.
  cbn [parse_array_loop]. unfold parse_array_step.
  rewrite andb_false_r, andb_true_r. by rewrite bool_decide_eq_true_2.
Qed.

(** A quoted item is kept whole, commas and brackets included, and comes
    out without its quotes; a comma after the closing quote starts the next
    item. *)
Theorem parse_array_quoted_item (q : ascii) (body after : string) :
  q = dquote ∨ q = squote →
  free_of (λ a, bool_decide (a = q)) body →
  _parse_array (String q (body +:+ String q "")) = [body]
  ∧ _parse_array (String q (body +:+ String q "") +:+ String "," after)
    = body :: _parse_array after.
Proof.
  intros Hq Hfree.
  assert (_parse_array (String q (body +:+ String q "")) = [body]) as Hone.
  { unfold _parse_array. rewrite parse_array_loop_quoted by done.
    cbn [pa_items pa_current]. unfold append_item.
    assert (PyStr.is_space q = false) as Hsp by (by destruct Hq as [->| ->]).
    rewrite strip_quoted by done. rewrite decide_False by done.
    rewrite <- (strip_quoted q body Hsp) at 1.
    rewrite <- (clean_value_quoted q body Hq) at 2. unfold _clean_value.
    by rewrite strip_idemp. }
  split; [done|].
  unfold _parse_array at 1.
  rewrite parse_array_loop_app, parse_array_loop_quoted by done.
  cbn [parse_array_loop]. rewrite parse_array_step_comma.
  destruct (parse_array_loop_shift
              (append_item [] (String q (body +:+ String q ""))) after
              parse_array_start
              (mkArrayState
                 (append_item [] (String q (body +:+ String q ""))) ""
                 false (Some q) 0))
    as [Hi Hc]; [by rewrite app_nil_r|done..|].
  rewrite Hi, Hc.
  assert (append_item [] (String q (body +:+ String q "")) = [body]) as ->.
  { unfold _parse_array in Hone.
    by rewrite parse_array_loop_quoted in Hone by done. }
  apply (append_item_app [body]).
Qed.

End RelationArrays.

Lemma parse_array_plain_list_witness :
  _parse_array "institution/financial , cooperative/business,, bank"
  = ["institution/financial"; "cooperative/business"; "bank"].
Proof.
  rewrite (parse_array_plain_list
             "institution/financial , cooperative/business,, bank").
  - reflexivity.
  - vm_compute. tauto.
Defined.

Lemma parse_array_cut_at_comma_witness :
  _parse_array ("[a, b]" +:+ String "," " c") = ["[a, b]"; "c"].
Proof.
  rewrite (parse_array_cut_at_comma "[a, b]" " c").
  - reflexivity.
  - split; reflexivity.
Defined.

Lemma parse_array_quoted_item_witness :
  _parse_array (String squote ("a, b" +:+ String squote "")) = ["a, b"]
  ∧ _parse_array
      (String squote ("a, b" +:+ String squote "") +:+ String "," " c")
    = "a, b" :: _parse_array " c".
Proof.
  apply (parse_array_quoted_item squote "a, b" " c").
  - by right.
  - vm_compute. tauto.
Defined.

(** ** The diagnostics on graphs built by the parser *)

Section Diagnostics.

(** *** Missing inverses *)

(** The table of the check is a part of the table of the parser. *)
Lemma errors_inverses_sub rel_type inverse_type :
  Errors.relation_inverses !! rel_type = Some inverse_type →
  relation_inverses !! rel_type = Some inverse_type.
Proof.
  intros H. apply elem_of_list_to_map_2 in H.
  unfold Errors.relation_inverses_table in H.
  repeat (apply elem_of_cons in H as [[= -> ->]|H]; [by vm_compute|]).
  by apply elem_of_nil in H.
Qed.

Lemma check_bidirectional_complete (S : gset (string * string * string))
    (l : list Edge) (errors : list Errors.SemWikiError) :
  (∀ e inverse,
     e ∈ l → Errors.relation_inverses !! e_relation e = Some inverse →
     (e_target e, inverse, e_source e) ∈ S) →
  fold_left
    (λ errors edge,
       match Errors.relation_inverses !! e_relation edge with
       | Some inverse =>
           let expected := (e_target edge, inverse, e_source edge) in
           if decide (expected ∉ S)
           then errors ++ [Errors.missing_inverse_error edge inverse]
           else errors
       | None => errors
       end)
    l errors
  = errors.
Proof.
  revert errors. induction l as [|e l IH]; intros errors Hall; [done|].
  cbn [fold_left].
  destruct (Errors.relation_inverses !! e_relation e) as [inverse|] eqn:Hrel.
  - cbn zeta. rewrite decide_False.
    + apply IH. intros e' inv He'. apply Hall. by constructor.
    + intros Hnot. apply Hnot, Hall; [constructor|done].
  - apply IH. intros e' inv He'. apply Hall. by constructor.
Qed.

(** The check of missing inverses finds nothing in a graph that the parser
    built from the empty one, when distinct triples among those of the calls
    and of their inverses have distinct edge ids. *)
Theorem parser_graph_has_no_missing_inverse (ops : list AddEdge) :
  ids_distinct (ops ≫= op_triples) →
  Errors._check_bidirectional_missing (edges (add_edges ops empty_graph)) []
  = [].
Proof.
  intros Hinj.
  destruct (edges_invariant_add_edges (ops ≫= op_triples) ops empty_graph)
    as (_ & _ & _ & Hcomplete); [done|done| |].
  { split_and!; simpl; constructor. }
  unfold Errors._check_bidirectional_missing. cbn zeta.
  apply check_bidirectional_complete. intros e inverse He Hrel.
  apply elem_of_list_to_set. rewrite Forall_forall in Hcomplete.
  apply (Hcomplete e He). by apply errors_inverses_sub.
Qed.

(** *** Taxonomy mappings *)

Lemma check_taxonomy_complete nodes mappings errors :
  (∀ k v, (k, v) ∈ mappings → is_Some (PyDict.dict_get k nodes)) →
  Errors._check_taxonomy_consistency nodes mappings errors = errors.
Proof.
  unfold Errors._check_taxonomy_consistency.
  revert errors. induction mappings as [|[k v] mappings IH];
    intros errors Hall; [done|].
  cbn [fold_left]. destruct (Hall k v) as [node ->]; [constructor|].
  apply IH. intros k' v' Hin. apply (Hall k' v'). by constructor.
Qed.

End Diagnostics.

Lemma parser_graph_has_no_missing_inverse_witness :
  Errors._check_bidirectional_missing
    (edges
       (add_edges
          [ mkAddEdge "bank" "part_of" "economy" "doc" "t0" "t1";
            mkAddEdge "bank" "is_a" "institution" "doc" "t2" "t3" ]
          empty_graph)) []
  = [].
Proof.
  apply (parser_graph_has_no_missing_inverse
           [ mkAddEdge "bank" "part_of" "economy" "doc" "t0" "t1";
             mkAddEdge "bank" "is_a" "institution" "doc" "t2" "t3" ]).
  unfold ids_distinct. vm_compute. repeat constructor; congruence.
Defined.

Section DiagnosticsTaxonomy.

Variable clock : nat → string.

Lemma mappings_have_nodes_add_concept graph tick concept :
  mappings_have_nodes graph →
  mappings_have_nodes (fst (add_concept clock (graph, tick) concept)).
Proof.
  intros Hinv k. rewrite add_concept_taxonomy.
  pose proof (add_concept_nodes clock graph tick concept k) as Hcore.
  destruct (decide (pc_search_path concept = k)) as [Hk|Hk].
  - intros _.
    destruct (PyDict.dict_get k (nodes graph));
      destruct (PyDict.dict_get k (nodes (fst (add_concept _ _ _))));
      done.
  - rewrite lookup_insert_ne by done. intros Hmap.
    destruct (Hinv k Hmap) as [node Hnode].
    destruct (add_concept_keeps_node clock graph tick concept k node Hnode)
      as (node' & -> & _). by eexists.
Qed.

(** [add_to_graph] keeps a node behind every taxonomy mapping, so that the
    check of the taxonomy mappings finds nothing stale in the graph it leaves,
    in whatever order the mappings are listed. *)
Theorem add_to_graph_leaves_no_stale_mapping (concepts : list ParsedConcept)
    (graph : Graph) (tick : nat) (mappings : list (string * string)) :
  mappings_have_nodes graph →
  items_of mappings
    (taxonomy_mappings (fst (add_to_graph clock concepts (graph, tick)))) →
  Errors._check_taxonomy_consistency
    (nodes (fst (add_to_graph clock concepts (graph, tick)))) mappings []
  = [].
Proof.
  intros Hinv Hitems.
  assert (mappings_have_nodes
            (fst (add_to_graph clock concepts (graph, tick)))) as Hinv'.
  { clear Hitems. revert graph tick Hinv.
    induction concepts as [|c concepts IH]; intros graph tick Hinv; [done|].
    rewrite add_to_graph_cons.
    pose proof (mappings_have_nodes_add_concept graph tick c Hinv) as H1.
    destruct (add_concept clock (graph, tick) c) as [g1 t1]. by apply IH. }
  apply check_taxonomy_complete. intros k v Hin. apply Hinv'.
  rewrite (Hitems k v Hin). by eexists.
Qed.

End DiagnosticsTaxonomy.

Lemma add_to_graph_leaves_no_stale_mapping_witness :
  Errors._check_taxonomy_consistency
    (nodes
       (fst (add_to_graph (λ _, "t")
               [ mkParsedConcept "bank" "institution/bank"
                   ["institution/bank"] [("is_a", Single "institution")]
                   "doc" ]
               (empty_graph, 0))))
    [("bank", "institution/bank")] []
  = [].
Proof.
  apply (add_to_graph_leaves_no_stale_mapping (λ _, "t")
           [ mkParsedConcept "bank" "institution/bank"
               ["institution/bank"] [("is_a", Single "institution")]
               "doc" ]
           empty_graph 0 [("bank", "institution/bank")]).
  - intros k [v Hv]. unfold empty_graph in Hv. simpl in Hv.
    rewrite lookup_empty in Hv. discriminate Hv.
  - intros k v Hin. apply list_elem_of_singleton in Hin as [= -> ->].
    vm_compute. reflexivity.
Defined.

(** *** Circular references *)

Section DiagnosticsCycles.

Variable l : list Edge.

Lemma adjacent_is_a_graph_of_edges v w :
  adjacent (Errors.is_a_graph_of_edges l) v w ↔ is_a_edge l v w.
Proof.
  unfold adjacent, Errors.is_a_graph_of_edges, is_a_edge.
  rewrite elem_of_fold_is_a. rewrite lookup_total_empty. set_solver.
Qed.

Lemma tc_adjacent_is_a_edge v w :
  tc (adjacent (Errors.is_a_graph_of_edges l)) v w ↔ tc (is_a_edge l) v w.
Proof.
  split.
  - apply (tc_congruence (R:=adjacent (Errors.is_a_graph_of_edges l)) id
             (is_a_edge l)).
    intros x y. by apply adjacent_is_a_graph_of_edges.
  - apply (tc_congruence (R:=is_a_edge l) id
             (adjacent (Errors.is_a_graph_of_edges l))).
    intros x y. by apply adjacent_is_a_graph_of_edges.
Qed.

Lemma elem_of_is_a_keys x :
  x ∈ Errors.is_a_keys l
  ↔ ∃ e, e ∈ l ∧ e_relation e = "is_a" ∧ e_source e = x.
Proof.
  unfold Errors.is_a_keys.
  assert (Hgen : ∀ l0 keys,
    x ∈ fold_left
          (λ keys edge,
             if decide (e_relation edge = "is_a")
             then (if decide (e_source edge ∈ keys) then keys
                   else keys ++ [e_source edge])
             else keys)
          l0 keys
    ↔ x ∈ keys ∨ ∃ e, e ∈ l0 ∧ e_relation e = "is_a" ∧ e_source e = x).
  { induction l0 as [|e l0 IH]; intros keys; cbn [fold_left].
    { split; [by left|]. intros [?|(e & ?%elem_of_nil & _)]; done. }
    rewrite IH. split.
    - intros [Hx|(e' & He' & H)].
      + destruct (decide (e_relation e = "is_a")) as [Hrel|]; [|by left].
        destruct (decide (e_source e ∈ keys)); [by left|].
        apply elem_of_app in Hx as [Hx|Hx%list_elem_of_singleton];
          [by left|].
        right. exists e. split; [constructor|done].
      + right. exists e'. split; [by constructor|done].
    - intros [Hx|(e' & [->|He']%elem_of_cons & Hrel & Hs)].
      + left. destruct (decide (e_relation e = "is_a")); [|done].
        destruct (decide (e_source e ∈ keys)); [done|].
        apply elem_of_app. by left.
      + left. rewrite decide_True by done. subst x.
        destruct (decide (e_source e ∈ keys)); [done|].
        apply elem_of_app. right. constructor.
      + right. by exists e'. }
  rewrite Hgen. split; [|by right].
  intros [?%elem_of_nil|?]; done.
Qed.

Lemma find_cycle_returns node :
  node ∈ Errors.is_a_keys l →
  is_Some (Errors.find_cycle (dfs_fuel l) (Errors.is_a_graph_of_edges l)
             node (∅, [])).
Proof.
  intros Hkey. unfold Errors.find_cycle.
  apply (dfs_returns _ ((e_source <$> l) ++ (e_target <$> l))).
  - intros v w (e & He & _ & _ & <-)%adjacent_is_a_graph_of_edges.
    apply elem_of_app. right. by apply list_elem_of_fmap_2.
  - constructor.
  - by intros x ?%elem_of_nil.
  - apply elem_of_is_a_keys in Hkey as (e & He & _ & <-).
    apply elem_of_app. left. by apply list_elem_of_fmap_2.
  - unfold dfs_fuel. rewrite length_app, !length_fmap. simpl. lia.
Qed.

(** A reported cycle has at least two entries; its last two are an is_a
    edge of the graph whose target lies on a cycle. *)
Lemma find_cycle_truthy node result st :
  Errors.find_cycle (dfs_fuel l) (Errors.is_a_graph_of_edges l) node (∅, [])
    = Some (result, st) →
  truthy result = true →
  ∃ first rest a b,
    result = Some (first :: rest)
    ∧ Errors.index_from_end (first :: rest) 2 = Some a
    ∧ Errors.index_from_end (first :: rest) 1 = Some b
    ∧ is_a_edge l a b
    ∧ tc (is_a_edge l) b b.
Proof.
  destruct st as [visited' path_stack']. intros Hrun Htruthy.
  destruct (dfs_truthy _ _ _ _ _ _ _ _ Hrun Htruthy (chain_singleton _ node))
    as (n & Hn & -> & _ & Hchain).
  pose proof (index_of_lookup n path_stack' Hn) as Hidx.
  pose proof (lookup_lt_Some _ _ _ Hidx) as Hlt.
  set (i := index_of n path_stack') in *.
  assert (Hcyc : tc (is_a_edge l) n n).
  { apply tc_adjacent_is_a_edge.
    apply (chain_tc _ (path_stack' ++ [n]) i (length path_stack')).
    - done.
    - done.
    - by rewrite lookup_app_l.
    - by rewrite lookup_app_r, Nat.sub_diag by lia. }
  rewrite (drop_S _ _ _ Hidx).
  destruct (lookup_lt_is_Some_2 path_stack' (length path_stack' - 1))
    as [a Ha]; [lia|].
  exists n, (drop (S i) path_stack' ++ [n]), a, n.
  assert (Hlen : length (n :: drop (S i) path_stack' ++ [n])
                 = length path_stack' - i + 1).
  { simpl. rewrite length_app, length_drop. simpl. lia. }
  assert (Hcycle : n :: drop (S i) path_stack' ++ [n]
                   = drop i (path_stack' ++ [n])).
  { rewrite drop_app_le by lia. by rewrite (drop_S _ _ _ Hidx). }
  split_and!.
  - done.
  - unfold Errors.index_from_end. rewrite decide_True by (rewrite Hlen; lia).
    rewrite Hlen, Hcycle, lookup_drop.
    replace (i + (length path_stack' - i + 1 - 2))
      with (length path_stack' - 1) by lia.
    by rewrite lookup_app_l by lia.
  - unfold Errors.index_from_end. rewrite decide_True by (rewrite Hlen; lia).
    rewrite Hlen, Hcycle, lookup_drop.
    replace (i + (length path_stack' - i + 1 - 1))
      with (length path_stack') by lia.
    by rewrite lookup_app_r, Nat.sub_diag by lia.
  - apply adjacent_is_a_graph_of_edges.
    apply (Hchain (length path_stack' - 1)).
    + by rewrite lookup_app_l by lia.
    + replace (S (length path_stack' - 1)) with (length path_stack') by lia.
      by rewrite lookup_app_r, Nat.sub_diag by lia.
  - done.
Qed.

Lemma find_cycle_falsy node result st :
  Errors.find_cycle (dfs_fuel l) (Errors.is_a_graph_of_edges l) node (∅, [])
    = Some (result, st) →
  truthy result = false →
  ¬ tc (is_a_edge l) node node.
Proof.
  destruct st as [visited' path_stack']. intros Hrun Hfalsy.
  destruct (dfs_falsy _ _ _ _ _ _ _ _ Hrun Hfalsy) as [-> ->].
  destruct (dfs_none _ _ _ _ _ _ _ Hrun) as (_ & Hin & _ & Hclosed).
  { intros v Hv. by apply elem_of_empty in Hv. }
  intros Hcyc%tc_adjacent_is_a_edge.
  destruct (Hclosed node Hin) as [_ Hno]; [by intros ?%elem_of_nil|done].
Qed.

Lemma check_keys_returns keys checked errors :
  (∀ k, k ∈ keys → k ∈ Errors.is_a_keys l) →
  ∃ errors',
    Errors.check_keys (dfs_fuel l) (Errors.is_a_graph_of_edges l) keys
      checked errors
    = Errors.Returned (errors ++ errors')
    ∧ Forall (reports_cycle l) errors'
    ∧ (errors' = [] →
       ∀ k, k ∈ keys → k ∉ checked → ¬ tc (is_a_edge l) k k).
Proof.
  revert checked errors.
  induction keys as [|node keys IH]; intros checked errors Hkeys.
  { exists []. rewrite app_nil_r. split_and!; [done|constructor|].
    by intros _ k ?%elem_of_nil. }
  assert (Hrest : ∀ k, k ∈ keys → k ∈ Errors.is_a_keys l)
    by (intros k Hk; apply Hkeys; by constructor).
  cbn [Errors.check_keys].
  destruct (decide (node ∈ checked)) as [Hchecked|Hfresh].
  { destruct (IH checked errors Hrest) as (errors' & -> & Hall & Hnone).
    exists errors'. split_and!; [done..|].
    intros He k [->|Hk]%elem_of_cons Hk'; [done|by apply Hnone]. }
  destruct (find_cycle_returns node) as [[result st] Hrun];
    [apply Hkeys; constructor|].
  rewrite Hrun. destruct (truthy result) eqn:Htruthy.
  - destruct (find_cycle_truthy node result st Hrun Htruthy)
      as (first & rest & a & b & -> & -> & -> & Hab & Hcyc).
    destruct (IH (list_to_set (first :: rest) ∪ checked)
                (errors ++ [Errors.circular_error (first :: rest) first (a, b)])
                Hrest) as (errors' & -> & Hall & _).
    exists (Errors.circular_error (first :: rest) first (a, b) :: errors').
    split_and!.
    + by rewrite <- app_assoc.
    + constructor; [|done]. by exists (first :: rest), a, b.
    + done.
  - destruct (IH checked errors Hrest) as (errors' & Hret & Hall & Hnone).
    exists errors'. split_and!.
    + destruct result as [[|first rest]|]; done.
    + done.
    + intros He k [->|Hk]%elem_of_cons Hk'; [|by apply Hnone].
      by eapply find_cycle_falsy.
Qed.


End DiagnosticsCycles.

Section DiagnosticsOnParserGraphs.

Lemma is_a_edge_is_a_rel graph v w :
  is_a_edge (edges graph) v w ↔ is_a_rel graph v w.
Proof.
  unfold is_a_edge, is_a_rel, has_edge. rewrite list_elem_of_fmap. split.
  - intros (e & He & Hrel & Hs & Ht). exists e. split; [|done].
    unfold triple_of. by rewrite Hrel, Hs, Ht.
  - intros (e & [= -> -> ->] & He). by exists e.
Qed.

(** The check of circular references finds nothing in a graph that the
    parser built from the empty one by calls of relations other than
    has_instance. *)
Theorem parser_graph_has_no_circular_reference (ops : list AddEdge) :
  Forall (λ op, op_relation op ≠ "has_instance") ops →
  Errors._check_circular_references (edges (add_edges ops empty_graph)) []
  = Errors.Returned [].
Proof.
  intros Hops.
  assert (Hacyc : ∀ graph,
    acyclic (is_a_rel graph) → acyclic (is_a_rel (add_edges ops graph))).
  { induction Hops as [|op ops Hop Hops IH]; intros graph Hg; [done|].
    simpl. apply IH. by apply acyclic_add_edge. }
  specialize (Hacyc empty_graph acyclic_empty_graph).
  destruct (check_keys_returns (edges (add_edges ops empty_graph))
              (Errors.is_a_keys (edges (add_edges ops empty_graph))) ∅ [])
    as (errors & Hret & Hall & _); [done|].
  unfold Errors._check_circular_references. rewrite Hret.
  destruct errors as [|err errors]; [done|].
  inversion_clear Hall as [|?? (cycle & a & b & _ & _ & Hcyc) _].
  destruct (Hacyc b).
  apply (tc_congruence
           (R:=is_a_edge (edges (add_edges ops empty_graph))) id
           (is_a_rel (add_edges ops empty_graph))); [|done].
  intros v w. by apply is_a_edge_is_a_rel.
Qed.

End DiagnosticsOnParserGraphs.

Lemma parser_graph_has_no_circular_reference_witness :
  Errors._check_circular_references
    (edges
       (add_edges
          [ mkAddEdge "a" "is_a" "b" "doc" "t0" "t1";
            mkAddEdge "b" "is_a" "c" "doc" "t2" "t3";
            mkAddEdge "c" "is_a" "a" "doc" "t4" "t5" ]
          empty_graph)) []
  = Errors.Returned [].
Proof.
  apply (parser_graph_has_no_circular_reference
           [ mkAddEdge "a" "is_a" "b" "doc" "t0" "t1";
             mkAddEdge "b" "is_a" "c" "doc" "t2" "t3";
             mkAddEdge "c" "is_a" "a" "doc" "t4" "t5" ]).
  repeat constructor; discriminate.
Defined.

(** *** Duplicate concepts *)

Section DiagnosticsDuplicates.

Lemma dict_get_group_append groups c id key :
  PyDict.dict_get key (Errors.group_append groups c id)
  = if decide (c = key)
    then Some (default [] (PyDict.dict_get c groups) ++ [id])
    else PyDict.dict_get key groups.
Proof.
  induction groups as [|[k ids] groups IH]; simpl.
  - by repeat case_decide.
  - destruct (decide (k = c)) as [->|Hkc]; simpl.
    + by destruct (decide (c = key)) as [->|?].
    + destruct (decide (k = key)) as [->|?].
      * by rewrite decide_False by done.
      * by rewrite IH.
Qed.

Lemma keys_group_append groups c id :
  fst <$> Errors.group_append groups c id
  = if decide (c ∈ fst <$> groups) then fst <$> groups
    else (fst <$> groups) ++ [c].
Proof.
  induction groups as [|[k ids] groups IH].
  - by destruct (decide (c ∈ fst <$> [])) as [?%elem_of_nil|].
  - cbn [Errors.group_append]. rewrite !fmap_cons. cbn [fst].
    destruct (decide (k = c)) as [->|Hkc].
    + rewrite fmap_cons. cbn [fst]. rewrite decide_True; [done|]. constructor.
    + rewrite fmap_cons, IH. cbn [fst].
      destruct (decide (c ∈ fst <$> groups)) as [Hin|Hout].
      * rewrite decide_True; [done|]. by constructor.
      * rewrite decide_False; [done|].
        intros [?|?]%elem_of_cons; [congruence|done].
Qed.

Lemma dict_get_elem_of {A} (d : list (string * A)) k v :
  NoDup (fst <$> d) → (k, v) ∈ d ↔ PyDict.dict_get k d = Some v.
Proof.
  induction d as [|[k' v'] d IH]; simpl.
  { intros _. split; [by intros ?%elem_of_nil|done]. }
  intros [Hnotin Hnodup]%NoDup_cons. specialize (IH Hnodup).
  destruct (decide (k' = k)) as [->|Hne].
  - split.
    + intros [[= ->]|Hin]%elem_of_cons; [done|].
      destruct Hnotin. apply list_elem_of_fmap. by exists (k, v).
    + intros [= ->]. constructor.
  - rewrite <- IH. split.
    + intros [[= -> ->]|Hin]%elem_of_cons; done.
    + intros Hin. by constructor.
Qed.

Lemma nodes_classified_snoc c nodes id node :
  nodes_classified c (nodes ++ [(id, node)])
  = nodes_classified c nodes
    ++ (if decide (Errors.classification_of node = c) then [id] else []).
Proof.
  unfold nodes_classified. rewrite filter_app, fmap_app. f_equal.
  rewrite filter_cons, filter_nil. simpl. by case_decide.
Qed.

(** The groups hold, for each classification path that is not empty and that
    some node has, the ids of the nodes that have it. *)
Lemma classifications_of_spec nodes :
  NoDup (fst <$> Errors.classifications_of nodes)
  ∧ ∀ c,
      PyDict.dict_get c (Errors.classifications_of nodes)
      = if decide (c = "") then None
        else match nodes_classified c nodes with
             | [] => None
             | ids => Some ids
             end.
Proof.
  unfold Errors.classifications_of.
  assert (Hgen : ∀ rest done groups,
    NoDup (fst <$> groups) →
    (∀ c, PyDict.dict_get c groups
          = if decide (c = "") then None
            else match nodes_classified c done with
                 | [] => None
                 | ids => Some ids
                 end) →
    let groups' :=
      fold_left
        (λ groups '(node_id, node),
           let classification := Errors.classification_of node in
           if decide (classification = "") then groups
           else Errors.group_append groups classification node_id)
        rest groups in
    NoDup (fst <$> groups')
    ∧ ∀ c, PyDict.dict_get c groups'
           = if decide (c = "") then None
             else match nodes_classified c (done ++ rest) with
                  | [] => None
                  | ids => Some ids
                  end).
  { induction rest as [|[id node] rest IH]; intros done groups Hnd Hget.
    { cbn zeta. simpl. by rewrite app_nil_r. }
    cbn [fold_left]. cbn zeta.
    replace (done ++ (id, node) :: rest) with ((done ++ [(id, node)]) ++ rest)
      by (by rewrite <- app_assoc).
    apply IH.
    - destruct (decide (Errors.classification_of node = "")); [done|].
      rewrite keys_group_append. case_decide as Hin; [done|].
      apply NoDup_app. split_and!; [done| |apply NoDup_singleton].
      by intros x Hx ->%list_elem_of_singleton.
    - intros c. rewrite nodes_classified_snoc.
      destruct (decide (Errors.classification_of node = "")) as [He|Hne].
      + rewrite Hget. destruct (decide (c = "")) as [->|Hc]; [done|].
        rewrite decide_False by congruence. by rewrite app_nil_r.
      + rewrite dict_get_group_append.
        destruct (decide (Errors.classification_of node = c)) as [<-|Hc].
        * rewrite decide_False by done. rewrite Hget.
          rewrite decide_False by done.
          by destruct (nodes_classified _ done).
        * rewrite Hget. by rewrite app_nil_r. }
  apply (Hgen nodes [] []); [constructor|].
  intros c. by case_decide.
Qed.

Lemma elem_of_classified c nodes :
  c ∈ classified nodes ↔ c ≠ "" ∧ nodes_classified c nodes ≠ [].
Proof.
  unfold classified, nodes_classified.
  rewrite list_elem_of_filter, list_elem_of_fmap. split.
  - intros [Hc ([id node] & -> & Hin)]. split; [done|].
    intros Hnil%fmap_nil_inv.
    assert ((id, node) ∈ filter
              (λ item, Errors.classification_of item.2
                       = Errors.classification_of node) nodes) as Hf
      by (by apply list_elem_of_filter).
    cbn [compose snd] in Hnil. rewrite Hnil in Hf.
    by apply elem_of_nil in Hf.
  - intros [Hc Hne]. split; [done|].
    destruct (filter _ nodes) as [|item f] eqn:Hf; [done|].
    assert (item ∈ filter (λ item, Errors.classification_of item.2 = c) nodes)
      as [Hitem Hin]%list_elem_of_filter by (rewrite Hf; constructor).
    by exists item.
Qed.

Lemma NoDup_classified nodes :
  NoDup (classified nodes)
  ↔ ∀ c, c ≠ "" → length (nodes_classified c nodes) ≤ 1.
Proof.
  induction nodes as [|[id node] nodes IH].
  { split; [intros _ c _; simpl; lia|intros _; constructor]. }
  assert (Hcons : ∀ c,
    nodes_classified c ((id, node) :: nodes)
    = (if decide (Errors.classification_of node = c) then [id] else [])
      ++ nodes_classified c nodes).
  { intros c. unfold nodes_classified. rewrite filter_cons. simpl.
    by case_decide. }
  unfold classified. rewrite fmap_cons, filter_cons. simpl.
  fold (classified nodes).
  destruct (decide (Errors.classification_of node ≠ "")) as [Hne|He].
  - rewrite NoDup_cons, IH, elem_of_classified. split.
    + intros [Hnew Hall] c Hc. rewrite Hcons, length_app.
      destruct (decide (Errors.classification_of node = c)) as [<-|?].
      * destruct (nodes_classified _ nodes) eqn:Hn; [simpl; lia|].
        by destruct Hnew.
      * specialize (Hall c Hc). simpl. lia.
    + intros Hall. split.
      * intros [_ Hnn]. specialize (Hall _ Hne). rewrite Hcons in Hall.
        rewrite decide_True, length_app in Hall by done. simpl in Hall.
        destruct (nodes_classified _ nodes); [done|simpl in Hall; lia].
      * intros c Hc. specialize (Hall c Hc).
        rewrite Hcons, length_app in Hall. lia.
  - rewrite IH. apply dec_stable in He. split.
    + intros Hall c Hc. rewrite Hcons.
      rewrite decide_False by congruence. by apply Hall.
    + intros Hall c Hc. specialize (Hall c Hc). rewrite Hcons in Hall.
      by rewrite decide_False in Hall by congruence.
Qed.

Lemma check_duplicates_fold nodes groups errors :
  (∀ c ids, (c, ids) ∈ groups →
            c ≠ "" ∧ ids = nodes_classified c nodes) →
  ∃ errors',
    fold_left
      (λ errors '(classification, ids),
         match ids with
         | first :: _ :: _ =>
             errors ++
             [Errors.duplicate_concept_error classification ids first]
         | _ => errors
         end)
      groups errors
    = errors ++ errors'
    ∧ Forall (reports_duplicate nodes) errors'
    ∧ (errors' = [] → ∀ c ids, (c, ids) ∈ groups → length ids ≤ 1).
Proof.
  revert errors. induction groups as [|[c ids] groups IH];
    intros errors Hgroups.
  { exists []. rewrite app_nil_r. split_and!; [done|constructor|].
    by intros _ c ids ?%elem_of_nil. }
  assert (Hrest : ∀ c ids, (c, ids) ∈ groups →
                           c ≠ "" ∧ ids = nodes_classified c nodes)
    by (intros c' ids' H; apply Hgroups; by constructor).
  destruct (Hgroups c ids) as [Hc Hids]; [constructor|].
  cbn [fold_left].
  destruct ids as [|first [|second ids]].
  - destruct (IH errors Hrest) as (errors' & -> & Hall & Hnone).
    exists errors'. split_and!; [done..|].
    intros He c' ids' [[= -> ->]|Hin]%elem_of_cons; [simpl; lia|].
    by eapply Hnone.
  - destruct (IH errors Hrest) as (errors' & -> & Hall & Hnone).
    exists errors'. split_and!; [done..|].
    intros He c' ids' [[= -> ->]|Hin]%elem_of_cons; [simpl; lia|].
    by eapply Hnone.
  - destruct (IH (errors ++
                  [Errors.duplicate_concept_error c
                     (first :: second :: ids) first]) Hrest)
      as (errors' & -> & Hall & _).
    exists (Errors.duplicate_concept_error c (first :: second :: ids) first
            :: errors').
    split_and!; [by rewrite <- app_assoc| |done].
    constructor; [|done].
    exists c, first, (first :: second :: ids).
    split_and!; [done..|simpl; lia|done|done].
Qed.

(** The check of duplicate concepts reports nothing exactly when no two
    nodes have the same classification path (nodes without one, or with the
    empty one, set aside); a report names a classification path with the ids
    of all the nodes that share it, in the order of the nodes. *)
Theorem duplicate_check_reports_iff_shared (nodes : list (string * Node)) :
  (Errors._check_duplicate_concepts nodes [] = []
   ↔ NoDup (classified nodes))
  ∧ Forall (reports_duplicate nodes)
      (Errors._check_duplicate_concepts nodes []).
Proof.
  destruct (classifications_of_spec nodes) as [Hnd Hget].
  assert (Hgroups : ∀ c ids,
    (c, ids) ∈ Errors.classifications_of nodes ↔
    c ≠ "" ∧ ids ≠ [] ∧ ids = nodes_classified c nodes).
  { intros c ids. rewrite (dict_get_elem_of _ _ _ Hnd), Hget.
    destruct (decide (c = "")) as [->|Hc]; [naive_solver|].
    destruct (nodes_classified c nodes) eqn:Hn; naive_solver. }
  destruct (check_duplicates_fold nodes (Errors.classifications_of nodes) [])
    as (errors & Hret & Hall & Hnone).
  { intros c ids Hin. apply Hgroups in Hin. tauto. }
  unfold Errors._check_duplicate_concepts. rewrite Hret. simpl.
  split; [|done]. rewrite NoDup_classified. split.
  - intros He c Hc.
    destruct (nodes_classified c nodes) as [|id ids] eqn:Hn; [simpl; lia|].
    rewrite <- Hn. apply (Hnone He c). apply Hgroups.
    split_and!; [done|by rewrite Hn|done].
  - intros Hle. destruct errors as [|err errors]; [done|].
    inversion_clear Hall as [|?? (c & first & ids & _ & Hc & -> & Hlen & _) _].
    specialize (Hle c Hc). lia.
Qed.

End DiagnosticsDuplicates.
